(** * Raahi city generator: a shallow embedding of [city_builder.py]

    The development follows [src/city_generator/city_builder.py]: the
    zone grid, the three-tier station placement, the four edge passes
    of the connection builder and the route synthesiser.  Python's
    ambient [random] module is made explicit as a state that every
    drawing operation threads; exceptions are a result type. *)

From Stdlib Require Import ZArith List String Ascii Bool Lia Permutation.
From Stdlib Require Import Floats DecimalString DecimalNat ZifyNat.
Import ListNotations.
Open Scope Z_scope.

Set Implicit Arguments.

(** ** Exceptions and the generator monad *)

(** The exceptions the generator can raise.  [NonTermination] stands
    for a [while] loop whose state no longer changes (the Python
    program would spin forever). *)
Inductive PyError : Type :=
| ValueError
| IndexError
| KeyError
| NonTermination.

Inductive result (A : Type) : Type :=
| Ok (a : A)
| Raise (e : PyError).

Arguments Ok {A} a.
Arguments Raise {A} e.

(** The state of the [random] module: an unbounded tape of raw draws
    and the position of the next one.  Every call of [random.randint],
    [random.random] or [random.choice] consumes one draw. *)
Record Random : Type := mkRandom { stream : nat -> N; cursor : nat }.

Definition getrand (g : Random) : N * Random :=
  (stream g (cursor g), mkRandom (stream g) (S (cursor g))).

Definition M (A : Type) : Type := Random -> result (A * Random).

Definition ret {A} (a : A) : M A := fun g => Ok (a, g).

Definition bind {A B} (c : M A) (k : A -> M B) : M B :=
  fun g => match c g with
           | Ok (a, g') => k a g'
           | Raise e => Raise e
           end.

Definition raise {A} (e : PyError) : M A := fun _ => Raise e.

Definition lift {A} (r : result A) : M A :=
  fun g => match r with Ok a => Ok (a, g) | Raise e => Raise e end.

Notation "x <- c ;; k" := (bind c (fun x => k))
  (at level 61, c at next level, right associativity).
Notation "' p <- c ;; k" := (bind c (fun v => let p := v in k))
  (at level 61, p pattern, c at next level, right associativity).

(** [random.randint(a, b)]: an integer of [a..b]; an empty range raises
    [ValueError]. *)
Definition randint (a b : Z) : M Z :=
  fun g => if b <? a then Raise ValueError
           else let (r, g') := getrand g in
                Ok (a + Z.of_N r mod (b - a + 1), g').

(** [random.random()]: [k / 2^53] for a 53-bit [k], as CPython builds it. *)
Definition random_unit (r : N) : float :=
  (PrimFloat.of_uint63 (Uint63.of_Z (Z.of_N r mod 2 ^ 53)) * 0x1p-53)%float.

Definition random : M float :=
  fun g => let (r, g') := getrand g in Ok (random_unit r, g').

(** [random.choice(seq)]: [IndexError] on an empty sequence. *)
Definition choice {A} (l : list A) : M A :=
  fun g => match l with
           | [] => Raise IndexError
           | _ :: _ =>
               let (r, g') := getrand g in
               match nth_error l (N.to_nat (r mod N.of_nat (List.length l))) with
               | Some a => Ok (a, g')
               | None => Raise IndexError
               end
           end.

(** [for x in xs: body], threading an accumulator. *)
Fixpoint for_each {A S} (xs : list A) (body : S -> A -> M S) (s : S) : M S :=
  match xs with
  | [] => ret s
  | x :: xs' => s' <- body s x ;; for_each xs' body s'
  end.

(** [range(a, b)] *)
Definition range (a b : Z) : list Z :=
  map (fun i => a + Z.of_nat i) (seq 0 (Z.to_nat (b - a))).

(** [int(f)] for a finite float: truncation towards zero. *)
Definition int_of_float (f : float) : Z :=
  match Prim2SF f with
  | S754_finite s m e =>
      let a := if 0 <=? e then Z.pos m * 2 ^ e else Z.pos m / 2 ^ (- e) in
      if s then - a else a
  | _ => 0
  end.

Definition float_of_int (n : Z) : float := PrimFloat.of_uint63 (Uint63.of_Z n).

(** f"{n}" for a non-negative integer. *)
Definition str_of_nat (n : nat) : string := NilZero.string_of_uint (Nat.to_uint n).

(** ** Data model *)

Inductive Mode : Type := Bus | Tram | Metro.

Definition Mode_eqb (a b : Mode) : bool :=
  match a, b with
  | Bus, Bus | Tram, Tram | Metro, Metro => true
  | _, _ => false
  end.

Definition mode_name (m : Mode) : string :=
  match m with Bus => "bus" | Tram => "tram" | Metro => "metro" end.

Module Zone.
Record t : Type := mk { x : Z; y : Z; zone_type : string }.
End Zone.

Module Station.
Record t : Type :=
  mk { id : string; x : Z; y : Z; station_type : Mode; is_transfer : bool }.

(** Equality of station dictionaries ([==] on dicts compares every key). *)
Definition eqb (a b : t) : bool :=
  String.eqb (id a) (id b) && Z.eqb (x a) (x b) && Z.eqb (y a) (y b)
  && Mode_eqb (station_type a) (station_type b)
  && Bool.eqb (is_transfer a) (is_transfer b).

(** [station["is_transfer"] = True] *)
Definition set_transfer (s : t) : t :=
  mk (id s) (x s) (y s) (station_type s) true.
End Station.

Module Connection.
Record t : Type := mk { from : string; to : string; walk_time : Z }.
End Connection.

Module Route.
Record t : Type :=
  mk { id : string; mode : Mode; stations : list string; color : string }.
End Route.

Record CityModel : Type := mkCity {
  city_grid_size : Z;
  zones : list Zone.t;
  stations : list Station.t;
  connections : list Connection.t;
  routes : list Route.t
}.

(** [CityBuilder.__init__] *)
Record CityBuilder : Type := mkBuilder {
  grid_size : Z;
  zone_types : list string;
  station_types : list string
}.

Definition CityBuilder_init (grid_size : Z) : CityBuilder :=
  mkBuilder grid_size
    ["residential"; "commercial"; "industrial"]%string
    ["bus"; "tram"; "metro"]%string.

(** ** Zones: [_generate_zones] *)

Definition Grid : Type := list (list (option string)).

Definition new_grid (n : Z) : Grid :=
  map (fun _ => map (fun _ => None) (range 0 n)) (range 0 n).

Definition grid_get (grid : Grid) (x y : Z) : option (option string) :=
  match nth_error grid (Z.to_nat x) with
  | Some row => nth_error row (Z.to_nat y)
  | None => None
  end.

Fixpoint list_set {A} (l : list A) (i : nat) (v : A) : list A :=
  match l, i with
  | [], _ => []
  | _ :: t, O => v :: t
  | h :: t, S i' => h :: list_set t i' v
  end.

Definition grid_set (grid : Grid) (x y : Z) (v : option string) : Grid :=
  match nth_error grid (Z.to_nat x) with
  | Some row => list_set grid (Z.to_nat x) (list_set row (Z.to_nat y) v)
  | None => grid
  end.

(** The body of the two [dx]/[dy] loops for one cluster centre. *)
Definition fill_cluster (n cluster_size : Z) (zone_type : string)
    (center_x center_y : Z) (grid : Grid) : Grid :=
  fold_left
    (fun grid dx =>
       fold_left
         (fun grid dy =>
            let x := center_x + dx in
            let y := center_y + dy in
            if (0 <=? x) && (x <? n) && (0 <=? y) && (y <? n) then
              match grid_get grid x y with
              | Some None => grid_set grid x y (Some zone_type)
              | _ => grid
              end
            else grid)
         (range (- cluster_size / 2) (cluster_size / 2 + 1)) grid)
    (range (- cluster_size / 2) (cluster_size / 2 + 1)) grid.

Definition place_clusters (b : CityBuilder) (cluster_size : Z) (grid : Grid) : M Grid :=
  for_each (zone_types b)
    (fun grid zone_type =>
       center_x <- randint (cluster_size / 2) (grid_size b - cluster_size / 2 - 1) ;;
       center_y <- randint (cluster_size / 2) (grid_size b - cluster_size / 2 - 1) ;;
       ret (fill_cluster (grid_size b) cluster_size zone_type center_x center_y grid))
    grid.

(** The final double loop: fill what is still [None] and emit the zone. *)
Definition fill_cell (b : CityBuilder) (x : Z)
    (st : Grid * list Zone.t) (y : Z) : M (Grid * list Zone.t) :=
  let (grid, zones) := st in
  match grid_get grid x y with
  | None => raise IndexError
  | Some (Some zt) => ret (grid, zones ++ [Zone.mk x y zt])
  | Some None =>
      zt <- choice (zone_types b) ;;
      ret (grid_set grid x y (Some zt), zones ++ [Zone.mk x y zt])
  end.

Definition fill_remaining (b : CityBuilder) (grid : Grid) : M (Grid * list Zone.t) :=
  for_each (range 0 (grid_size b))
    (fun st x => for_each (range 0 (grid_size b)) (fill_cell b x) st)
    (grid, []).

Definition _generate_zones (b : CityBuilder) : M (list Zone.t) :=
  let grid := new_grid (grid_size b) in
  let cluster_size := Z.max 2 (grid_size b / 3) in
  grid <- place_clusters b cluster_size grid ;;
  '(_, zones) <- fill_remaining b grid ;;
  ret zones.

(** ** Stations: [_generate_stations] *)

Definition manhattan (x1 y1 x2 y2 : Z) : Z := Z.abs (x1 - x2) + Z.abs (y1 - y2).

Definition is_too_close (x y : Z) (existing_positions : list (Z * Z)) (min_dist : Z) : bool :=
  existsb (fun p => manhattan x y (fst p) (snd p) <? min_dist) existing_positions.

(** One sampled cell: [x] is drawn before [y]. *)
Definition sample_cell (n : Z) : M (Z * Z) :=
  x <- randint 0 (n - 1) ;;
  y <- randint 0 (n - 1) ;;
  ret (x, y).

(** The [for _ in range(max_attempts)] loop of [find_good_position],
    followed by the unconditional draw after it. *)
Fixpoint find_good_position_loop (n : Z) (existing_positions : list (Z * Z))
    (min_dist : Z) (attempts : nat) : M (Z * Z) :=
  match attempts with
  | O => sample_cell n
  | S attempts' =>
      p <- sample_cell n ;;
      if negb (is_too_close (fst p) (snd p) existing_positions min_dist)
      then ret p
      else find_good_position_loop n existing_positions min_dist attempts'
  end.

Definition max_attempts : nat := 50.

Definition find_good_position (n : Z) (existing_positions : list (Z * Z))
    (min_dist : Z) : M (Z * Z) :=
  find_good_position_loop n existing_positions min_dist max_attempts.

(** [max(floor, int(total_area * base_density * share))] in binary64. *)
Definition density_count (floor : Z) (total_area : Z) (share : float) : Z :=
  Z.max floor (int_of_float (float_of_int total_area * 0.25 * share)%float).

Definition metro_share : float := 0x1.3333333333333p-2%float.  (* 0.3 *)
Definition tram_share : float := 0x1.6666666666666p-2%float.   (* 0.35 *)
Definition bus_share : float := 0x1.999999999999ap-2%float.    (* 0.4 *)

Definition transfer_chance : float := 0x1.999999999999ap-2%float. (* 0.4 *)
Definition bus_transfer_chance : float := 0x1.3333333333333p-2%float. (* 0.3 *)

Definition station_name (station_id : nat) : string :=
  ("station_" ++ str_of_nat station_id)%string.

(** The state the three placement loops share. *)
Record Placement : Type := mkPlacement {
  placed : list Station.t;
  station_positions : list (Z * Z);
  station_id : nat
}.

Definition add_station (st : Placement) (positions : list (Z * Z))
    (x y : Z) (mode : Mode) : Placement :=
  mkPlacement
    (placed st ++ [Station.mk (station_name (station_id st)) x y mode false])
    positions
    (S (station_id st)).

Definition place_metro (n min_distance : Z) (st : Placement) (_ : Z) : M Placement :=
  p <- find_good_position n (station_positions st) min_distance ;;
  ret (add_station st (station_positions st ++ [p]) (fst p) (snd p) Metro).

Definition place_tram (n min_distance : Z) (st : Placement) (i : Z) : M Placement :=
  let fresh :=
    p <- find_good_position n (station_positions st) (min_distance / 2) ;;
    ret (add_station st (station_positions st ++ [p]) (fst p) (snd p) Tram) in
  if i <? Z.of_nat (List.length (station_positions st)) then
    r <- random ;;
    if (r <? transfer_chance)%float then
      match nth_error (station_positions st) (Z.to_nat i) with
      | Some p => ret (add_station st (station_positions st) (fst p) (snd p) Tram)
      | None => raise IndexError
      end
    else fresh
  else fresh.

Definition place_bus (n min_distance : Z) (st : Placement) (i : Z) : M Placement :=
  let fresh :=
    p <- find_good_position n (station_positions st) (min_distance / 3) ;;
    ret (add_station st (station_positions st ++ [p]) (fst p) (snd p) Bus) in
  if i <? Z.of_nat (List.length (station_positions st)) then
    r <- random ;;
    if (r <? bus_transfer_chance)%float then
      match nth_error (station_positions st)
              (Z.to_nat (i mod Z.of_nat (List.length (station_positions st)))) with
      | Some p => ret (add_station st (station_positions st) (fst p) (snd p) Bus)
      | None => raise IndexError
      end
    else fresh
  else fresh.

Definition _generate_stations (b : CityBuilder) : M (list Station.t) :=
  let total_area := grid_size b * grid_size b in
  let metro := density_count 3 total_area metro_share in
  let tram := density_count 4 total_area tram_share in
  let bus := density_count 5 total_area bus_share in
  let min_distance := Z.max 2 (grid_size b / 6) in
  st <- for_each (range 0 metro) (place_metro (grid_size b) min_distance)
          (mkPlacement [] [] 0) ;;
  st <- for_each (range 0 tram) (place_tram (grid_size b) min_distance) st ;;
  st <- for_each (range 0 bus) (place_bus (grid_size b) min_distance) st ;;
  ret (placed st).

(** ** Connections: [_generate_connections] *)

Definition rbind {A B} (r : result A) (k : A -> result B) : result B :=
  match r with Ok a => k a | Raise e => Raise e end.

Fixpoint fold_result {A S} (xs : list A) (body : S -> A -> result S) (s : S) : result S :=
  match xs with
  | [] => Ok s
  | x :: xs' => rbind (body s x) (fold_result xs' body)
  end.

Definition mem (a : string) (l : list string) : bool := existsb (String.eqb a) l.

(** [s.add(a)] on a set kept as a duplicate-free list in insertion order.
    CPython iterates a set of strings in hash order; nothing proved
    below depends on the order chosen here. *)
Definition set_add (a : string) (l : list string) : list string :=
  if mem a l then l else l ++ [a].

Definition set_update (l extra : list string) : list string :=
  fold_left (fun l a => set_add a l) extra l.

Definition loc_eqb (p q : Z * Z) : bool := (fst p =? fst q) && (snd p =? snd q).

(** [location_groups]: an insertion-ordered dict from a coordinate to
    the stations placed there.  A group holds references: a station is
    named by its index in the station list, which is the store the
    transfer marking writes through. *)
Definition Groups : Type := list ((Z * Z) * list nat).

Fixpoint group_append (loc : Z * Z) (i : nat) (groups : Groups) : Groups :=
  match groups with
  | [] => [(loc, [i])]
  | (l, g) :: rest =>
      if loc_eqb l loc then (l, g ++ [i]) :: rest
      else (l, g) :: group_append loc i rest
  end.

Definition location_groups (stations : list Station.t) : Groups :=
  fold_left
    (fun groups p => group_append (Station.x (snd p), Station.y (snd p)) (fst p) groups)
    (combine (seq 0 (List.length stations)) stations) [].

Fixpoint list_update {A} (l : list A) (i : nat) (f : A -> A) : list A :=
  match l, i with
  | [], _ => []
  | h :: t, O => f h :: t
  | h :: t, S i' => h :: list_update t i' f
  end.

Definition mark_group (store : list Station.t) (group : list nat) : list Station.t :=
  fold_left (fun store i => list_update store i Station.set_transfer) group store.

Definition transfer_walk_time : Z := 2.

(** [for i, s1 in enumerate(group): for s2 in group[i+1:]: ...] *)
Fixpoint group_edges (store : list Station.t) (group : list nat)
    (connections : list Connection.t) : list Connection.t :=
  match group with
  | [] => connections
  | i :: rest =>
      group_edges store rest
        (fold_left
           (fun connections j =>
              match nth_error store i, nth_error store j with
              | Some s1, Some s2 =>
                  if negb (Mode_eqb (Station.station_type s1) (Station.station_type s2))
                  then connections ++
                       [Connection.mk (Station.id s1) (Station.id s2) transfer_walk_time]
                  else connections
              | _, _ => connections
              end)
           rest connections)
  end.

Definition transfer_pass (stations : list Station.t)
    : list Station.t * list Connection.t :=
  fold_left
    (fun st entry =>
       let group := snd entry in
       if (1 <? List.length group)%nat
       then let store := mark_group (fst st) group in
            (store, group_edges store group (snd st))
       else st)
    (location_groups stations) (stations, []).

(** The running minimum of the backbone scan; [None] is [float('inf')]. *)
Definition Best : Type := option (Z * (Station.t * Station.t)).

Definition station_distance (s1 s2 : Station.t) : Z :=
  manhattan (Station.x s1) (Station.y s1) (Station.x s2) (Station.y s2).

Definition closer (best : Best) (s1 s2 : Station.t) : Best :=
  let dist := station_distance s1 s2 in
  match best with
  | None => Some (dist, (s1, s2))
  | Some (min_dist, _) => if dist <? min_dist then Some (dist, (s1, s2)) else best
  end.

Definition closest_pair (stations : list Station.t) (connected : list string) : Best :=
  fold_left
    (fun best s1 =>
       if mem (Station.id s1) connected then
         fold_left
           (fun best s2 =>
              if negb (mem (Station.id s2) connected) then closer best s1 s2 else best)
           stations best
       else best)
    stations None.

(** The [while len(connected) < len(stations)] loop.  An iteration
    without a [best_pair] leaves the state as it was, so the Python loop
    never ends: that is [NonTermination].  Every other iteration grows
    [connected], so [fuel = len(stations)] is never used up
    ([backbone_loop_fuel]). *)
Fixpoint backbone_loop (fuel : nat) (stations : list Station.t)
    (connected : list string) (connections : list Connection.t)
    : result (list Connection.t) :=
  if (List.length connected <? List.length stations)%nat then
    match fuel with
    | O => Raise NonTermination
    | S fuel' =>
        match closest_pair stations connected with
        | Some (min_dist, (s1, s2)) =>
            backbone_loop fuel' stations
              (set_add (Station.id s2) connected)
              (connections ++
               [Connection.mk (Station.id s1) (Station.id s2) (min_dist * 120)])
        | None => Raise NonTermination
        end
    end
  else Ok connections.

Definition backbone_pass (stations : list Station.t)
    (connections : list Connection.t) : result (list Connection.t) :=
  let connected :=
    match stations with
    | [] => []
    | s0 :: _ => set_add (Station.id s0) []
    end in
  backbone_loop (List.length stations) stations connected connections.

Definition connection_exists (connections : list Connection.t) (a b : string) : bool :=
  existsb
    (fun c =>
       (String.eqb (Connection.from c) a && String.eqb (Connection.to c) b)
       || (String.eqb (Connection.from c) b && String.eqb (Connection.to c) a))
    connections.

(** [max(3, int(distance * 100 / 60))]: true division, then truncation. *)
Definition local_walk_time (distance : Z) : Z :=
  Z.max 3 (int_of_float (float_of_int (distance * 100) / 60)%float).

Definition walking_step (s1 : Station.t) (connections : list Connection.t)
    (s2 : Station.t) : list Connection.t :=
  if Mode_eqb (Station.station_type s1) (Station.station_type s2) then connections
  else
    let distance := station_distance s1 s2 in
    if distance <=? 2 then
      if connection_exists connections (Station.id s1) (Station.id s2)
      then connections
      else connections ++
           [Connection.mk (Station.id s1) (Station.id s2) (local_walk_time distance)]
    else connections.

Fixpoint walking_pass (stations : list Station.t)
    (connections : list Connection.t) : list Connection.t :=
  match stations with
  | [] => connections
  | s1 :: rest => walking_pass rest (fold_left (walking_step s1) rest connections)
  end.

(** ** Connectivity check and repair *)

(** [graph = defaultdict(set)]: an insertion-ordered dict from an id to
    the set of its neighbours. *)
Definition Graph : Type := list (string * list string).

Fixpoint graph_add (graph : Graph) (a b : string) : Graph :=
  match graph with
  | [] => [(a, [b])]
  | (k, s) :: rest =>
      if String.eqb k a then (k, set_add b s) :: rest
      else (k, s) :: graph_add rest a b
  end.

Definition build_graph (connections : list Connection.t) : Graph :=
  fold_left
    (fun graph conn =>
       graph_add (graph_add graph (Connection.from conn) (Connection.to conn))
         (Connection.to conn) (Connection.from conn))
    connections [].

(** [graph[a]]; a missing key reads as the empty set. *)
Fixpoint neighbours (graph : Graph) (a : string) : list string :=
  match graph with
  | [] => []
  | (k, s) :: rest => if String.eqb k a then s else neighbours rest a
  end.

(** The body of [for neighbor in graph[current]] in [_verify_connectivity]. *)
Definition visit (st : list string * list string) (neighbor : string)
    : list string * list string :=
  if mem neighbor (fst st) then st
  else (fst st ++ [neighbor], snd st ++ [neighbor]).

(** [while queue:].  Every id is enqueued at most once and every id
    enqueued after the start is a key of the graph, so the fuel
    [bfs] supplies is never used up ([bfs_total]). *)
Fixpoint bfs_loop (fuel : nat) (graph : Graph) (visited queue : list string)
    : result (list string) :=
  match queue with
  | [] => Ok visited
  | current :: queue' =>
      match fuel with
      | O => Raise NonTermination
      | S fuel' =>
          let st := fold_left visit (neighbours graph current) (visited, queue') in
          bfs_loop fuel' graph (fst st) (snd st)
      end
  end.

Definition bfs (graph : Graph) (start : string) : result (list string) :=
  bfs_loop (S (List.length graph)) graph [start] [start].

Definition station_ids (stations : list Station.t) : list string :=
  fold_left (fun ids s => set_add (Station.id s) ids) stations [].

Definition _verify_connectivity (stations : list Station.t)
    (connections : list Connection.t) : result bool :=
  match stations with
  | [] => Ok true
  | s0 :: _ =>
      rbind (bfs (build_graph connections) (Station.id s0))
        (fun visited =>
           Ok (List.length visited =? List.length (station_ids stations))%nat)
  end.

(** The component search of [_ensure_connectivity]: the same traversal,
    with [visited] shared between the searches and [component] local. *)
Definition visit_component (st : list string * list string * list string)
    (neighbor : string) : list string * list string * list string :=
  let '(visited, queue, component) := st in
  if mem neighbor visited then st
  else (set_add neighbor visited, queue ++ [neighbor], set_add neighbor component).

Fixpoint component_loop (fuel : nat) (graph : Graph)
    (visited queue component : list string)
    : result (list string * list string) :=
  match queue with
  | [] => Ok (visited, component)
  | current :: queue' =>
      match fuel with
      | O => Raise NonTermination
      | S fuel' =>
          let '(v, q, c) :=
            fold_left visit_component (neighbours graph current)
              (visited, queue', component) in
          component_loop fuel' graph v q c
      end
  end.

Definition find_components (graph : Graph) (stations : list Station.t)
    : result (list (list string)) :=
  rbind
    (fold_result stations
       (fun st station =>
          let station_id := Station.id station in
          if mem station_id (fst st) then Ok st
          else
            rbind
              (component_loop (S (List.length graph)) graph
                 (set_add station_id (fst st)) [station_id] [station_id])
              (fun vc => Ok (fst vc, snd st ++ [snd vc])))
       ([], []))
    (fun st => Ok (snd st)).

(** [station_dict[i]]: the last station carrying the id; [KeyError] if none. *)
Definition station_dict_get (stations : list Station.t) (i : string)
    : result Station.t :=
  match find (fun s => String.eqb (Station.id s) i) (rev stations) with
  | Some s => Ok s
  | None => Raise KeyError
  end.

(** The running minimum of the repair scan, with the two component
    indices it was found at. *)
Record Bridge : Type := mkBridge {
  bridge_dist : Z;
  bridge_from : string;
  bridge_to : string;
  comp1_idx : nat;
  comp2_idx : nat
}.

Definition scan_components (stations : list Station.t) (i j : nat)
    (comp1 comp2 : list string) (best : option Bridge) : result (option Bridge) :=
  fold_result comp1
    (fun best s1_id =>
       fold_result comp2
         (fun best s2_id =>
            rbind (station_dict_get stations s1_id) (fun s1 =>
            rbind (station_dict_get stations s2_id) (fun s2 =>
              let dist := station_distance s1 s2 in
              match best with
              | None => Ok (Some (mkBridge dist s1_id s2_id i j))
              | Some br =>
                  if dist <? bridge_dist br
                  then Ok (Some (mkBridge dist s1_id s2_id i j))
                  else Ok best
              end)))
         best)
    best.

Fixpoint closest_bridge (stations : list Station.t) (i : nat)
    (components : list (list string)) (best : option Bridge)
    : result (option Bridge) :=
  match components with
  | [] => Ok best
  | comp1 :: rest =>
      rbind
        (fold_result (combine (seq (S i) (List.length rest)) rest)
           (fun best jc => scan_components stations i (fst jc) comp1 (snd jc) best)
           best)
        (closest_bridge stations (S i) rest)
  end.

Fixpoint list_pop {A} (l : list A) (i : nat) : list A :=
  match l, i with
  | [], _ => []
  | _ :: t, O => t
  | h :: t, S i' => h :: list_pop t i'
  end.

(** [while len(components) > 1].  As in the backbone loop an iteration
    without a bridge changes nothing, and every other one drops a
    component. *)
Fixpoint repair_loop (fuel : nat) (stations : list Station.t)
    (components : list (list string)) (connections : list Connection.t)
    : result (list Connection.t) :=
  if (1 <? List.length components)%nat then
    match fuel with
    | O => Raise NonTermination
    | S fuel' =>
        rbind (closest_bridge stations 0 components None) (fun best =>
          match best with
          | None => Raise NonTermination
          | Some br =>
              let merged :=
                list_update components (comp1_idx br)
                  (fun c => set_update c (nth (comp2_idx br) components [])) in
              repair_loop fuel' stations (list_pop merged (comp2_idx br))
                (connections ++
                 [Connection.mk (bridge_from br) (bridge_to br) (bridge_dist br * 120)])
          end)
    end
  else Ok connections.

Definition _ensure_connectivity (stations : list Station.t)
    (connections : list Connection.t) : result (list Connection.t) :=
  rbind (_verify_connectivity stations connections) (fun connected =>
    if connected then Ok connections
    else
      rbind (find_components (build_graph connections) stations) (fun components =>
        repair_loop (List.length components) stations components connections)).

Definition _generate_connections (stations : list Station.t)
    : result (list Station.t * list Connection.t) :=
  let (stations, connections) := transfer_pass stations in
  rbind (backbone_pass stations connections) (fun connections =>
    let connections := walking_pass stations connections in
    rbind (_ensure_connectivity stations connections) (fun connections =>
      Ok (stations, connections))).

(** ** Routes: [_generate_routes] *)

(** [min(xs, key=key)]: the first element whose key is minimal. *)
Definition min_by {A} (key : A -> Z) (first : A) (others : list A) : A :=
  fold_left (fun best a => if key a <? key best then a else best) others first.

(** [remaining.remove(a)]: drops the first element equal to [a]. *)
Fixpoint remove_first (a : Station.t) (l : list Station.t) : list Station.t :=
  match l with
  | [] => []
  | h :: t => if Station.eqb h a then t else h :: remove_first a t
  end.

(** The [while remaining] loop of [_order_stations_by_distance]; the
    list shrinks by one station per iteration, so [fuel] is its length. *)
Fixpoint nearest_loop (fuel : nat) (ordered remaining : list Station.t)
    : list Station.t :=
  match fuel, remaining with
  | S fuel', r0 :: rs =>
      let current := last ordered r0 in
      let nearest := min_by (station_distance current) r0 rs in
      nearest_loop fuel' (ordered ++ [nearest]) (remove_first nearest remaining)
  | _, _ => ordered
  end.

Definition _order_stations_by_distance (stations : list Station.t)
    : list Station.t :=
  if (List.length stations <=? 2)%nat then stations
  else
    match stations with
    | [] => stations
    | s0 :: rest =>
        let first := min_by Station.x s0 rest in
        let remaining := filter (fun s => negb (Station.eqb s first)) stations in
        nearest_loop (List.length remaining) [first] remaining
    end.

(** [sorted(xs, key=key)]: a stable sort. *)
Fixpoint insert_by {A} (key : A -> Z) (a : A) (l : list A) : list A :=
  match l with
  | [] => [a]
  | h :: t => if key a <=? key h then a :: l else h :: insert_by key a t
  end.

Definition sorted_by {A} (key : A -> Z) (l : list A) : list A :=
  fold_right (insert_by key) [] l.

(** [xs[::2]] and [xs[1::2]] *)
Fixpoint every_other {A} (l : list A) : list A :=
  match l with
  | [] => []
  | [a] => [a]
  | a :: _ :: t => a :: every_other t
  end.

Definition every_other_from_1 {A} (l : list A) : list A := every_other (tl l).

(** [xs[a:b]] for [0 <= a], [0 <= b] *)
Definition slice {A} (l : list A) (a b : nat) : list A :=
  skipn a (firstn b l).

Definition keep_if_route {A} (candidate : list A) (routes : list (list A))
    : list (list A) :=
  if (2 <=? List.length candidate)%nat then routes ++ [candidate] else routes.

Definition _create_axial_routes (stations : list Station.t)
    : list (list Station.t) :=
  if (List.length stations <? 3)%nat then [_order_stations_by_distance stations]
  else
    let x_sorted := sorted_by Station.x stations in
    let y_sorted := sorted_by Station.y stations in
    let routes := keep_if_route (every_other x_sorted) [] in
    keep_if_route (every_other_from_1 y_sorted) routes.

Definition _create_linear_routes (stations : list Station.t)
    : list (list Station.t) :=
  if (List.length stations <? 2)%nat then []
  else
    let num_routes := Nat.min 2 (Nat.max 1 (List.length stations / 3)) in
    let stations_per_route := (List.length stations / num_routes)%nat in
    fold_left
      (fun routes i =>
         let start_idx := (i * stations_per_route)%nat in
         let end_idx := (start_idx + stations_per_route + 2)%nat in
         let route_stations := slice stations start_idx end_idx in
         if (2 <=? List.length route_stations)%nat
         then routes ++ [_order_stations_by_distance route_stations]
         else routes)
      (seq 0 num_routes) [].

Definition _create_connecting_routes (stations : list Station.t)
    : list (list Station.t) :=
  if (List.length stations <? 2)%nat then []
  else
    let num_routes := Nat.min 3 (Nat.max 1 (List.length stations / 4)) in
    fold_left
      (fun routes i =>
         let stations_per_route := Nat.max 3 (List.length stations / num_routes) in
         let start_idx := (i * List.length stations / num_routes)%nat in
         let selected := slice stations start_idx (start_idx + stations_per_route) in
         if (2 <=? List.length selected)%nat
         then routes ++ [_order_stations_by_distance selected]
         else routes)
      (seq 0 num_routes) [].

Definition _create_realistic_routes (stations : list Station.t) (mode : Mode)
    : list (list Station.t) :=
  if (List.length stations <? 2)%nat then []
  else
    match mode with
    | Metro => _create_axial_routes stations
    | Tram => _create_linear_routes stations
    | Bus => _create_connecting_routes stations
    end.

Definition _get_route_color (mode : Mode) (route_num : nat) : string :=
  let mode_colors :=
    match mode with
    | Metro => ["#FF0000"; "#00FF00"; "#0000FF"]
    | Tram => ["#FFA500"; "#800080"; "#008080"]
    | Bus => ["#FFD700"; "#FF69B4"; "#32CD32"]
    end%string in
  nth (route_num mod List.length mode_colors) mode_colors "#000000"%string.

(** [stations_by_type]: an insertion-ordered dict from a mode to its stations. *)
Fixpoint by_type_append (s : Station.t) (groups : list (Mode * list Station.t))
    : list (Mode * list Station.t) :=
  match groups with
  | [] => [(Station.station_type s, [s])]
  | (m, g) :: rest =>
      if Mode_eqb m (Station.station_type s) then (m, g ++ [s]) :: rest
      else (m, g) :: by_type_append s rest
  end.

Definition stations_by_type (stations : list Station.t)
    : list (Mode * list Station.t) :=
  fold_left (fun groups s => by_type_append s groups) stations [].

Definition route_name (route_id : nat) : string :=
  ("route_" ++ str_of_nat route_id)%string.

(** The inner loop over [enumerate(routes_for_mode)]; the state is the
    route list and the [route_id] counter. *)
Definition add_route (mode : Mode) (st : list Route.t * nat)
    (entry : nat * list Station.t) : list Route.t * nat :=
  let (i, route_stations) := entry in
  if (2 <=? List.length route_stations)%nat then
    (fst st ++
     [Route.mk (route_name (snd st)) mode (map Station.id route_stations)
        (_get_route_color mode i)],
     S (snd st))
  else st.

Definition routes_of_mode (st : list Route.t * nat)
    (entry : Mode * list Station.t) : list Route.t * nat :=
  let (mode, mode_stations) := entry in
  if (List.length mode_stations <? 2)%nat then st
  else
    let routes_for_mode := _create_realistic_routes mode_stations mode in
    fold_left (add_route mode)
      (combine (seq 0 (List.length routes_for_mode)) routes_for_mode) st.

Definition _generate_routes (stations : list Station.t) : list Route.t :=
  fst (fold_left routes_of_mode (stations_by_type stations) ([], O)).

(** ** The whole generator: [generate_random_city] *)

Definition generate_random_city (b : CityBuilder) : M CityModel :=
  zones <- _generate_zones b ;;
  stations <- _generate_stations b ;;
  '(stations, connections) <- lift (_generate_connections stations) ;;
  let routes := _generate_routes stations in
  ret (mkCity (grid_size b) zones stations connections routes).

(** ** Consumers of a city *)


(** [next(s for s in stations if s["id"] == i)], the lookup all three
    drawing functions use: the first station carrying the id; [None]
    stands for the [StopIteration] of an exhausted generator. *)
Definition find_station (stations : list Station.t) (i : string)
    : option Station.t :=
  find (fun s => String.eqb (Station.id s) i) stations.











(** The polyline of a route in [visualize_city] of
    [city_generator/city_viz.py]: the cell of every station the route
    lists, looked up by id. *)
Fixpoint route_points (stations : list Station.t) (ids : list string)
    : option (list (Z * Z)) :=
  match ids with
  | [] => Some []
  | station_id :: rest =>
      match find_station stations station_id with
      | None => None
      | Some station =>
          match route_points stations rest with
          | None => None
          | Some points => Some ((Station.x station, Station.y station) :: points)
          end
      end
  end.

(** The grid size option 1 of [main] in
    [city_generator/city_visualizer.py] builds with:
    [max(4, min(20, int(input(...))))], and 8 when [int] raises;
    [entered] is the value of [int(input(...))], [None] when it raises. *)
Definition menu_grid_size (entered : option Z) : Z :=
  match entered with
  | Some grid_size => Z.max 4 (Z.min 20 grid_size)
  | None => 8
  end.

(** ** Saving cities: [save_city] and [generate_batch_cities] *)

(** f"{i:03d}" for a non-negative integer: the decimal digits, padded
    with zeros on the left to three characters. *)
Definition pad3 (i : nat) : string :=
  let digits := str_of_nat i in
  match String.length digits with
  | 1%nat => ("00" ++ digits)%string
  | 2%nat => ("0" ++ digits)%string
  | _ => digits
  end.

(** f"city_{i:03d}.json" *)
Definition batch_filename (i : nat) : string :=
  ("city_" ++ pad3 i ++ ".json")%string.

(** The [data/] directory: whether it exists, and its files, each with
    the dictionary [json.dump] was given (the JSON text itself is not
    modelled). *)
Record DataDir : Type := mkDataDir {
  dir_exists : bool;
  dir_files : list (string * CityModel)
}.

(** [open(path, 'w')] followed by [json.dump]: the file is created, or
    replaced when it exists. *)
Definition write_file (path : string) (document : CityModel)
    (files : list (string * CityModel)) : list (string * CityModel) :=
  (path, document) :: filter (fun f => negb (String.eqb (fst f) path)) files.

(** [save_city]; [None] is the [FileNotFoundError] that [open] raises
    when there is no [data/] directory. *)
Definition save_city (city_data : CityModel) (filename : string) (dir : DataDir)
    : option DataDir :=
  if dir_exists dir
  then Some (mkDataDir true
               (write_file ("data/" ++ filename) city_data (dir_files dir)))
  else None.

(** How a batch ends: all files written, or the exception of a failed
    generation, or the [FileNotFoundError] of a failed save. *)
Inductive BatchOutcome : Type :=
| Written (dir : DataDir) (g : Random)
| GenerationFailed (e : PyError)
| SaveFailed.

Fixpoint batch_loop (b : CityBuilder) (indices : list Z) (dir : DataDir)
    (g : Random) : BatchOutcome :=
  match indices with
  | [] => Written dir g
  | i :: rest =>
      match generate_random_city b g with
      | Raise e => GenerationFailed e
      | Ok (city, g') =>
          match save_city city (batch_filename (Z.to_nat i)) dir with
          | None => SaveFailed
          | Some dir' => batch_loop b rest dir' g'
          end
      end
  end.

(** [generate_batch_cities]: [for i in range(count)]. *)
Definition generate_batch_cities (b : CityBuilder) (count : Z) (dir : DataDir)
    (g : Random) : BatchOutcome :=
  batch_loop b (range 0 count) dir g.

(** * Properties *)

Unset Implicit Arguments.

(** ** The monad and the drawing operations *)

Lemma bind_ok {A B} (c : M A) (k : A -> M B) g a g' :
  c g = Ok (a, g') -> bind c k g = k a g'.
Proof. unfold bind; intros ->; reflexivity. Qed.

Lemma bind_raise {A B} (c : M A) (k : A -> M B) g e :
  c g = Raise e -> bind c k g = Raise e.
Proof. unfold bind; intros ->; reflexivity. Qed.

Lemma bind_inv {A B} (c : M A) (k : A -> M B) g b g2 :
  bind c k g = Ok (b, g2) ->
  exists a g1, c g = Ok (a, g1) /\ k a g1 = Ok (b, g2).
Proof.
  unfold bind; destruct (c g) as [[a g1]|e]; intros H; [|discriminate].
  exists a, g1; split; [reflexivity|exact H].
Qed.

Definition advance (k : nat) (g : Random) : Random :=
  mkRandom (stream g) (k + cursor g).

Definition draw (g : Random) (k : nat) : N := stream g (k + cursor g).

Lemma advance_advance a b g : advance a (advance b g) = advance (a + b) g.
Proof. unfold advance; cbn; f_equal; lia. Qed.

Lemma advance_0 g : advance 0 g = g.
Proof. destruct g; reflexivity. Qed.

Lemma randint_ok a b g :
  a <= b ->
  randint a b g = Ok (a + Z.of_N (draw g 0) mod (b - a + 1), advance 1 g).
Proof.
  intros H; unfold randint.
  destruct (Z.ltb_spec b a); [lia|reflexivity].
Qed.

Lemma randint_empty a b g : b < a -> randint a b g = Raise ValueError.
Proof.
  intros H; unfold randint.
  destruct (Z.ltb_spec b a); [reflexivity|lia].
Qed.

Lemma randint_range a b g v g' :
  randint a b g = Ok (v, g') -> a <= v <= b.
Proof.
  unfold randint; destruct (Z.ltb_spec b a) as [Hlt|Hge]; [discriminate|].
  cbn; intros H; injection H as <- _.
  pose proof (Z.mod_pos_bound (Z.of_N (stream g (cursor g))) (b - a + 1)); lia.
Qed.

Lemma choice_ok {A} (l : list A) g :
  l <> [] -> exists a, In a l /\ choice l g = Ok (a, advance 1 g).
Proof.
  intros Hl; unfold choice; destruct l as [|h t]; [congruence|].
  cbn [getrand].
  destruct (nth_error (h :: t)
              (N.to_nat (stream g (cursor g) mod N.of_nat (List.length (h :: t)))))
    as [a|] eqn:E.
  - exists a; split; [eapply nth_error_In; eauto|reflexivity].
  - apply nth_error_None in E.
    pose proof (N.mod_upper_bound (stream g (cursor g))
                  (N.of_nat (List.length (h :: t)))) as Hm.
    cbn [List.length] in *; lia.
Qed.

(** ** [range] *)

Lemma range_length a b : List.length (range a b) = Z.to_nat (b - a).
Proof. unfold range; now rewrite length_map, length_seq. Qed.

Lemma in_range a b v : In v (range a b) <-> a <= v < b.
Proof.
  unfold range; rewrite in_map_iff; split.
  - intros (i & <- & Hi); apply in_seq in Hi; lia.
  - intros H; exists (Z.to_nat (v - a)); split; [lia|apply in_seq; lia].
Qed.

Lemma NoDup_range a b : NoDup (range a b).
Proof.
  unfold range; apply Finite.Injective_map_NoDup; [|apply seq_NoDup].
  intros i j; lia.
Qed.

Lemma range_empty a b : b <= a -> range a b = [].
Proof. intros H; unfold range; replace (Z.to_nat (b - a)) with O by lia; reflexivity. Qed.

Lemma range_cons a b : a < b -> range a b = a :: range (a + 1) b.
Proof.
  intros H; unfold range.
  replace (Z.to_nat (b - a)) with (S (Z.to_nat (b - (a + 1)))) by lia.
  cbn [seq map]; f_equal; [lia|].
  rewrite <- seq_shift, map_map; apply map_ext; intros; lia.
Qed.

(** ** Zone generation *)

Definition grid_ok (n : nat) (grid : Grid) : Prop :=
  List.length grid = n /\ Forall (fun row => List.length row = n) grid.

Lemma fold_left_invariant {A S} (P : S -> Prop) (f : S -> A -> S) (l : list A) :
  (forall s a, P s -> P (f s a)) -> forall s, P s -> P (fold_left f l s).
Proof. intros Hf; induction l as [|a l IH]; cbn; auto. Qed.

Lemma list_set_length {A} (l : list A) i v :
  List.length (list_set l i v) = List.length l.
Proof.
  revert i; induction l as [|h t IH]; intros [|i]; cbn; auto.
Qed.

Lemma list_set_Forall {A} (P : A -> Prop) (l : list A) i v :
  Forall P l -> P v -> Forall P (list_set l i v).
Proof.
  intros Hl Hv; revert i; induction Hl as [|h t Hh Ht IH]; intros [|i]; cbn; auto.
Qed.

Lemma new_grid_ok n : grid_ok (Z.to_nat n) (new_grid n).
Proof.
  unfold grid_ok, new_grid; split.
  - rewrite length_map, range_length; f_equal; lia.
  - apply Forall_forall; intros row Hrow.
    apply in_map_iff in Hrow as (_ & <- & _).
    rewrite length_map, range_length; f_equal; lia.
Qed.

Lemma grid_set_ok n grid x y v : grid_ok n grid -> grid_ok n (grid_set grid x y v).
Proof.
  intros [Hlen Hrows]; unfold grid_set.
  destruct (nth_error grid (Z.to_nat x)) as [row|] eqn:E; [|split; assumption].
  split.
  - now rewrite list_set_length.
  - apply list_set_Forall; [assumption|].
    rewrite list_set_length.
    eapply Forall_forall in Hrows; [exact Hrows|eapply nth_error_In; eauto].
Qed.

Lemma grid_get_ok n grid x y :
  grid_ok n grid -> 0 <= x < Z.of_nat n -> 0 <= y < Z.of_nat n ->
  exists cell, grid_get grid x y = Some cell.
Proof.
  intros [Hlen Hrows] Hx Hy; unfold grid_get.
  destruct (nth_error grid (Z.to_nat x)) as [row|] eqn:E.
  - assert (Hrow : List.length row = n).
    { eapply Forall_forall in Hrows; [exact Hrows|eapply nth_error_In; eauto]. }
    destruct (nth_error row (Z.to_nat y)) as [cell|] eqn:E'; [eauto|].
    apply nth_error_None in E'; lia.
  - apply nth_error_None in E; lia.
Qed.

Lemma fill_cluster_ok n gs cluster_size zone_type cx cy grid :
  grid_ok n grid -> grid_ok n (fill_cluster gs cluster_size zone_type cx cy grid).
Proof.
  unfold fill_cluster; apply fold_left_invariant; intros g1 dx H1.
  apply fold_left_invariant; [|assumption]; intros g2 dy H2.
  destruct (_ && _); [|assumption].
  destruct (grid_get g2 (cx + dx) (cy + dy)) as [[zt|]|]; auto using grid_set_ok.
Qed.

Lemma cluster_range_nonempty gs :
  3 <= gs ->
  Z.max 2 (gs / 3) / 2 <= gs - Z.max 2 (gs / 3) / 2 - 1.
Proof.
  intros H.
  destruct (Z.max_spec 2 (gs / 3)) as [[Hm ->]|[Hm ->]];
    Z.to_euclidean_division_equations; lia.
Qed.

Lemma cluster_range_empty gs :
  gs < 3 ->
  gs - Z.max 2 (gs / 3) / 2 - 1 < Z.max 2 (gs / 3) / 2.
Proof.
  intros H.
  destruct (Z.max_spec 2 (gs / 3)) as [[Hm ->]|[Hm ->]];
    Z.to_euclidean_division_equations; lia.
Qed.

Definition cell_typed (zts : list string) (cell : option string) : Prop :=
  match cell with Some zt => In zt zts | None => True end.

Definition grid_typed (zts : list string) (grid : Grid) : Prop :=
  Forall (Forall (cell_typed zts)) grid.

Lemma new_grid_typed zts n : grid_typed zts (new_grid n).
Proof.
  apply Forall_forall; intros row Hrow.
  apply in_map_iff in Hrow as (_ & <- & _).
  apply Forall_forall; intros cell Hcell.
  apply in_map_iff in Hcell as (_ & <- & _); exact I.
Qed.

Lemma grid_set_typed zts grid x y v :
  grid_typed zts grid -> cell_typed zts v -> grid_typed zts (grid_set grid x y v).
Proof.
  intros Hg Hv; unfold grid_set.
  destruct (nth_error grid (Z.to_nat x)) as [row|] eqn:E; [|assumption].
  apply list_set_Forall; [assumption|].
  apply list_set_Forall; [|assumption].
  eapply Forall_forall in Hg; [exact Hg|eapply nth_error_In; eauto].
Qed.

Lemma grid_get_typed zts grid x y cell :
  grid_typed zts grid -> grid_get grid x y = Some cell -> cell_typed zts cell.
Proof.
  intros Hg; unfold grid_get.
  destruct (nth_error grid (Z.to_nat x)) as [row|] eqn:E; [|discriminate].
  intros Hc; apply nth_error_In in E, Hc.
  eapply Forall_forall in Hg; [|exact E].
  eapply Forall_forall in Hg; [exact Hg|exact Hc].
Qed.

Lemma fill_cluster_typed zts gs cluster_size zone_type cx cy grid :
  In zone_type zts -> grid_typed zts grid ->
  grid_typed zts (fill_cluster gs cluster_size zone_type cx cy grid).
Proof.
  intros Hin; unfold fill_cluster; apply fold_left_invariant; intros g1 dx H1.
  apply fold_left_invariant; [|assumption]; intros g2 dy H2.
  destruct (_ && _); [|assumption].
  destruct (grid_get g2 (cx + dx) (cy + dy)) as [[zt|]|]; auto.
  apply grid_set_typed; assumption.
Qed.

(** What the zone loops maintain: an [n] by [n] grid whose assigned
    cells hold categories of the builder. *)
Definition grid_inv (b : CityBuilder) (grid : Grid) : Prop :=
  grid_ok (Z.to_nat (grid_size b)) grid /\ grid_typed (zone_types b) grid.

Lemma place_loop_ok b cluster_size zts :
  cluster_size / 2 <= grid_size b - cluster_size / 2 - 1 ->
  incl zts (zone_types b) ->
  forall grid g,
  grid_inv b grid ->
  exists grid',
    for_each zts
      (fun grid zone_type =>
         center_x <- randint (cluster_size / 2) (grid_size b - cluster_size / 2 - 1) ;;
         center_y <- randint (cluster_size / 2) (grid_size b - cluster_size / 2 - 1) ;;
         ret (fill_cluster (grid_size b) cluster_size zone_type center_x center_y grid))
      grid g
    = Ok (grid', advance (2 * List.length zts) g)
    /\ grid_inv b grid'.
Proof.
  intros Hr; induction zts as [|zt zts IH]; intros Hincl grid g Hinv.
  - exists grid; split; [cbn; now rewrite advance_0|assumption].
  - cbn [for_each].
    erewrite bind_ok; [|erewrite bind_ok; [|apply randint_ok, Hr];
                        erewrite bind_ok; [|apply randint_ok, Hr]; reflexivity].
    edestruct IH as (grid' & Hrun & Hinv').
    { intros z Hz; apply Hincl; now right. }
    { destruct Hinv as [Hok Hty]; split;
        [apply fill_cluster_ok, Hok|apply fill_cluster_typed; [|exact Hty]].
      apply Hincl; now left. }
    exists grid'; split; [|exact Hinv'].
    rewrite Hrun, !advance_advance; cbn [List.length]; do 3 f_equal; lia.
Qed.

Lemma place_clusters_ok b cluster_size grid g :
  cluster_size / 2 <= grid_size b - cluster_size / 2 - 1 ->
  grid_inv b grid ->
  exists grid',
    place_clusters b cluster_size grid g
    = Ok (grid', advance (2 * List.length (zone_types b)) g)
    /\ grid_inv b grid'.
Proof. intros Hr; apply place_loop_ok; [exact Hr|apply incl_refl]. Qed.

Definition zone_xy (z : Zone.t) : Z * Z := (Zone.x z, Zone.y z).

Lemma fill_row_ok b x ys :
  zone_types b <> [] ->
  0 <= x < grid_size b ->
  Forall (fun y => 0 <= y < grid_size b) ys ->
  forall grid zones g,
  grid_inv b grid ->
  exists grid' zs g',
    for_each ys (fill_cell b x) (grid, zones) g = Ok ((grid', zones ++ zs), g')
    /\ grid_inv b grid'
    /\ map zone_xy zs = map (pair x) ys
    /\ Forall (fun z => In (Zone.zone_type z) (zone_types b)) zs.
Proof.
  intros Hzt Hx Hys.
  induction Hys as [|y ys Hy Hys IH]; intros grid zones g Hinv.
  - exists grid, [], g; rewrite app_nil_r; cbn; auto.
  - cbn [for_each].
    destruct (grid_get_ok _ grid x y (proj1 Hinv)) as (cell & Hcell);
      [lia|lia|].
    destruct cell as [zt|].
    + destruct (IH grid (zones ++ [Zone.mk x y zt]) g Hinv)
        as (grid' & zs & g' & Hrun & Hinv' & Hxy & Hty).
      exists grid', (Zone.mk x y zt :: zs), g'.
      erewrite bind_ok; [|unfold fill_cell; rewrite Hcell; reflexivity].
      rewrite Hrun, <- app_assoc; cbn.
      repeat split; try apply Hinv'; [now rewrite Hxy|].
      constructor; [|assumption].
      exact (grid_get_typed _ _ _ _ _ (proj2 Hinv) Hcell).
    + destruct (choice_ok (zone_types b) g Hzt) as (zt & Hin & Hch).
      destruct (IH (grid_set grid x y (Some zt)) (zones ++ [Zone.mk x y zt])
                  (advance 1 g))
        as (grid' & zs & g' & Hrun & Hinv' & Hxy & Hty).
      { destruct Hinv; split;
          [now apply grid_set_ok|now apply grid_set_typed]. }
      exists grid', (Zone.mk x y zt :: zs), g'.
      erewrite bind_ok;
        [|unfold fill_cell; rewrite Hcell; erewrite bind_ok; [|exact Hch];
          reflexivity].
      rewrite Hrun, <- app_assoc; cbn.
      repeat split; try apply Hinv'; [now rewrite Hxy|].
      constructor; assumption.
Qed.

(** The cells of the grid in the order the fill loop visits them. *)
Definition cells_of (xs ys : list Z) : list (Z * Z) :=
  flat_map (fun x => map (pair x) ys) xs.

Lemma fill_rows_ok b xs ys :
  zone_types b <> [] ->
  Forall (fun x => 0 <= x < grid_size b) xs ->
  Forall (fun y => 0 <= y < grid_size b) ys ->
  forall grid zones g,
  grid_inv b grid ->
  exists grid' zs g',
    for_each xs (fun st x => for_each ys (fill_cell b x) st) (grid, zones) g
    = Ok ((grid', zones ++ zs), g')
    /\ grid_inv b grid'
    /\ map zone_xy zs = cells_of xs ys
    /\ Forall (fun z => In (Zone.zone_type z) (zone_types b)) zs.
Proof.
  intros Hzt Hxs Hys.
  induction Hxs as [|x xs Hx Hxs IH]; intros grid zones g Hinv.
  - exists grid, [], g; rewrite app_nil_r; cbn; auto.
  - cbn [for_each].
    destruct (fill_row_ok b x ys Hzt Hx Hys grid zones g Hinv)
      as (grid1 & zs1 & g1 & Hrun1 & Hinv1 & Hxy1 & Hty1).
    destruct (IH grid1 (zones ++ zs1) g1 Hinv1)
      as (grid2 & zs2 & g2 & Hrun2 & Hinv2 & Hxy2 & Hty2).
    exists grid2, (zs1 ++ zs2), g2.
    erewrite bind_ok; [|exact Hrun1].
    rewrite Hrun2, <- app_assoc.
    repeat split; try apply Hinv2.
    + cbn; now rewrite map_app, Hxy1, Hxy2.
    + apply Forall_app; split; assumption.
Qed.

Definition grid_cells (n : Z) : list (Z * Z) := cells_of (range 0 n) (range 0 n).

Lemma range_Forall a b : Forall (fun v => a <= v < b) (range a b).
Proof. apply Forall_forall; intros v; apply in_range. Qed.

Lemma in_grid_cells n x y : In (x, y) (grid_cells n) <-> 0 <= x < n /\ 0 <= y < n.
Proof.
  unfold grid_cells, cells_of; rewrite in_flat_map; split.
  - intros (x' & Hx' & Hin); apply in_map_iff in Hin as (y' & [= <- <-] & Hy').
    now rewrite <- !in_range.
  - intros [Hx Hy]; exists x; split; [now apply in_range|].
    apply in_map, in_range, Hy.
Qed.

Lemma NoDup_cells_of xs ys : NoDup xs -> NoDup ys -> NoDup (cells_of xs ys).
Proof.
  intros Hxs Hys; induction Hxs as [|x xs Hx Hxs IH]; cbn; [constructor|].
  apply NoDup_app; [|assumption|].
  - apply Finite.Injective_map_NoDup; [|assumption]; intros y1 y2 [= ->]; reflexivity.
  - intros p Hp Hq.
    apply in_map_iff in Hp as (y & <- & _).
    apply in_flat_map in Hq as (x' & Hx' & Hq).
    apply in_map_iff in Hq as (y' & [= -> _] & _); contradiction.
Qed.

Lemma cells_of_length xs ys :
  List.length (cells_of xs ys) = (List.length xs * List.length ys)%nat.
Proof.
  unfold cells_of; induction xs as [|x xs IH]; cbn; [reflexivity|].
  now rewrite length_app, length_map, IH.
Qed.

Lemma generate_zones_ok b g :
  3 <= grid_size b -> zone_types b <> [] ->
  exists zs g',
    _generate_zones b g = Ok (zs, g')
    /\ map zone_xy zs = grid_cells (grid_size b)
    /\ Forall (fun z => In (Zone.zone_type z) (zone_types b)) zs.
Proof.
  intros Hgs Hzt; unfold _generate_zones.
  destruct (@place_clusters_ok b (Z.max 2 (grid_size b / 3))
              (new_grid (grid_size b)) g)
    as (grid1 & Hrun1 & Hinv1).
  { now apply cluster_range_nonempty. }
  { split; [apply new_grid_ok|apply new_grid_typed]. }
  destruct (fill_rows_ok b _ _ Hzt (range_Forall 0 (grid_size b))
              (range_Forall 0 (grid_size b)) grid1 []
              (advance (2 * List.length (zone_types b)) g) Hinv1)
    as (grid2 & zs & g2 & Hrun2 & _ & Hxy & Hty).
  exists zs, g2.
  erewrite bind_ok; [|exact Hrun1].
  erewrite bind_ok; [|exact Hrun2].
  repeat split; assumption.
Qed.

Definition cell_eq_dec (p q : Z * Z) : {p = q} + {p <> q}.
Proof. decide equality; apply Z.eq_dec. Defined.

(** A concrete tape of draws, used where a statement is checked on an
    explicit run. *)
Definition tape_a : Random := mkRandom (fun n => N.of_nat (n * n * 7 + n * 13 + 5)) 0.

Definition tape_b : Random := mkRandom (fun n => N.of_nat (n * 5 + 2)) 0.

(** C4 (amended): for every grid size of at least 3 and a non-empty
    category list, zone generation succeeds and returns exactly
    [grid_size * grid_size] zones; every coordinate pair of the grid
    occurs exactly once among them, and every zone lies on the grid and
    carries one of the builder's categories. *)
Theorem generate_zones_full_coverage b g :
  3 <= grid_size b -> zone_types b <> [] ->
  exists zs g',
    _generate_zones b g = Ok (zs, g')
    /\ Z.of_nat (List.length zs) = grid_size b * grid_size b
    /\ (forall x y, 0 <= x < grid_size b -> 0 <= y < grid_size b ->
        count_occ cell_eq_dec (map zone_xy zs) (x, y) = 1%nat)
    /\ (forall z, In z zs ->
        0 <= Zone.x z < grid_size b /\ 0 <= Zone.y z < grid_size b
        /\ In (Zone.zone_type z) (zone_types b)).
Proof.
  intros Hgs Hzt.
  destruct (generate_zones_ok b g Hgs Hzt) as (zs & g' & Hrun & Hxy & Hty).
  exists zs, g'; split; [exact Hrun|].
  assert (Hnd : NoDup (map zone_xy zs)).
  { rewrite Hxy; apply NoDup_cells_of; apply NoDup_range. }
  split; [|split].
  - rewrite <- (length_map zone_xy), Hxy.
    unfold grid_cells; rewrite cells_of_length, range_length; lia.
  - intros x y Hx Hy.
    apply (proj1 (NoDup_count_occ' cell_eq_dec _) Hnd).
    rewrite Hxy; apply in_grid_cells; split; assumption.
  - intros z Hz.
    assert (Hin : In (zone_xy z) (grid_cells (grid_size b))).
    { rewrite <- Hxy; apply in_map, Hz. }
    apply in_grid_cells in Hin.
    rewrite Forall_forall in Hty; destruct Hin; auto.
Qed.

Lemma generate_zones_full_coverage_witness :
  exists zs g',
    _generate_zones (CityBuilder_init 4) tape_a = Ok (zs, g')
    /\ Z.of_nat (List.length zs) = 4 * 4
    /\ (forall x y, 0 <= x < 4 -> 0 <= y < 4 ->
        count_occ cell_eq_dec (map zone_xy zs) (x, y) = 1%nat)
    /\ (forall z, In z zs ->
        0 <= Zone.x z < 4 /\ 0 <= Zone.y z < 4
        /\ In (Zone.zone_type z) (zone_types (CityBuilder_init 4))).
Proof.
  apply (@generate_zones_full_coverage (CityBuilder_init 4) tape_a);
    [simpl; lia|simpl; discriminate].
Defined.

Lemma place_clusters_raises b cluster_size grid g :
  zone_types b <> [] ->
  grid_size b - cluster_size / 2 - 1 < cluster_size / 2 ->
  place_clusters b cluster_size grid g = Raise ValueError.
Proof.
  intros Hzt Hr; unfold place_clusters.
  destruct (zone_types b) as [|zt zts]; [congruence|].
  cbn [for_each].
  apply bind_raise, bind_raise, randint_empty, Hr.
Qed.

Lemma generate_zones_small_grid b g :
  zone_types b <> [] -> grid_size b < 3 -> _generate_zones b g = Raise ValueError.
Proof.
  intros Hzt Hgs; unfold _generate_zones.
  apply bind_raise, place_clusters_raises; [exact Hzt|].
  now apply cluster_range_empty.
Qed.

(** C4 (counterexample): a 1 by 1 grid is a grid size of at least 1,
    yet zone generation raises [ValueError] at the first cluster
    centre, whose range [randint(1, -1)] is empty. *)
Lemma generate_zones_grid_1_raises :
  1 <= grid_size (CityBuilder_init 1)
  /\ _generate_zones (CityBuilder_init 1) tape_a = Raise ValueError.
Proof.
  split; [simpl; lia|].
  apply generate_zones_small_grid; [discriminate|simpl; lia].
Qed.

(** ** Degenerate inputs *)

Lemma density_count_floor floor total_area share :
  floor <= density_count floor total_area share.
Proof. unfold density_count; apply Z.le_max_l. Qed.

Lemma sample_cell_raises n g : n <= 0 -> sample_cell n g = Raise ValueError.
Proof. intros Hn; apply bind_raise, randint_empty; lia. Qed.

Lemma find_good_position_raises n existing min_dist g :
  n <= 0 -> find_good_position n existing min_dist g = Raise ValueError.
Proof.
  intros Hn; unfold find_good_position, max_attempts; cbn [find_good_position_loop].
  apply bind_raise, sample_cell_raises, Hn.
Qed.

Lemma for_each_first_raises {St} (body : St -> Z -> M St) a b s g e :
  a < b -> body s a g = Raise e -> for_each (range a b) body s g = Raise e.
Proof.
  intros Hab Hbody; rewrite range_cons by exact Hab; cbn [for_each].
  apply bind_raise, Hbody.
Qed.

Lemma generate_stations_raises b g :
  grid_size b <= 0 -> _generate_stations b g = Raise ValueError.
Proof.
  intros Hgs; unfold _generate_stations.
  apply bind_raise, for_each_first_raises.
  - pose proof (density_count_floor 3 (grid_size b * grid_size b) metro_share); lia.
  - unfold place_metro; apply bind_raise, find_good_position_raises, Hgs.
Qed.

Lemma generate_zones_no_category_empty_grid b g :
  zone_types b = [] -> grid_size b <= 0 -> _generate_zones b g = Ok ([], g).
Proof.
  intros Hzt Hgs; unfold _generate_zones, place_clusters, fill_remaining.
  rewrite Hzt, (range_empty 0 (grid_size b)) by lia; reflexivity.
Qed.

Lemma generate_zones_no_category b g :
  zone_types b = [] -> 1 <= grid_size b -> _generate_zones b g = Raise IndexError.
Proof.
  intros Hzt Hgs; unfold _generate_zones, place_clusters, fill_remaining, new_grid.
  rewrite Hzt, (range_cons 0 (grid_size b)) by lia; cbn.
  rewrite Hzt; reflexivity.
Qed.

(** C8 (amended): the generator has no parameter check of its own.
    For a grid size of 0 or less it returns no model because the first
    random draw has an empty range and [random.randint] raises
    [ValueError]; for an empty category list on a grid of at least one
    cell it raises [IndexError] from [random.choice].  The mode list is
    never read, so nothing is said about an empty one. *)
Theorem generate_degenerate_input_raises b g :
  grid_size b <= 0 \/ zone_types b = [] ->
  generate_random_city b g
  = Raise (if grid_size b <=? 0 then ValueError else IndexError).
Proof.
  intros H; unfold generate_random_city.
  destruct (Z.leb_spec (grid_size b) 0) as [Hgs|Hgs].
  - destruct (zone_types b) as [|zt zts] eqn:Hzt.
    + erewrite bind_ok; [|apply generate_zones_no_category_empty_grid; assumption].
      apply bind_raise, generate_stations_raises, Hgs.
    + apply bind_raise, generate_zones_small_grid; [congruence|lia].
  - destruct H as [H|H]; [lia|].
    apply bind_raise, generate_zones_no_category; [exact H|lia].
Qed.

Lemma generate_degenerate_input_raises_witness :
  generate_random_city (CityBuilder_init 0) tape_a = Raise ValueError.
Proof.
  apply (generate_degenerate_input_raises (CityBuilder_init 0) tape_a).
  left; simpl; lia.
Defined.

(** The builder of C8's counterexample: a usable grid and category
    list, and an empty mode list. *)
Definition builder_without_modes : CityBuilder :=
  mkBuilder 4 ["residential"; "commercial"; "industrial"]%string [].

(** C8 (counterexample): with an empty mode list the generator raises
    nothing and returns a city. *)
Lemma generate_accepts_empty_mode_list :
  station_types builder_without_modes = []
  /\ exists city g',
       generate_random_city builder_without_modes tape_a = Ok (city, g').
Proof.
  split; [reflexivity|].
  destruct (generate_random_city builder_without_modes tape_a) as [[city g']|e] eqn:E.
  - exists city, g'; reflexivity.
  - exfalso; revert E; vm_compute; discriminate.
Qed.

(** ** Rejection sampling: [find_good_position] *)

(** The cell the [k]-th call of [sample_cell] draws from a tape. *)
Definition sampled_cell (n : Z) (g : Random) (k : nat) : Z * Z :=
  (Z.of_N (draw g (2 * k)) mod n, Z.of_N (draw g (2 * k + 1)) mod n).

Lemma sample_cell_ok n g :
  1 <= n -> sample_cell n g = Ok (sampled_cell n g 0, advance 2 g).
Proof.
  intros Hn; unfold sample_cell.
  erewrite bind_ok; [|apply randint_ok; lia].
  erewrite bind_ok; [|apply randint_ok; lia].
  unfold ret, sampled_cell; rewrite advance_advance.
  replace (n - 1 - 0 + 1) with n by lia.
  unfold draw; cbn; repeat f_equal.
Qed.

Lemma draw_advance a g k : draw (advance a g) k = draw g (k + a).
Proof. unfold draw, advance; cbn [stream cursor]; f_equal; lia. Qed.

Lemma sampled_cell_shift n g k :
  sampled_cell n (advance 2 g) k = sampled_cell n g (S k).
Proof.
  unfold sampled_cell; rewrite !draw_advance.
  replace (2 * k + 2)%nat with (2 * S k)%nat by lia.
  replace (2 * k + 1 + 2)%nat with (2 * S k + 1)%nat by lia.
  reflexivity.
Qed.

Lemma find_good_position_loop_exhausted n existing min_dist attempts :
  1 <= n ->
  forall g,
  (forall k, (k < attempts)%nat ->
     is_too_close (fst (sampled_cell n g k)) (snd (sampled_cell n g k))
       existing min_dist = true) ->
  find_good_position_loop n existing min_dist attempts g
  = Ok (sampled_cell n g attempts, advance (2 * attempts + 2) g).
Proof.
  intros Hn; induction attempts as [|attempts IH]; intros g Hclose.
  - cbn [find_good_position_loop]; now rewrite sample_cell_ok.
  - cbn [find_good_position_loop].
    erewrite bind_ok; [|apply sample_cell_ok, Hn].
    rewrite (Hclose O) by lia; cbn [negb].
    rewrite IH.
    + rewrite sampled_cell_shift, advance_advance.
      replace (2 * attempts + 2 + 2)%nat with (2 * S attempts + 2)%nat by lia.
      reflexivity.
    + intros k Hk; rewrite sampled_cell_shift; apply Hclose; lia.
Qed.

(** C6 (amended): when all 50 attempts of the rejection sampling draw a
    cell that is too close to an already placed station, the procedure
    does not fail: it draws one more cell, the 51st, and returns it
    without testing it.  The 50th cell, the last one tested, is
    dropped; 102 draws are consumed in all. *)
Theorem find_good_position_exhausted n existing min_dist g :
  1 <= n ->
  (forall k, (k < max_attempts)%nat ->
     is_too_close (fst (sampled_cell n g k)) (snd (sampled_cell n g k))
       existing min_dist = true) ->
  find_good_position n existing min_dist g
  = Ok (sampled_cell n g max_attempts, advance 102 g).
Proof.
  intros Hn Hclose; unfold find_good_position.
  now rewrite find_good_position_loop_exhausted.
Qed.

(** Four stations that leave no cell of a 4 by 4 grid at distance 2 or
    more from all of them. *)
Definition crowded_positions : list (Z * Z) := [(0, 1); (1, 3); (2, 0); (3, 2)].

Lemma crowded_positions_too_close g k :
  is_too_close (fst (sampled_cell 4 g k)) (snd (sampled_cell 4 g k))
    crowded_positions 2 = true.
Proof.
  unfold sampled_cell; cbn [fst snd].
  pose proof (Z.mod_pos_bound (Z.of_N (draw g (2 * k))) 4 ltac:(lia)) as Hx.
  pose proof (Z.mod_pos_bound (Z.of_N (draw g (2 * k + 1))) 4 ltac:(lia)) as Hy.
  generalize dependent (Z.of_N (draw g (2 * k)) mod 4); intros x Hx.
  generalize dependent (Z.of_N (draw g (2 * k + 1)) mod 4); intros y Hy.
  assert (Hxs : x = 0 \/ x = 1 \/ x = 2 \/ x = 3) by lia.
  assert (Hys : y = 0 \/ y = 1 \/ y = 2 \/ y = 3) by lia.
  destruct Hxs as [->|[->|[->| ->]]]; destruct Hys as [->|[->|[->| ->]]];
    reflexivity.
Qed.

Lemma find_good_position_exhausted_witness :
  find_good_position 4 crowded_positions 2 tape_b
  = Ok (sampled_cell 4 tape_b max_attempts, advance 102 tape_b).
Proof.
  apply (find_good_position_exhausted 4 crowded_positions 2 tape_b).
  - lia.
  - intros k _; apply crowded_positions_too_close.
Defined.

(** C6 (counterexample): on a crowded 4 by 4 grid every attempt is too
    close, and the cell returned, [(2, 3)], is not the last cell
    sampled and tested by the 50 attempts, which is [(0, 1)]. *)
Lemma find_good_position_drops_last_attempt :
  (forall k, (k < max_attempts)%nat ->
     is_too_close (fst (sampled_cell 4 tape_b k)) (snd (sampled_cell 4 tape_b k))
       crowded_positions 2 = true)
  /\ sampled_cell 4 tape_b 49 = (0, 1)
  /\ exists g', find_good_position 4 crowded_positions 2 tape_b = Ok ((2, 3), g').
Proof.
  split; [intros k _; apply crowded_positions_too_close|].
  split; [reflexivity|].
  exists (advance 102 tape_b).
  unfold find_good_position; rewrite find_good_position_loop_exhausted;
    [reflexivity|lia|intros k _; apply crowded_positions_too_close].
Qed.

(** ** Station placement *)

Lemma for_each_total {A St} (P : St -> Prop) (body : St -> A -> M St) xs :
  (forall s x g, In x xs -> P s ->
     exists s' g', body s x g = Ok (s', g') /\ P s') ->
  forall s g, P s ->
  exists s' g', for_each xs body s g = Ok (s', g') /\ P s'.
Proof.
  induction xs as [|x xs IH]; intros Hbody s g Hs.
  - exists s, g; split; [reflexivity|assumption].
  - destruct (Hbody s x g (or_introl eq_refl) Hs) as (s1 & g1 & Hrun1 & Hs1).
    destruct (IH (fun s x g Hx => Hbody s x g (or_intror Hx)) s1 g1 Hs1)
      as (s2 & g2 & Hrun2 & Hs2).
    exists s2, g2; split; [|assumption].
    cbn [for_each]; erewrite bind_ok; eassumption.
Qed.

Lemma for_each_preserves {A St} (P : St -> Prop) (body : St -> A -> M St) xs :
  (forall s x g s' g', P s -> body s x g = Ok (s', g') -> P s') ->
  forall s g s' g', P s -> for_each xs body s g = Ok (s', g') -> P s'.
Proof.
  intros Hbody; induction xs as [|x xs IH]; intros s g s' g' Hs Hrun.
  - cbn in Hrun; injection Hrun as <- _; assumption.
  - cbn [for_each] in Hrun.
    apply bind_inv in Hrun as (s1 & g1 & Hrun1 & Hrun2).
    eapply IH; [|exact Hrun2]; eapply Hbody; eassumption.
Qed.

Lemma find_good_position_loop_total n existing min_dist attempts g :
  1 <= n ->
  exists p g', find_good_position_loop n existing min_dist attempts g = Ok (p, g').
Proof.
  intros Hn; revert g; induction attempts as [|attempts IH]; intros g;
    cbn [find_good_position_loop].
  - rewrite sample_cell_ok by exact Hn; eauto.
  - erewrite bind_ok; [|apply sample_cell_ok, Hn].
    destruct (negb _); [unfold ret; eauto|apply IH].
Qed.

Lemma find_good_position_total n existing min_dist g :
  1 <= n -> exists p g', find_good_position n existing min_dist g = Ok (p, g').
Proof. apply find_good_position_loop_total. Qed.

(** What the three placement loops maintain: the counter is the number
    of stations placed, the ids are [station_0], [station_1], ... in
    order, and no station is marked as a transfer yet. *)
Definition placement_ok (st : Placement) : Prop :=
  station_id st = List.length (placed st)
  /\ map Station.id (placed st) = map station_name (seq 0 (List.length (placed st)))
  /\ Forall (fun s => Station.is_transfer s = false) (placed st).

Lemma add_station_ok st positions x y mode :
  placement_ok st -> placement_ok (add_station st positions x y mode).
Proof.
  intros (Hid & Hids & Hflags); unfold placement_ok, add_station; cbn.
  rewrite length_app, Nat.add_1_r; cbn [List.length].
  split; [now rewrite Hid|split].
  - rewrite map_app, Hids, seq_S, map_app; cbn; now rewrite Hid.
  - apply Forall_app; split; [assumption|repeat constructor].
Qed.

Lemma place_metro_preserves n d st i g st' g' :
  placement_ok st -> place_metro n d st i g = Ok (st', g') -> placement_ok st'.
Proof.
  intros Hok Hrun; unfold place_metro in Hrun.
  apply bind_inv in Hrun as (p & g1 & _ & Hret); injection Hret as <- _.
  now apply add_station_ok.
Qed.

Lemma place_tram_preserves n d st i g st' g' :
  placement_ok st -> place_tram n d st i g = Ok (st', g') -> placement_ok st'.
Proof.
  intros Hok Hrun; unfold place_tram in Hrun.
  assert (Hfresh : forall g g',
    (p <- find_good_position n (station_positions st) (d / 2) ;;
     ret (add_station st (station_positions st ++ [p]) (fst p) (snd p) Tram)) g
    = Ok (st', g') -> placement_ok st').
  { intros h h' H; apply bind_inv in H as (p & g1 & _ & Hret).
    injection Hret as <- _; now apply add_station_ok. }
  destruct (_ <? _); [|eauto].
  apply bind_inv in Hrun as (r & g1 & _ & Hrun).
  destruct (PrimFloat.ltb _ _); [|eauto].
  destruct (nth_error _ _) as [p|]; [|discriminate].
  injection Hrun as <- _; now apply add_station_ok.
Qed.

Lemma place_bus_preserves n d st i g st' g' :
  placement_ok st -> place_bus n d st i g = Ok (st', g') -> placement_ok st'.
Proof.
  intros Hok Hrun; unfold place_bus in Hrun.
  assert (Hfresh : forall g g',
    (p <- find_good_position n (station_positions st) (d / 3) ;;
     ret (add_station st (station_positions st ++ [p]) (fst p) (snd p) Bus)) g
    = Ok (st', g') -> placement_ok st').
  { intros h h' H; apply bind_inv in H as (p & g1 & _ & Hret).
    injection Hret as <- _; now apply add_station_ok. }
  destruct (_ <? _); [|eauto].
  apply bind_inv in Hrun as (r & g1 & _ & Hrun).
  destruct (PrimFloat.ltb _ _); [|eauto].
  destruct (nth_error _ _) as [p|]; [|discriminate].
  injection Hrun as <- _; now apply add_station_ok.
Qed.

Lemma generate_stations_placement b g sts g' :
  _generate_stations b g = Ok (sts, g') ->
  map Station.id sts = map station_name (seq 0 (List.length sts))
  /\ Forall (fun s => Station.is_transfer s = false) sts.
Proof.
  unfold _generate_stations; intros Hrun.
  apply bind_inv in Hrun as (st1 & g1 & Hrun1 & Hrun).
  apply bind_inv in Hrun as (st2 & g2 & Hrun2 & Hrun).
  apply bind_inv in Hrun as (st3 & g3 & Hrun3 & Hrun).
  injection Hrun as <- _.
  assert (H1 : placement_ok st1).
  { eapply for_each_preserves; [|shelve|exact Hrun1].
    intros; eapply place_metro_preserves; eassumption. }
  assert (H2 : placement_ok st2).
  { eapply for_each_preserves; [|exact H1|exact Hrun2].
    intros; eapply place_tram_preserves; eassumption. }
  assert (H3 : placement_ok st3).
  { eapply for_each_preserves; [|exact H2|exact Hrun3].
    intros; eapply place_bus_preserves; eassumption. }
  exact (proj2 H3).
  Unshelve.
  repeat split; constructor.
Qed.

Lemma place_metro_total n d st i g :
  1 <= n -> exists st' g', place_metro n d st i g = Ok (st', g').
Proof.
  intros Hn; unfold place_metro.
  destruct (find_good_position_total n (station_positions st) d g Hn) as (p & g1 & Hp).
  erewrite bind_ok; [|exact Hp]; unfold ret; eauto.
Qed.

Lemma random_total g : random g = Ok (random_unit (draw g 0), advance 1 g).
Proof. reflexivity. Qed.

Lemma place_tram_total n d st i g :
  1 <= n -> 0 <= i -> exists st' g', place_tram n d st i g = Ok (st', g').
Proof.
  intros Hn Hi; unfold place_tram.
  assert (Hfresh : forall g, exists st' g',
    (p <- find_good_position n (station_positions st) (d / 2) ;;
     ret (add_station st (station_positions st ++ [p]) (fst p) (snd p) Tram)) g
    = Ok (st', g')).
  { intros h.
    destruct (find_good_position_total n (station_positions st) (d / 2) h Hn)
      as (p & g1 & Hp).
    erewrite bind_ok; [|exact Hp]; unfold ret; eauto. }
  destruct (Z.ltb_spec i (Z.of_nat (List.length (station_positions st))));
    [|apply Hfresh].
  erewrite bind_ok; [|apply random_total].
  destruct (PrimFloat.ltb _ _); [|apply Hfresh].
  destruct (nth_error (station_positions st) (Z.to_nat i)) as [p|] eqn:E.
  - unfold ret; eauto.
  - apply nth_error_None in E; lia.
Qed.

Lemma place_bus_total n d st i g :
  1 <= n -> 0 <= i -> exists st' g', place_bus n d st i g = Ok (st', g').
Proof.
  intros Hn Hi; unfold place_bus.
  assert (Hfresh : forall g, exists st' g',
    (p <- find_good_position n (station_positions st) (d / 3) ;;
     ret (add_station st (station_positions st ++ [p]) (fst p) (snd p) Bus)) g
    = Ok (st', g')).
  { intros h.
    destruct (find_good_position_total n (station_positions st) (d / 3) h Hn)
      as (p & g1 & Hp).
    erewrite bind_ok; [|exact Hp]; unfold ret; eauto. }
  destruct (Z.ltb_spec i (Z.of_nat (List.length (station_positions st))));
    [|apply Hfresh].
  erewrite bind_ok; [|apply random_total].
  destruct (PrimFloat.ltb _ _); [|apply Hfresh].
  destruct (nth_error (station_positions st)
              (Z.to_nat (i mod Z.of_nat (List.length (station_positions st)))))
    as [p|] eqn:E.
  - unfold ret; eauto.
  - apply nth_error_None in E.
    pose proof (Z.mod_pos_bound i (Z.of_nat (List.length (station_positions st)))).
    lia.
Qed.

Lemma generate_stations_total b g :
  1 <= grid_size b -> exists sts g', _generate_stations b g = Ok (sts, g').
Proof.
  intros Hn; unfold _generate_stations.
  edestruct (for_each_total (fun _ : Placement => True)
               (place_metro (grid_size b) (Z.max 2 (grid_size b / 6))))
    as (st1 & g1 & Hrun1 & _);
    [intros s x h _ _; destruct (place_metro_total (grid_size b)
        (Z.max 2 (grid_size b / 6)) s x h Hn) as (s' & h' & H); eauto|exact I|].
  erewrite bind_ok; [|exact Hrun1].
  edestruct (for_each_total (fun _ : Placement => True)
               (place_tram (grid_size b) (Z.max 2 (grid_size b / 6))))
    as (st2 & g2 & Hrun2 & _);
    [intros s x h Hx _; apply in_range in Hx;
     destruct (place_tram_total (grid_size b)
        (Z.max 2 (grid_size b / 6)) s x h Hn (proj1 Hx)) as (s' & h' & H); eauto
    |exact I|].
  erewrite bind_ok; [|exact Hrun2].
  edestruct (for_each_total (fun _ : Placement => True)
               (place_bus (grid_size b) (Z.max 2 (grid_size b / 6))))
    as (st3 & g3 & Hrun3 & _);
    [intros s x h Hx _; apply in_range in Hx;
     destruct (place_bus_total (grid_size b)
        (Z.max 2 (grid_size b / 6)) s x h Hn (proj1 Hx)) as (s' & h' & H); eauto
    |exact I|].
  erewrite bind_ok; [|exact Hrun3].
  unfold ret; eauto.
Qed.

(** Station names are pairwise distinct. *)
Lemma str_of_nat_inj m n : str_of_nat m = str_of_nat n -> m = n.
Proof.
  unfold str_of_nat; intros H.
  apply (f_equal NilZero.uint_of_string) in H.
  assert (Hnz : forall k, Nat.to_uint k <> Decimal.Nil).
  { intros k Hk.
    pose proof (DecimalNat.Unsigned.of_to k) as Hof; rewrite Hk in Hof.
    cbn in Hof; subst k; discriminate. }
  rewrite !NilZero.usu in H by apply Hnz.
  injection H as H; now apply DecimalNat.Unsigned.to_uint_inj.
Qed.

Lemma station_name_inj m n : station_name m = station_name n -> m = n.
Proof.
  unfold station_name; cbn; intros H.
  injection H as H; now apply str_of_nat_inj.
Qed.

Lemma NoDup_station_names n : NoDup (map station_name (seq 0 n)).
Proof.
  apply Finite.Injective_map_NoDup; [|apply seq_NoDup].
  intros i j; apply station_name_inj.
Qed.

(** ** Co-location groups *)

Definition station_loc (s : Station.t) : Z * Z := (Station.x s, Station.y s).

Definition indexed (stations : list Station.t) : list (nat * Station.t) :=
  combine (seq 0 (List.length stations)) stations.

(** The indices, in list order, of the stations placed at [loc]. *)
Definition cohabitants (stations : list Station.t) (loc : Z * Z) : list nat :=
  map fst (filter (fun p => loc_eqb (station_loc (snd p)) loc) (indexed stations)).

(** [location_groups[loc]], or the empty list when [loc] is no key. *)
Fixpoint group_of (groups : Groups) (loc : Z * Z) : list nat :=
  match groups with
  | [] => []
  | (l, g) :: rest => if loc_eqb l loc then g else group_of rest loc
  end.

Lemma loc_eqb_eq p q : loc_eqb p q = true <-> p = q.
Proof.
  unfold loc_eqb; destruct p as [a b], q as [c d]; cbn.
  rewrite andb_true_iff, !Z.eqb_eq; split; [intros [-> ->]|intros [= -> ->]]; auto.
Qed.

Lemma loc_eqb_refl p : loc_eqb p p = true.
Proof. now apply loc_eqb_eq. Qed.

Lemma loc_eqb_neq p q : loc_eqb p q = false <-> p <> q.
Proof.
  rewrite <- loc_eqb_eq; destruct (loc_eqb p q); split; congruence.
Qed.

Lemma group_of_append loc i groups loc' :
  group_of (group_append loc i groups) loc'
  = if loc_eqb loc loc' then group_of groups loc' ++ [i] else group_of groups loc'.
Proof.
  induction groups as [|[l g] rest IH]; cbn.
  - destruct (loc_eqb loc loc'); reflexivity.
  - destruct (loc_eqb l loc) eqn:E; cbn.
    + apply loc_eqb_eq in E; subst l.
      destruct (loc_eqb loc loc'); reflexivity.
    + rewrite IH.
      destruct (loc_eqb l loc') eqn:E'; [|reflexivity].
      apply loc_eqb_eq in E'; subst loc'.
      destruct (loc_eqb loc l) eqn:E''; [|reflexivity].
      apply loc_eqb_eq in E''; subst; rewrite loc_eqb_refl in E; discriminate.
Qed.

Lemma group_append_keys loc i groups :
  map fst (group_append loc i groups)
  = if existsb (fun l => loc_eqb l loc) (map fst groups)
    then map fst groups else map fst groups ++ [loc].
Proof.
  induction groups as [|[l g] rest IH]; cbn; [reflexivity|].
  destruct (loc_eqb l loc); cbn; [reflexivity|].
  rewrite IH; destruct (existsb _ _); reflexivity.
Qed.

Lemma group_append_NoDup loc i groups :
  NoDup (map fst groups) -> NoDup (map fst (group_append loc i groups)).
Proof.
  intros H; rewrite group_append_keys.
  destruct (existsb _ _) eqn:E; [assumption|].
  apply NoDup_app; [assumption|repeat constructor; intros []|].
  intros l Hl [Heq|[]]; subst l.
  assert (existsb (fun l' => loc_eqb l' loc) (map fst groups) = true).
  { apply existsb_exists; exists loc; split; [assumption|apply loc_eqb_refl]. }
  congruence.
Qed.

Lemma group_of_In groups loc :
  group_of groups loc <> [] -> In (loc, group_of groups loc) groups.
Proof.
  induction groups as [|[l g] rest IH]; cbn; [congruence|].
  destruct (loc_eqb l loc) eqn:E.
  - apply loc_eqb_eq in E; subst; now left.
  - intros H; right; apply IH, H.
Qed.

Lemma In_group_of groups loc g :
  NoDup (map fst groups) -> In (loc, g) groups -> group_of groups loc = g.
Proof.
  induction groups as [|[l g0] rest IH]; cbn; [intros _ []|].
  intros Hnd [[= -> ->]|Hin].
  - now rewrite loc_eqb_refl.
  - inversion Hnd as [|? ? Hnotin Hnd']; subst.
    destruct (loc_eqb l loc) eqn:E; [|now apply IH].
    apply loc_eqb_eq in E; subst l.
    exfalso; apply Hnotin.
    change loc with (fst (loc, g)); apply in_map, Hin.
Qed.

Definition group_step (groups : Groups) (p : nat * Station.t) : Groups :=
  group_append (Station.x (snd p), Station.y (snd p)) (fst p) groups.

Lemma group_of_fold l groups loc :
  group_of (fold_left group_step l groups) loc
  = group_of groups loc
    ++ map fst (filter (fun p => loc_eqb (station_loc (snd p)) loc) l).
Proof.
  revert groups; induction l as [|p l IH]; intros groups; cbn [fold_left].
  - cbn; now rewrite app_nil_r.
  - rewrite IH; unfold group_step; rewrite group_of_append.
    cbn [filter]; unfold station_loc.
    destruct (loc_eqb _ loc); cbn; [now rewrite <- app_assoc|reflexivity].
Qed.

Lemma fold_group_step_NoDup l groups :
  NoDup (map fst groups) -> NoDup (map fst (fold_left group_step l groups)).
Proof.
  revert groups; induction l as [|p l IH]; intros groups H; cbn; [assumption|].
  apply IH, group_append_NoDup, H.
Qed.

Lemma location_groups_NoDup stations : NoDup (map fst (location_groups stations)).
Proof. apply (fold_group_step_NoDup _ []); constructor. Qed.

Lemma group_of_location_groups stations loc :
  group_of (location_groups stations) loc = cohabitants stations loc.
Proof. exact (group_of_fold (indexed stations) [] loc). Qed.

(** Every entry of [location_groups] holds the stations of its key, and
    every location with a station is a key. *)
Lemma location_groups_entry stations loc g :
  In (loc, g) (location_groups stations) -> g = cohabitants stations loc.
Proof.
  intros H; rewrite <- group_of_location_groups; symmetry.
  apply In_group_of; [apply location_groups_NoDup|exact H].
Qed.

Lemma location_groups_key stations loc :
  cohabitants stations loc <> [] ->
  In (loc, cohabitants stations loc) (location_groups stations).
Proof.
  rewrite <- group_of_location_groups; apply group_of_In.
Qed.

Lemma in_combine_seq {A} (l : list A) k i a :
  In (i, a) (combine (seq k (List.length l)) l)
  <-> (k <= i)%nat /\ nth_error l (i - k) = Some a.
Proof.
  revert k; induction l as [|h t IH]; intros k; cbn [List.length seq combine].
  - split; [intros []|intros [_ H]; destruct (i - k)%nat; discriminate].
  - cbn [In]; rewrite IH; split.
    + intros [[= <- <-]|[Hk Hn]].
      * split; [lia|now rewrite Nat.sub_diag].
      * split; [lia|].
        replace (i - k)%nat with (S (i - S k)) by lia; exact Hn.
    + intros [Hk Hn].
      destruct (Nat.eq_dec k i) as [->|Hne].
      * left; rewrite Nat.sub_diag in Hn; cbn in Hn; congruence.
      * right; split; [lia|].
        replace (i - k)%nat with (S (i - S k)) in Hn by lia; exact Hn.
Qed.

Lemma in_indexed stations i s :
  In (i, s) (indexed stations) <-> nth_error stations i = Some s.
Proof.
  unfold indexed; rewrite in_combine_seq, Nat.sub_0_r; split;
    [intros [_ H]; exact H|intros H; split; [lia|exact H]].
Qed.

Lemma map_fst_combine_seq {A} (l : list A) k :
  map fst (combine (seq k (List.length l)) l) = seq k (List.length l).
Proof.
  revert k; induction l as [|h t IH]; intros k; cbn; [reflexivity|now rewrite IH].
Qed.

Lemma NoDup_map_fst_filter {A B} (f : A * B -> bool) (l : list (A * B)) :
  NoDup (map fst l) -> NoDup (map fst (filter f l)).
Proof.
  induction l as [|p l IH]; cbn; [auto|].
  intros H; inversion H as [|? ? Hnotin Hnd]; subst.
  destruct (f p); cbn; [constructor|]; auto.
  intros Hin; apply Hnotin.
  apply in_map_iff in Hin as (q & Hq & Hin); apply filter_In in Hin as [Hin _].
  rewrite <- Hq; apply in_map, Hin.
Qed.

Lemma in_cohabitants stations loc i :
  In i (cohabitants stations loc)
  <-> exists s, nth_error stations i = Some s /\ station_loc s = loc.
Proof.
  unfold cohabitants; rewrite in_map_iff; split.
  - intros ([j s] & Hj & Hin); cbn in Hj; subst j.
    apply filter_In in Hin as [Hin Hloc]; cbn in Hloc.
    exists s; split; [now apply in_indexed|now apply loc_eqb_eq].
  - intros (s & Hn & Hloc); exists (i, s); split; [reflexivity|].
    apply filter_In; split; [now apply in_indexed|].
    cbn; now apply loc_eqb_eq.
Qed.

Lemma NoDup_cohabitants stations loc : NoDup (cohabitants stations loc).
Proof.
  apply NoDup_map_fst_filter; unfold indexed.
  rewrite map_fst_combine_seq; apply seq_NoDup.
Qed.

(** A duplicate-free list has two elements or more exactly when beside
    each of its elements it holds another one. *)
Lemma NoDup_length_gt_1 (l : list nat) i :
  NoDup l -> In i l ->
  ((1 < List.length l)%nat <-> exists j, j <> i /\ In j l).
Proof.
  intros Hnd Hi; split.
  - destruct l as [|a [|b t]]; cbn; try lia; intros _.
    inversion Hnd as [|? ? Hnotin _]; subst.
    destruct (Nat.eq_dec a i) as [->|Hne].
    + exists b; split; [|now right; left].
      intros ->; apply Hnotin; now left.
    + exists a; split; [exact Hne|now left].
  - intros (j & Hne & Hj).
    destruct l as [|a [|b t]]; cbn; try lia.
    + destruct Hi.
    + destruct Hi as [<-|[]], Hj as [<-|[]]; congruence.
Qed.

(** ** The transfer pass *)

Lemma list_update_length {A} (l : list A) i f :
  List.length (list_update l i f) = List.length l.
Proof. revert i; induction l as [|h t IH]; intros [|i]; cbn; auto. Qed.

Lemma nth_error_list_update {A} (l : list A) i f j :
  nth_error (list_update l i f) j
  = if Nat.eqb i j then option_map f (nth_error l j) else nth_error l j.
Proof.
  revert i j; induction l as [|h t IH]; intros [|i] [|j]; cbn; try reflexivity.
  - destruct (Nat.eqb _ _); reflexivity.
  - apply IH.
Qed.

(** Marking twice is marking once. *)
Definition mark_if (flag : bool) (s : Station.t) : Station.t :=
  if flag then Station.set_transfer s else s.

Lemma mark_if_mark_if a b s : mark_if a (mark_if b s) = mark_if (a || b) s.
Proof. destruct a, b; reflexivity. Qed.

Lemma option_map_mark_false o : option_map (mark_if false) o = o.
Proof. destruct o; reflexivity. Qed.

Lemma nth_error_mark_group store group j :
  nth_error (mark_group store group) j
  = option_map (mark_if (existsb (Nat.eqb j) group)) (nth_error store j).
Proof.
  unfold mark_group; revert store; induction group as [|i group IH]; intros store;
    cbn [fold_left existsb].
  - now rewrite option_map_mark_false.
  - rewrite IH, nth_error_list_update, (Nat.eqb_sym j i).
    destruct (Nat.eqb i j); cbn [orb].
    + destruct (nth_error store j) as [s|]; cbn; [|reflexivity].
      change (Station.set_transfer s) with (mark_if true s).
      now rewrite mark_if_mark_if, orb_true_r.
    + reflexivity.
Qed.

Definition in_marked_group (entries : Groups) (j : nat) : bool :=
  existsb
    (fun e => (1 <? List.length (snd e))%nat && existsb (Nat.eqb j) (snd e))
    entries.

Definition transfer_step (st : list Station.t * list Connection.t)
    (entry : (Z * Z) * list nat) : list Station.t * list Connection.t :=
  let group := snd entry in
  if (1 <? List.length group)%nat
  then let store := mark_group (fst st) group in
       (store, group_edges store group (snd st))
  else st.

Lemma nth_error_transfer_fold entries store connections j :
  nth_error (fst (fold_left transfer_step entries (store, connections))) j
  = option_map (mark_if (in_marked_group entries j)) (nth_error store j).
Proof.
  revert store connections; induction entries as [|e entries IH];
    intros store connections; cbn [fold_left in_marked_group existsb].
  - now rewrite option_map_mark_false.
  - unfold transfer_step at 2.
    destruct (1 <? List.length (snd e))%nat; cbn [andb].
    + cbn [fst snd]; rewrite IH, nth_error_mark_group.
      destruct (nth_error store j) as [s|]; cbn; [|reflexivity].
      now rewrite mark_if_mark_if, orb_comm.
    + apply IH.
Qed.

Lemma transfer_pass_fold stations :
  transfer_pass stations
  = fold_left transfer_step (location_groups stations) (stations, []).
Proof. reflexivity. Qed.

(** Membership in a marked group, in terms of shared coordinates. *)
Lemma in_marked_group_iff stations j s :
  nth_error stations j = Some s ->
  (in_marked_group (location_groups stations) j = true
   <-> exists k s', k <> j /\ nth_error stations k = Some s'
                    /\ station_loc s' = station_loc s).
Proof.
  intros Hj.
  assert (Hin : In j (cohabitants stations (station_loc s))).
  { apply in_cohabitants; eauto. }
  pose proof (NoDup_length_gt_1 _ j (NoDup_cohabitants stations (station_loc s)) Hin)
    as Hlen.
  unfold in_marked_group; rewrite existsb_exists; split.
  - intros ([loc g] & He & Hb); cbn [snd] in Hb.
    apply andb_true_iff in Hb as [Hgt Hmem].
    apply location_groups_entry in He; subst g.
    apply existsb_exists in Hmem as (j' & Hj' & Heq).
    apply Nat.eqb_eq in Heq; subst j'.
    apply in_cohabitants in Hj' as (s0 & Hs0 & Hloc).
    rewrite Hj in Hs0; injection Hs0 as <-; subst loc.
    apply Nat.ltb_lt in Hgt; apply Hlen in Hgt as (k & Hne & Hk).
    apply in_cohabitants in Hk as (s' & Hs' & Hloc'); eauto.
  - intros (k & s' & Hne & Hk & Hloc).
    exists (station_loc s, cohabitants stations (station_loc s)); split.
    + apply location_groups_key; intros Hnil; rewrite Hnil in Hin; destruct Hin.
    + cbn [snd]; apply andb_true_iff; split.
      * apply Nat.ltb_lt, Hlen; exists k; split; [exact Hne|].
        apply in_cohabitants; eauto.
      * apply existsb_exists; exists j; split; [exact Hin|apply Nat.eqb_refl].
Qed.

(** A tape with draws spread over the whole 53-bit range. *)
Definition tape_c : Random :=
  mkRandom
    (fun n =>
       let k := (N.of_nat n + 1)%N in
       ((k * k * 2862933555777941757 + k * 3037000493) / 8 mod 9007199254740992)%N)
    0.

Lemma mark_if_id f s : Station.id (mark_if f s) = Station.id s.
Proof. destruct f; reflexivity. Qed.

Lemma mark_if_loc f s : station_loc (mark_if f s) = station_loc s.
Proof. destruct f; reflexivity. Qed.

Lemma mark_if_type f s : Station.station_type (mark_if f s) = Station.station_type s.
Proof. destruct f; reflexivity. Qed.

Lemma mark_if_flag f s :
  Station.is_transfer (mark_if f s) = f || Station.is_transfer s.
Proof. destruct f; reflexivity. Qed.

Lemma generate_connections_stations stations stations' connections :
  _generate_connections stations = Ok (stations', connections) ->
  stations' = fst (transfer_pass stations).
Proof.
  unfold _generate_connections.
  destruct (transfer_pass stations) as [store conns0]; cbn [fst].
  destruct (backbone_pass store conns0) as [conns1|e]; cbn [rbind]; [|discriminate].
  destruct (_ensure_connectivity store (walking_pass store conns1)) as [conns2|e];
    cbn [rbind]; [|discriminate].
  now intros [= <- _].
Qed.

Lemma nth_error_transfer_pass stations j :
  nth_error (fst (transfer_pass stations)) j
  = option_map (mark_if (in_marked_group (location_groups stations) j))
      (nth_error stations j).
Proof. rewrite transfer_pass_fold; apply nth_error_transfer_fold. Qed.

(** The transfer pass on a station list whose flags are all unset and
    whose ids are pairwise distinct: a station ends up flagged exactly
    when another station shares its coordinates. *)
Lemma transfer_pass_flags stations s :
  NoDup (map Station.id stations) ->
  Forall (fun s => Station.is_transfer s = false) stations ->
  In s (fst (transfer_pass stations)) ->
  (Station.is_transfer s = true
   <-> exists s', In s' (fst (transfer_pass stations))
                  /\ Station.id s' <> Station.id s
                  /\ Station.x s' = Station.x s /\ Station.y s' = Station.y s).
Proof.
  intros Hnd Hflags Hs.
  apply In_nth_error in Hs as (j & Hj).
  rewrite nth_error_transfer_pass in Hj.
  destruct (nth_error stations j) as [s0|] eqn:Hj0; [|discriminate].
  cbn in Hj; injection Hj as <-.
  assert (Hf0 : Station.is_transfer s0 = false).
  { rewrite Forall_forall in Hflags; eapply Hflags, nth_error_In, Hj0. }
  rewrite mark_if_flag, Hf0, orb_false_r, (in_marked_group_iff stations j s0 Hj0).
  rewrite mark_if_id.
  assert (Hids : forall k s', nth_error stations k = Some s' ->
                   (k <> j <-> Station.id s' <> Station.id s0)).
  { intros k s' Hk; split.
    - intros Hne Heq; apply Hne.
      apply (proj1 (NoDup_nth_error (map Station.id stations)) Hnd k j).
      + rewrite length_map; apply nth_error_Some; congruence.
      + rewrite !nth_error_map, Hk, Hj0; cbn; congruence.
    - intros Hne ->; rewrite Hj0 in Hk; injection Hk as <-; congruence. }
  split.
  - intros (k & s' & Hne & Hk & Hloc).
    exists (mark_if (in_marked_group (location_groups stations) k) s'); split.
    + eapply nth_error_In; rewrite nth_error_transfer_pass, Hk; reflexivity.
    + rewrite mark_if_id; split; [now apply (Hids k s' Hk)|].
      pose proof (mark_if_loc (in_marked_group (location_groups stations) k) s') as H1.
      pose proof (mark_if_loc (in_marked_group (location_groups stations) j) s0) as H2.
      unfold station_loc in *; split; congruence.
  - intros (s' & Hin & Hne & Hx & Hy).
    apply In_nth_error in Hin as (k & Hk).
    rewrite nth_error_transfer_pass in Hk.
    destruct (nth_error stations k) as [s1|] eqn:Hk1; [|discriminate].
    cbn in Hk; injection Hk as <-.
    rewrite mark_if_id in Hne.
    exists k, s1; split; [now apply (Hids k s1 Hk1)|split; [exact Hk1|]].
    pose proof (mark_if_loc (in_marked_group (location_groups stations) k) s1) as H1.
    pose proof (mark_if_loc (in_marked_group (location_groups stations) j) s0) as H2.
    unfold station_loc in *; congruence.
Qed.

Lemma generate_random_city_inv b g m g' :
  generate_random_city b g = Ok (m, g') ->
  exists g1 sts g2,
    _generate_stations b g1 = Ok (sts, g2)
    /\ _generate_connections sts = Ok (stations m, connections m)
    /\ routes m = _generate_routes (stations m).
Proof.
  unfold generate_random_city; intros Hrun.
  apply bind_inv in Hrun as (zs & g1 & _ & Hrun).
  apply bind_inv in Hrun as (sts & g2 & Hsts & Hrun).
  apply bind_inv in Hrun as ([sts' conns] & g3 & Hconn & Hrun).
  injection Hrun as <- _; cbn [stations connections routes].
  unfold lift in Hconn.
  destruct (_generate_connections sts) as [[a c]|e] eqn:E; [|discriminate].
  injection Hconn as -> -> _.
  exists g1, sts, g2; repeat split; assumption.
Qed.

Lemma generated_station_ids b g sts g' :
  _generate_stations b g = Ok (sts, g') -> NoDup (map Station.id sts).
Proof.
  intros H; apply generate_stations_placement in H as [-> _].
  apply NoDup_station_names.
Qed.

(** C2 (amended): in every generated city a station's [is_transfer]
    flag is true if and only if at least one other station, of any
    mode, shares its exact coordinate. *)
Theorem transfer_flag_iff_colocated b g m g' :
  generate_random_city b g = Ok (m, g') ->
  forall s, In s (stations m) ->
  (Station.is_transfer s = true
   <-> exists s', In s' (stations m)
                  /\ Station.id s' <> Station.id s
                  /\ Station.x s' = Station.x s /\ Station.y s' = Station.y s).
Proof.
  intros Hrun s Hs.
  apply generate_random_city_inv in Hrun as (g1 & sts & g2 & Hsts & Hconn & _).
  apply generate_connections_stations in Hconn.
  rewrite Hconn in *.
  apply transfer_pass_flags;
    [eapply generated_station_ids; eassumption
    |eapply generate_stations_placement; eassumption|exact Hs].
Qed.

(** One concrete run, on a 4 by 4 grid. *)
Definition run_c : result (CityModel * Random) :=
  generate_random_city (CityBuilder_init 4) tape_c.

Definition city_c : CityModel :=
  match run_c with Ok (m, _) => m | Raise _ => mkCity 0 [] [] [] [] end.

Definition tape_c_after : Random :=
  match run_c with Ok (_, g) => g | Raise _ => tape_c end.

Lemma run_c_ok :
  generate_random_city (CityBuilder_init 4) tape_c = Ok (city_c, tape_c_after).
Proof. vm_compute; reflexivity. Qed.

Lemma transfer_flag_iff_colocated_witness :
  In (Station.mk "station_0" 1 0 Metro true) (stations city_c)
  /\ (Station.is_transfer (Station.mk "station_0" 1 0 Metro true) = true
      <-> exists s', In s' (stations city_c)
                     /\ Station.id s' <> "station_0"%string
                     /\ Station.x s' = 1 /\ Station.y s' = 0).
Proof.
  assert (Hin : In (Station.mk "station_0" 1 0 Metro true) (stations city_c))
    by (vm_compute; left; reflexivity).
  split; [exact Hin|].
  apply (transfer_flag_iff_colocated (CityBuilder_init 4) tape_c city_c tape_c_after
           run_c_ok
           (Station.mk "station_0" 1 0 Metro true) Hin).
Defined.

(** C2 (counterexample): in the city generated from [tape_c] the bus
    station [station_7] at [(0, 1)] is flagged as a transfer although
    the only other station at its coordinate, [station_11], is a bus
    station too. *)
Lemma transfer_flag_among_same_mode :
  generate_random_city (CityBuilder_init 4) tape_c = Ok (city_c, tape_c_after)
  /\ In (Station.mk "station_7" 0 1 Bus true) (stations city_c)
  /\ forall s', In s' (stations city_c) ->
       Station.x s' = 0 -> Station.y s' = 1 -> Station.station_type s' = Bus.
Proof.
  split; [exact run_c_ok|split].
  - vm_compute; do 7 right; left; reflexivity.
  - intros s' Hin; vm_compute in Hin.
    repeat (destruct Hin as [<-|Hin]; [cbn; intros; first [reflexivity|lia]|]).
    destruct Hin.
Qed.

(** The records of [connections] that join [a] and [b], in either
    direction. *)
Definition edges_between (connections : list Connection.t) (a b : string)
    : list Connection.t :=
  filter
    (fun c =>
       (String.eqb (Connection.from c) a && String.eqb (Connection.to c) b)
       || (String.eqb (Connection.from c) b && String.eqb (Connection.to c) a))
    connections.

(** C3 (the code at the failing input): in the city generated from
    [tape_c] the metro station [station_0] and the tram station
    [station_3] share the cell [(1, 0)]; the transfer pass joins them
    with a 2-minute edge and the backbone pass, which starts from
    [station_0] and looks at no existing edge, joins them again with a
    0-minute edge. *)
Lemma backbone_repeats_transfer_edge :
  generate_random_city (CityBuilder_init 4) tape_c = Ok (city_c, tape_c_after)
  /\ edges_between (connections city_c) "station_0" "station_3"
     = [Connection.mk "station_0" "station_3" 2;
        Connection.mk "station_0" "station_3" 0].
Proof. split; [exact run_c_ok|vm_compute; reflexivity]. Qed.

(** ** Edges: what each pass appends *)

Lemma connection_exists_app l1 l2 a b :
  connection_exists (l1 ++ l2) a b
  = connection_exists l1 a b || connection_exists l2 a b.
Proof. unfold connection_exists; apply existsb_app. Qed.

Lemma connection_exists_In connections a b w :
  In (Connection.mk a b w) connections ->
  connection_exists connections a b = true
  /\ connection_exists connections b a = true.
Proof.
  intros Hin; unfold connection_exists; split; apply existsb_exists;
    exists (Connection.mk a b w); (split; [exact Hin|]); cbn;
    rewrite !String.eqb_refl; cbn; auto using orb_true_r.
Qed.

Lemma connection_exists_incl l1 l2 a b :
  incl l1 l2 -> connection_exists l1 a b = true -> connection_exists l2 a b = true.
Proof.
  unfold connection_exists; intros Hincl H.
  apply existsb_exists in H as (c & Hc & Hb).
  apply existsb_exists; exists c; split; [apply Hincl, Hc|exact Hb].
Qed.

Lemma Mode_eqb_eq a b : Mode_eqb a b = true <-> a = b.
Proof. destruct a, b; cbn; split; congruence. Qed.

Lemma Mode_eqb_sym a b : Mode_eqb a b = Mode_eqb b a.
Proof. destruct a, b; reflexivity. Qed.

(** [int(d * 100 / 60)] is 0, 1 and 3 for [d] = 0, 1 and 2. *)
Lemma local_walk_time_near d : 0 <= d <= 2 -> local_walk_time d = 3.
Proof.
  intros Hd.
  assert (H : d = 0 \/ d = 1 \/ d = 2) by lia.
  destruct H as [->|[->| ->]]; vm_compute; reflexivity.
Qed.

Lemma station_distance_nonneg s1 s2 : 0 <= station_distance s1 s2.
Proof. unfold station_distance, manhattan; lia. Qed.

Lemma station_distance_0 s1 s2 :
  station_distance s1 s2 = 0 -> station_loc s1 = station_loc s2.
Proof.
  unfold station_distance, manhattan, station_loc; intros H; f_equal; lia.
Qed.

(** Where an edge of the local-walking pass comes from: a pair of
    stations of different modes, at most 2 apart, that no record of
    [connections] joins. *)
Definition walk_origin (connections : list Connection.t) (s1 s2 : Station.t)
    (c : Connection.t) : Prop :=
  Mode_eqb (Station.station_type s1) (Station.station_type s2) = false
  /\ station_distance s1 s2 <= 2
  /\ connection_exists connections (Station.id s1) (Station.id s2) = false
  /\ c = Connection.mk (Station.id s1) (Station.id s2)
           (local_walk_time (station_distance s1 s2)).

Lemma walk_origin_weaken l1 l2 s1 s2 c :
  walk_origin (l1 ++ l2) s1 s2 c -> walk_origin l1 s1 s2 c.
Proof.
  intros (Ht & Hd & He & Hc); repeat split; try assumption.
  rewrite connection_exists_app in He; now apply orb_false_iff in He.
Qed.

Lemma walking_inner s1 rest :
  forall connections,
  exists added,
    fold_left (walking_step s1) rest connections = connections ++ added
    /\ forall c, In c added ->
         exists s2, In s2 rest /\ walk_origin connections s1 s2 c.
Proof.
  induction rest as [|s2 rest IH]; intros connections; cbn [fold_left].
  - exists []; split; [now rewrite app_nil_r|intros c []].
  - destruct (IH (walking_step s1 connections s2)) as (added & Hrun & Horigin).
    unfold walking_step in *.
    destruct (Mode_eqb _ _) eqn:Ht;
      [|destruct (station_distance s1 s2 <=? 2) eqn:Hd;
        [destruct (connection_exists _ _ _) eqn:He|]].
    1, 2, 4: exists added; split; [exact Hrun|];
      intros c Hc; destruct (Horigin c Hc) as (s & Hs & Ho);
      exists s; split; [now right|exact Ho].
    eexists (_ :: added); split; [rewrite Hrun, <- app_assoc; reflexivity|].
    intros c [<-|Hc].
    + exists s2; split; [now left|].
      repeat split; try assumption; now apply Z.leb_le.
    + destruct (Horigin c Hc) as (s & Hs & Ho).
      exists s; split; [now right|eapply walk_origin_weaken, Ho].
Qed.

Lemma walking_outer stations :
  forall connections,
  exists added,
    walking_pass stations connections = connections ++ added
    /\ forall c, In c added ->
         exists s1 s2, In s1 stations /\ In s2 stations
                       /\ walk_origin connections s1 s2 c.
Proof.
  induction stations as [|s1 rest IH]; intros connections; cbn [walking_pass].
  - exists []; split; [now rewrite app_nil_r|intros c []].
  - destruct (walking_inner s1 rest connections) as (added1 & Hrun1 & Ho1).
    destruct (IH (connections ++ added1)) as (added2 & Hrun2 & Ho2).
    exists (added1 ++ added2); split.
    + now rewrite Hrun1, Hrun2, app_assoc.
    + intros c Hc; apply in_app_or in Hc as [Hc|Hc].
      * destruct (Ho1 c Hc) as (s2 & Hs2 & Ho).
        exists s1, s2; repeat split; try (now left); try (now right); apply Ho.
      * destruct (Ho2 c Hc) as (a & b0 & Ha & Hb & Ho).
        exists a, b0; split; [now right|split; [now right|]].
        eapply walk_origin_weaken, Ho.
Qed.

Definition group_edge_step (store : list Station.t) (i : nat)
    (connections : list Connection.t) (j : nat) : list Connection.t :=
  match nth_error store i, nth_error store j with
  | Some s1, Some s2 =>
      if negb (Mode_eqb (Station.station_type s1) (Station.station_type s2))
      then connections ++
           [Connection.mk (Station.id s1) (Station.id s2) transfer_walk_time]
      else connections
  | _, _ => connections
  end.

Lemma group_edge_step_incl store i connections j :
  incl connections (group_edge_step store i connections j).
Proof.
  unfold group_edge_step.
  destruct (nth_error store i), (nth_error store j); try apply incl_refl.
  destruct (negb _); [apply incl_appl|]; apply incl_refl.
Qed.

Lemma fold_incl {A} (f : list Connection.t -> A -> list Connection.t) l :
  (forall connections a, incl connections (f connections a)) ->
  forall connections, incl connections (fold_left f l connections).
Proof.
  intros Hf; induction l as [|a l IH]; intros connections; cbn;
    [apply incl_refl|].
  eapply incl_tran; [apply Hf|apply IH].
Qed.

Lemma group_edges_incl store group :
  forall connections, incl connections (group_edges store group connections).
Proof.
  induction group as [|i rest IH]; intros connections; cbn [group_edges];
    [apply incl_refl|].
  eapply incl_tran; [|apply IH].
  apply (fold_incl (group_edge_step store i)), group_edge_step_incl.
Qed.

Lemma group_edges_ordered store l1 i l2 j l3 s1 s2 connections :
  nth_error store i = Some s1 -> nth_error store j = Some s2 ->
  Mode_eqb (Station.station_type s1) (Station.station_type s2) = false ->
  In (Connection.mk (Station.id s1) (Station.id s2) transfer_walk_time)
     (group_edges store (l1 ++ i :: l2 ++ j :: l3) connections).
Proof.
  intros Hi Hj Ht; revert connections.
  induction l1 as [|a l1 IH]; intros connections; cbn [app group_edges].
  - apply group_edges_incl.
    change (fold_left _ (l2 ++ j :: l3) connections)
      with (fold_left (group_edge_step store i) (l2 ++ j :: l3) connections).
    rewrite fold_left_app; cbn [fold_left].
    apply (fold_incl (group_edge_step store i)); [apply group_edge_step_incl|].
    unfold group_edge_step at 1; rewrite Hi, Hj, Ht; cbn [negb].
    apply in_or_app; right; now left.
  - apply IH.
Qed.

Lemma group_edges_joins store group i j s1 s2 connections :
  In i group -> In j group -> i <> j ->
  nth_error store i = Some s1 -> nth_error store j = Some s2 ->
  Mode_eqb (Station.station_type s1) (Station.station_type s2) = false ->
  connection_exists (group_edges store group connections)
    (Station.id s1) (Station.id s2) = true.
Proof.
  intros Hi Hj Hne Hsi Hsj Ht.
  apply in_split in Hi as (l1 & r & ->).
  apply in_app_or in Hj as [Hj|[Hj|Hj]]; [|congruence|].
  - apply in_split in Hj as (a & c & ->).
    rewrite <- app_assoc; cbn [app].
    refine (proj2 (connection_exists_In _ _ _ transfer_walk_time
                     (group_edges_ordered store a j c i r s2 s1 _ Hsj Hsi _))).
    now rewrite Mode_eqb_sym.
  - apply in_split in Hj as (a & c & ->).
    exact (proj1 (connection_exists_In _ _ _ transfer_walk_time
                    (group_edges_ordered store l1 i a j c s1 s2 _ Hsi Hsj Ht))).
Qed.

Lemma transfer_step_incl st entry : incl (snd st) (snd (transfer_step st entry)).
Proof.
  unfold transfer_step; destruct (1 <? _)%nat; cbn [snd];
    [apply group_edges_incl|apply incl_refl].
Qed.

Lemma transfer_fold_incl entries :
  forall st, incl (snd st) (snd (fold_left transfer_step entries st)).
Proof.
  induction entries as [|e entries IH]; intros st; cbn; [apply incl_refl|].
  eapply incl_tran; [apply transfer_step_incl|apply IH].
Qed.

Lemma transfer_step_store st entry i s :
  nth_error (fst st) i = Some s ->
  exists f, nth_error (fst (transfer_step st entry)) i = Some (mark_if f s).
Proof.
  intros Hs; unfold transfer_step; destruct (1 <? _)%nat; cbn [fst].
  - rewrite nth_error_mark_group, Hs; cbn; eauto.
  - exists false; exact Hs.
Qed.

(** Two stations of different modes listed in a group of two or more
    are joined once the transfer pass is over. *)
Lemma transfer_fold_joins entries :
  forall st e i j s1 s2,
  In e entries -> In i (snd e) -> In j (snd e) -> i <> j ->
  nth_error (fst st) i = Some s1 -> nth_error (fst st) j = Some s2 ->
  Mode_eqb (Station.station_type s1) (Station.station_type s2) = false ->
  connection_exists (snd (fold_left transfer_step entries st))
    (Station.id s1) (Station.id s2) = true.
Proof.
  induction entries as [|e0 entries IH]; intros st e i j s1 s2 He Hi Hj Hne Hsi Hsj Ht;
    [destruct He|].
  cbn [fold_left]; destruct He as [->|He].
  - eapply connection_exists_incl; [apply transfer_fold_incl|].
    unfold transfer_step.
    assert (Hlen : (1 <? List.length (snd e))%nat = true).
    { apply Nat.ltb_lt.
      apply (NoDup_incl_length (l := [i; j])).
      - repeat constructor; cbn; [intros [H|[]]; congruence|intros []].
      - intros k [<-|[<-|[]]]; assumption. }
    rewrite Hlen; cbn [snd].
    pose proof (nth_error_mark_group (fst st) (snd e) i) as Hmi.
    pose proof (nth_error_mark_group (fst st) (snd e) j) as Hmj.
    rewrite Hsi in Hmi; rewrite Hsj in Hmj; cbn in Hmi, Hmj.
    rewrite <- (mark_if_id (existsb (Nat.eqb i) (snd e)) s1).
    rewrite <- (mark_if_id (existsb (Nat.eqb j) (snd e)) s2).
    apply (group_edges_joins (mark_group (fst st) (snd e)) (snd e) i j);
      [exact Hi|exact Hj|exact Hne|exact Hmi|exact Hmj|].
    now rewrite !mark_if_type.
  - destruct (transfer_step_store st e0 i s1 Hsi) as (f1 & H1).
    destruct (transfer_step_store st e0 j s2 Hsj) as (f2 & H2).
    rewrite <- (mark_if_id f1 s1), <- (mark_if_id f2 s2).
    apply (IH (transfer_step st e0) e i j);
      [exact He|exact Hi|exact Hj|exact Hne|exact H1|exact H2|].
    now rewrite !mark_if_type.
Qed.

Lemma transfer_pass_joins stations i j s1 s2 :
  i <> j ->
  nth_error stations i = Some s1 -> nth_error stations j = Some s2 ->
  station_loc s1 = station_loc s2 ->
  Mode_eqb (Station.station_type s1) (Station.station_type s2) = false ->
  connection_exists (snd (transfer_pass stations))
    (Station.id s1) (Station.id s2) = true.
Proof.
  intros Hne Hi Hj Hloc Ht; rewrite transfer_pass_fold.
  assert (Hini : In i (cohabitants stations (station_loc s1))).
  { apply in_cohabitants; eauto. }
  assert (Hinj : In j (cohabitants stations (station_loc s1))).
  { apply in_cohabitants; eauto. }
  eapply (transfer_fold_joins _ (stations, [])
            (station_loc s1, cohabitants stations (station_loc s1)) i j);
    try eassumption.
  apply location_groups_key; intros Hnil; rewrite Hnil in Hini; destruct Hini.
Qed.

Lemma backbone_loop_incl fuel stations :
  forall connected connections result,
  backbone_loop fuel stations connected connections = Ok result ->
  incl connections result.
Proof.
  induction fuel as [|fuel IH]; intros connected connections result;
    cbn [backbone_loop]; destruct (_ <? _)%nat.
  - discriminate.
  - intros [= <-]; apply incl_refl.
  - destruct (closest_pair stations connected) as [[d [s1 s2]]|]; [|discriminate].
    intros H; apply IH in H.
    eapply incl_tran; [apply incl_appl, incl_refl|exact H].
  - intros [= <-]; apply incl_refl.
Qed.

Lemma backbone_pass_incl stations connections result :
  backbone_pass stations connections = Ok result -> incl connections result.
Proof. apply backbone_loop_incl. Qed.

Lemma Mode_eqb_refl a : Mode_eqb a a = true.
Proof. destruct a; reflexivity. Qed.

(** C10: in [_generate_connections], every connection the
    local-walking pass appends has [walk_time] exactly 3.  It joins two
    stations of different modes at Manhattan distance 1 or 2: a pair at
    distance 0 already carries the transfer edge of the co-location
    pass and is skipped by the existence check, and
    [max(3, int(d * 100 / 60))] is 3 for [d] = 1 and [d] = 2. *)
Theorem local_walking_edges_take_3 stations store connections0 connections1 :
  transfer_pass stations = (store, connections0) ->
  backbone_pass store connections0 = Ok connections1 ->
  exists added,
    walking_pass store connections1 = connections1 ++ added
    /\ forall c, In c added ->
         Connection.walk_time c = 3
         /\ exists s1 s2,
              In s1 store /\ In s2 store
              /\ Connection.from c = Station.id s1
              /\ Connection.to c = Station.id s2
              /\ Station.station_type s1 <> Station.station_type s2
              /\ 1 <= station_distance s1 s2 <= 2.
Proof.
  intros Htransfer Hbackbone.
  destruct (walking_outer store connections1) as (added & Hrun & Horigin).
  exists added; split; [exact Hrun|].
  intros c Hc; destruct (Horigin c Hc) as (s1 & s2 & Hs1 & Hs2 & Ht & Hd & He & ->).
  assert (Hpos : 1 <= station_distance s1 s2).
  { pose proof (station_distance_nonneg s1 s2) as Hnn.
    destruct (Z.eq_dec (station_distance s1 s2) 0) as [H0|]; [exfalso|lia].
    apply station_distance_0 in H0.
    assert (Hstore : store = fst (transfer_pass stations)) by now rewrite Htransfer.
    apply In_nth_error in Hs1 as (i & Hi); apply In_nth_error in Hs2 as (j & Hj).
    rewrite Hstore, nth_error_transfer_pass in Hi, Hj.
    destruct (nth_error stations i) as [o1|] eqn:Hi0; [|discriminate].
    destruct (nth_error stations j) as [o2|] eqn:Hj0; [|discriminate].
    cbn in Hi, Hj; injection Hi as <-; injection Hj as <-.
    rewrite !mark_if_type in Ht; rewrite !mark_if_loc in H0.
    rewrite !mark_if_id in He.
    assert (Hne : i <> j).
    { intros ->; rewrite Hi0 in Hj0; injection Hj0 as <-.
      now rewrite Mode_eqb_refl in Ht. }
    pose proof (transfer_pass_joins stations i j o1 o2 Hne Hi0 Hj0 H0 Ht) as Hjoin.
    rewrite Htransfer in Hjoin; cbn [snd] in Hjoin.
    eapply connection_exists_incl in Hjoin;
      [|eapply backbone_pass_incl; eassumption].
    congruence. }
  cbn [Connection.walk_time Connection.from Connection.to].
  split; [apply local_walk_time_near; lia|].
  exists s1, s2; repeat split; try assumption.
  intros Heq; rewrite Heq, Mode_eqb_refl in Ht; discriminate.
Qed.

(** Three stations on a line: a metro and a tram station sharing a
    cell, and a bus station next to them. *)
Definition three_stations : list Station.t :=
  [Station.mk "station_0" 0 0 Metro false;
   Station.mk "station_1" 0 0 Tram false;
   Station.mk "station_2" 0 1 Bus false].

Lemma local_walking_edges_take_3_witness :
  exists added,
    walking_pass (fst (transfer_pass three_stations))
      [Connection.mk "station_0" "station_1" 2;
       Connection.mk "station_0" "station_1" 0;
       Connection.mk "station_0" "station_2" 120]
    = [Connection.mk "station_0" "station_1" 2;
       Connection.mk "station_0" "station_1" 0;
       Connection.mk "station_0" "station_2" 120] ++ added
    /\ forall c, In c added ->
         Connection.walk_time c = 3
         /\ exists s1 s2,
              In s1 (fst (transfer_pass three_stations))
              /\ In s2 (fst (transfer_pass three_stations))
              /\ Connection.from c = Station.id s1
              /\ Connection.to c = Station.id s2
              /\ Station.station_type s1 <> Station.station_type s2
              /\ 1 <= station_distance s1 s2 <= 2.
Proof.
  apply (local_walking_edges_take_3 three_stations
           (fst (transfer_pass three_stations))
           (snd (transfer_pass three_stations))).
  - vm_compute; reflexivity.
  - vm_compute; reflexivity.
Defined.

(** ** Nearest-neighbour ordering: [_order_stations_by_distance] *)

Lemma Station_eqb_eq a b : Station.eqb a b = true <-> a = b.
Proof.
  unfold Station.eqb; destruct a as [i1 x1 y1 t1 f1], b as [i2 x2 y2 t2 f2]; cbn.
  rewrite !andb_true_iff, String.eqb_eq, !Z.eqb_eq, Mode_eqb_eq, Bool.eqb_true_iff.
  split; [intros [[[[-> ->] ->] ->] ->]; reflexivity|intros [= -> -> -> -> ->]; auto].
Qed.

Lemma Station_eqb_refl a : Station.eqb a a = true.
Proof. now apply Station_eqb_eq. Qed.

Lemma min_by_fold {A} (key : A -> Z) others :
  forall best,
  let m := fold_left (fun best a => if key a <? key best then a else best) others best in
  (m = best \/ In m others) /\ key m <= key best
  /\ forall a, In a others -> key m <= key a.
Proof.
  induction others as [|a others IH]; intros best; cbn [fold_left].
  - cbn; repeat split; [now left|lia|intros a []].
  - specialize (IH (if key a <? key best then a else best)).
    cbn zeta in IH; destruct IH as (Hin & Hle & Hmin).
    destruct (Z.ltb_spec (key a) (key best)) as [Hlt|Hge]; cbn zeta;
      (split; [|split]).
    + destruct Hin as [->|Hin]; [right; now left|right; now right].
    + lia.
    + intros c [<-|Hc]; [lia|now apply Hmin].
    + destruct Hin as [->|Hin]; [now left|right; now right].
    + exact Hle.
    + intros c [<-|Hc]; [lia|now apply Hmin].
Qed.

Lemma min_by_spec {A} (key : A -> Z) first others :
  In (min_by key first others) (first :: others)
  /\ forall a, In a (first :: others) -> key (min_by key first others) <= key a.
Proof.
  unfold min_by; destruct (min_by_fold key others first) as (Hin & Hle & Hmin).
  split.
  - destruct Hin as [->|Hin]; [now left|now right].
  - intros a [<-|Ha]; [exact Hle|now apply Hmin].
Qed.

Lemma remove_first_perm a l :
  In a l -> Permutation l (a :: remove_first a l).
Proof.
  induction l as [|h t IH]; cbn; [intros []|].
  destruct (Station.eqb h a) eqn:E.
  - apply Station_eqb_eq in E; subst h; intros _; apply Permutation_refl.
  - intros [->|Hin]; [now rewrite Station_eqb_refl in E|].
    eapply perm_trans; [apply perm_skip, IH, Hin|apply perm_swap].
Qed.

(** A list in which every element is, among itself and the elements
    after it, one nearest to its predecessor; [current] precedes the
    first. *)
Fixpoint greedy_chain (current : Station.t) (tail : list Station.t) : Prop :=
  match tail with
  | [] => True
  | next :: later =>
      (forall r, In r (next :: later) ->
         station_distance current next <= station_distance current r)
      /\ greedy_chain next later
  end.

Lemma nearest_loop_spec fuel :
  forall prefix current remaining,
  (List.length remaining <= fuel)%nat ->
  exists tail,
    nearest_loop fuel (prefix ++ [current]) remaining = prefix ++ [current] ++ tail
    /\ Permutation remaining tail
    /\ greedy_chain current tail.
Proof.
  induction fuel as [|fuel IH]; intros prefix current remaining Hfuel.
  - destruct remaining; [|cbn in Hfuel; lia].
    exists []; cbn; repeat split; constructor.
  - destruct remaining as [|r0 rs].
    + exists []; cbn; repeat split; constructor.
    + cbn [nearest_loop]; rewrite last_last.
      set (nearest := min_by (station_distance current) r0 rs).
      destruct (min_by_spec (station_distance current) r0 rs) as (Hin & Hmin).
      fold nearest in Hin, Hmin.
      pose proof (remove_first_perm nearest (r0 :: rs) Hin) as Hperm.
      destruct (IH (prefix ++ [current]) nearest (remove_first nearest (r0 :: rs)))
        as (tail & Hrun & Hperm' & Hchain).
      { apply Permutation_length in Hperm; cbn [List.length] in *; lia. }
      exists (nearest :: tail); split; [|split].
      * rewrite Hrun, <- !app_assoc; reflexivity.
      * eapply perm_trans; [exact Hperm|apply perm_skip, Hperm'].
      * cbn [greedy_chain]; split; [|exact Hchain].
        intros r Hr; apply Hmin.
        eapply Permutation_in; [apply Permutation_sym, Hperm|].
        destruct Hr as [<-|Hr]; [now left|right].
        eapply Permutation_in; [apply Permutation_sym, Hperm'|exact Hr].
Qed.

(** The shape of the nearest-neighbour order, for the route lemmas. *)
Lemma order_stations_shape stations :
  if (List.length stations <=? 2)%nat
  then _order_stations_by_distance stations = stations
  else exists first tail,
         _order_stations_by_distance stations = first :: tail
         /\ In first stations
         /\ (forall s, In s stations -> Station.x first <= Station.x s)
         /\ Permutation
              (filter (fun s => negb (Station.eqb s first)) stations) tail
         /\ greedy_chain first tail.
Proof.
  unfold _order_stations_by_distance.
  destruct (List.length stations <=? 2)%nat eqn:Hlen; [reflexivity|].
  destruct stations as [|s0 rest]; [discriminate|].
  set (first := min_by Station.x s0 rest).
  destruct (min_by_spec Station.x s0 rest) as (Hin & Hmin); fold first in Hin, Hmin.
  set (remaining := filter (fun s => negb (Station.eqb s first)) (s0 :: rest)).
  destruct (nearest_loop_spec (List.length remaining) [] first remaining (le_n _))
    as (tail & Hrun & Hperm & Hchain).
  exists first, tail; repeat split; assumption.
Qed.

(** C7 (amended): a list of one or two stations is returned as it is,
    whatever the coordinates.  For three stations or more the returned
    order starts with a leftmost station (one of minimum [x]); the
    stations after it are the stations of the input that differ from
    it, and each of them is, among the stations not yet appended, one
    of minimum Manhattan distance to the station appended before it. *)
Theorem order_stations_by_distance_spec stations :
  if (List.length stations <=? 2)%nat
  then _order_stations_by_distance stations = stations
  else exists first tail,
         _order_stations_by_distance stations = first :: tail
         /\ In first stations
         /\ (forall s, In s stations -> Station.x first <= Station.x s)
         /\ Permutation
              (filter (fun s => negb (Station.eqb s first)) stations) tail
         /\ greedy_chain first tail.
Proof.
  unfold _order_stations_by_distance.
  destruct (List.length stations <=? 2)%nat eqn:Hlen; [reflexivity|].
  destruct stations as [|s0 rest]; [discriminate|].
  set (first := min_by Station.x s0 rest).
  destruct (min_by_spec Station.x s0 rest) as (Hin & Hmin); fold first in Hin, Hmin.
  set (remaining := filter (fun s => negb (Station.eqb s first)) (s0 :: rest)).
  destruct (nearest_loop_spec (List.length remaining) [] first remaining (le_n _))
    as (tail & Hrun & Hperm & Hchain).
  exists first, tail; repeat split; assumption.
Qed.

(** C7 (counterexample): two stations given with the eastern one
    first come back in that order, so the first station of the
    returned order is not a leftmost one. *)
Lemma order_of_two_stations_is_unchanged :
  _order_stations_by_distance
    [Station.mk "station_0" 5 0 Metro false; Station.mk "station_1" 1 0 Metro false]
  = [Station.mk "station_0" 5 0 Metro false; Station.mk "station_1" 1 0 Metro false]
  /\ Station.x (Station.mk "station_1" 1 0 Metro false)
     < Station.x (Station.mk "station_0" 5 0 Metro false).
Proof. split; [reflexivity|cbn; lia]. Qed.

(** ** Routes *)

Lemma fold_left_invariant_in {A St} (P : St -> Prop) (f : St -> A -> St) (l : list A) :
  (forall s a, In a l -> P s -> P (f s a)) -> forall s, P s -> P (fold_left f l s).
Proof.
  induction l as [|a l IH]; intros Hf s Hs; cbn; [assumption|].
  apply IH; [intros s' a' Ha'; apply Hf; now right|apply Hf; [now left|assumption]].
Qed.

Lemma order_stations_incl stations :
  incl (_order_stations_by_distance stations) stations.
Proof.
  pose proof (order_stations_shape stations) as H.
  destruct (List.length stations <=? 2)%nat; [rewrite H; apply incl_refl|].
  destruct H as (first & tail & -> & Hin & _ & Hperm & _).
  intros s [<-|Hs]; [assumption|].
  eapply Permutation_in in Hs; [|apply Permutation_sym, Hperm].
  now apply filter_In in Hs.
Qed.

Lemma insert_by_In {A} (key : A -> Z) a l x :
  In x (insert_by key a l) <-> x = a \/ In x l.
Proof.
  induction l as [|h t IH]; cbn; [intuition congruence|].
  destruct (key a <=? key h); cbn; [intuition congruence|].
  rewrite IH; intuition congruence.
Qed.

Lemma sorted_by_incl {A} (key : A -> Z) l : incl (sorted_by key l) l.
Proof.
  unfold sorted_by; induction l as [|h t IH]; cbn; [apply incl_refl|].
  intros x Hx; apply insert_by_In in Hx as [->|Hx]; [now left|right; now apply IH].
Qed.

Lemma every_other_incl {A} (l : list A) : incl (every_other l) l.
Proof.
  assert (H : forall n l, (List.length l <= n)%nat -> incl (@every_other A l) l).
  { induction n as [|n IH]; intros [|a [|b t]] Hn; cbn in *;
      try apply incl_refl; try lia.
    intros x [<-|Hx]; [now left|right; right].
    apply IH in Hx; [assumption|lia]. }
  apply (H (List.length l)), le_n.
Qed.

Lemma every_other_from_1_incl {A} (l : list A) : incl (every_other_from_1 l) l.
Proof.
  unfold every_other_from_1; destruct l as [|a t]; cbn [tl]; [apply incl_refl|].
  apply incl_tl, every_other_incl.
Qed.

Lemma firstn_incl {A} n (l : list A) : incl (firstn n l) l.
Proof.
  intros x Hx; rewrite <- (firstn_skipn n l); apply in_or_app; now left.
Qed.

Lemma skipn_incl {A} n (l : list A) : incl (skipn n l) l.
Proof.
  intros x Hx; rewrite <- (firstn_skipn n l); apply in_or_app; now right.
Qed.

Lemma slice_incl {A} (l : list A) a b : incl (slice l a b) l.
Proof.
  unfold slice; eapply incl_tran; [apply skipn_incl|apply firstn_incl].
Qed.

Definition routes_within (stations : list Station.t)
    (routes : list (list Station.t)) : Prop :=
  Forall (fun route => incl route stations) routes.

Lemma keep_if_route_within stations candidate routes :
  incl candidate stations -> routes_within stations routes ->
  routes_within stations (keep_if_route candidate routes).
Proof.
  intros Hc Hr; unfold keep_if_route; destruct (2 <=? _)%nat; [|assumption].
  apply Forall_app; split; [assumption|repeat constructor; assumption].
Qed.

Lemma create_axial_routes_within stations :
  routes_within stations (_create_axial_routes stations).
Proof.
  unfold _create_axial_routes; destruct (_ <? 3)%nat.
  - repeat constructor; apply order_stations_incl.
  - apply keep_if_route_within.
    + eapply incl_tran; [apply every_other_from_1_incl|apply sorted_by_incl].
    + apply keep_if_route_within; [|constructor].
      eapply incl_tran; [apply every_other_incl|apply sorted_by_incl].
Qed.

Lemma create_linear_routes_within stations :
  routes_within stations (_create_linear_routes stations).
Proof.
  unfold _create_linear_routes; destruct (_ <? 2)%nat; [constructor|].
  apply fold_left_invariant; [|constructor].
  intros routes i Hr; destruct (2 <=? _)%nat; [|assumption].
  apply Forall_app; split; [assumption|repeat constructor].
  eapply incl_tran; [apply order_stations_incl|apply slice_incl].
Qed.

Lemma create_connecting_routes_within stations :
  routes_within stations (_create_connecting_routes stations).
Proof.
  unfold _create_connecting_routes; destruct (_ <? 2)%nat; [constructor|].
  apply fold_left_invariant; [|constructor].
  intros routes i Hr; destruct (2 <=? _)%nat; [|assumption].
  apply Forall_app; split; [assumption|repeat constructor].
  eapply incl_tran; [apply order_stations_incl|apply slice_incl].
Qed.

Lemma create_realistic_routes_within stations mode :
  routes_within stations (_create_realistic_routes stations mode).
Proof.
  unfold _create_realistic_routes; destruct (_ <? 2)%nat; [constructor|].
  destruct mode;
    [apply create_connecting_routes_within|apply create_linear_routes_within
    |apply create_axial_routes_within].
Qed.

(** The groups of [stations_by_type] hold stations of the list, each
    under its own mode. *)
Definition by_type_ok (stations : list Station.t)
    (groups : list (Mode * list Station.t)) : Prop :=
  Forall
    (fun entry =>
       forall s, In s (snd entry) ->
         In s stations /\ Station.station_type s = fst entry)
    groups.

Lemma by_type_append_ok stations s groups :
  In s stations -> by_type_ok stations groups ->
  by_type_ok stations (by_type_append s groups).
Proof.
  unfold by_type_ok; intros Hs.
  induction 1 as [|[m g] rest Hhead Hrest IH]; cbn [by_type_append].
  - constructor; [|constructor]; cbn; intros s' [<-|[]]; auto.
  - destruct (Mode_eqb m (Station.station_type s)) eqn:E.
    + apply Mode_eqb_eq in E; constructor; [|assumption].
      cbn in *; intros s' Hs'; apply in_app_or in Hs' as [Hs'|[<-|[]]]; auto.
    + constructor; assumption.
Qed.

Lemma stations_by_type_ok stations : by_type_ok stations (stations_by_type stations).
Proof.
  unfold stations_by_type.
  apply (fold_left_invariant_in (by_type_ok stations)); [|constructor].
  intros groups s Hs Hg; now apply by_type_append_ok.
Qed.

(** A route whose station ids name stations of the list, all of the
    route's mode, and which has at least two of them. *)
Definition valid_route (stations : list Station.t) (r : Route.t) : Prop :=
  (2 <= List.length (Route.stations r))%nat
  /\ forall i, In i (Route.stations r) ->
       exists s, In s stations /\ Station.id s = i
                 /\ Station.station_type s = Route.mode r.

Lemma add_route_valid stations mode st entry :
  (forall s, In s (snd entry) -> In s stations /\ Station.station_type s = mode) ->
  Forall (valid_route stations) (fst st) ->
  Forall (valid_route stations) (fst (add_route mode st entry)).
Proof.
  intros He Hst; unfold add_route; destruct entry as [i route_stations].
  destruct (Nat.leb_spec 2 (List.length route_stations)); [|assumption].
  cbn [fst]; apply Forall_app; split; [assumption|].
  constructor; [|constructor]; split.
  - cbn; now rewrite length_map.
  - cbn; intros k Hk; apply in_map_iff in Hk as (s & <- & Hs).
    exists s; destruct (He s Hs); auto.
Qed.

Lemma routes_of_mode_valid stations st entry :
  (forall s, In s (snd entry) ->
     In s stations /\ Station.station_type s = fst entry) ->
  Forall (valid_route stations) (fst st) ->
  Forall (valid_route stations) (fst (routes_of_mode st entry)).
Proof.
  intros He Hst; unfold routes_of_mode; destruct entry as [mode mode_stations].
  destruct (_ <? 2)%nat; [assumption|].
  apply (fold_left_invariant_in
           (fun st => Forall (valid_route stations) (fst st))); [|assumption].
  intros st' [i route_stations] Hin Hst'.
  apply add_route_valid; [|assumption].
  cbn [snd]; intros s Hs; apply He; cbn [snd fst].
  apply in_combine_r in Hin.
  pose proof (create_realistic_routes_within mode_stations mode) as Hw.
  unfold routes_within in Hw; rewrite Forall_forall in Hw.
  now apply (Hw route_stations Hin).
Qed.

Lemma generate_routes_valid stations :
  Forall (valid_route stations) (_generate_routes stations).
Proof.
  unfold _generate_routes.
  pose proof (stations_by_type_ok stations) as Hg.
  unfold by_type_ok in Hg; rewrite Forall_forall in Hg.
  apply (fold_left_invariant_in
           (fun st => Forall (valid_route stations) (fst st))); [|constructor].
  intros st entry Hin Hst; apply routes_of_mode_valid; [|assumption].
  now apply Hg.
Qed.

Lemma transfer_pass_ids stations :
  map Station.id (fst (transfer_pass stations)) = map Station.id stations.
Proof.
  apply nth_error_ext; intros n.
  rewrite !nth_error_map, nth_error_transfer_pass.
  destruct (nth_error stations n); cbn; [now rewrite mark_if_id|reflexivity].
Qed.

Lemma generated_city_ids b g m g' :
  generate_random_city b g = Ok (m, g') -> NoDup (map Station.id (stations m)).
Proof.
  intros Hrun.
  apply generate_random_city_inv in Hrun as (g1 & sts & g2 & Hsts & Hconn & _).
  apply generate_connections_stations in Hconn; rewrite Hconn, transfer_pass_ids.
  eapply generated_station_ids, Hsts.
Qed.

Lemma NoDup_map_inj {A B} (f : A -> B) l a b :
  NoDup (map f l) -> In a l -> In b l -> f a = f b -> a = b.
Proof.
  induction l as [|h t IH]; cbn; [intros _ []|].
  intros Hnd Ha Hb Heq; inversion Hnd as [|? ? Hnotin Hnd']; subst.
  destruct Ha as [->|Ha], Hb as [->|Hb]; auto.
  - exfalso; apply Hnotin; rewrite Heq; now apply in_map.
  - exfalso; apply Hnotin; rewrite <- Heq; now apply in_map.
Qed.

(** C9: in every generated city, every route lists at least 2 station
    ids, every id listed is the id of a station of the city, and the
    station carrying that id (there is exactly one) has the route's
    mode. *)
Theorem generated_routes_valid b g m g' :
  generate_random_city b g = Ok (m, g') ->
  forall r, In r (routes m) ->
  (2 <= List.length (Route.stations r))%nat
  /\ forall i, In i (Route.stations r) ->
       (exists s, In s (stations m) /\ Station.id s = i)
       /\ forall s, In s (stations m) -> Station.id s = i ->
            Station.station_type s = Route.mode r.
Proof.
  intros Hrun r Hr.
  pose proof (generated_city_ids b g m g' Hrun) as Hnd.
  apply generate_random_city_inv in Hrun as (g1 & sts & g2 & _ & _ & Hroutes).
  rewrite Hroutes in Hr.
  pose proof (generate_routes_valid (stations m)) as Hvalid.
  rewrite Forall_forall in Hvalid; destruct (Hvalid r Hr) as (Hlen & Hids).
  split; [exact Hlen|].
  intros i Hi; destruct (Hids i Hi) as (s & Hs & Hid & Hmode).
  split; [eauto|].
  intros s' Hs' Hid'.
  replace s' with s; [exact Hmode|].
  eapply NoDup_map_inj; try eassumption; congruence.
Qed.

Lemma generated_routes_valid_witness :
  In (Route.mk "route_0" Metro ["station_0"; "station_2"] "#FF0000")%string
     (routes city_c)
  /\ (2 <= List.length ["station_0"; "station_2"]%string)%nat
  /\ forall i, In i ["station_0"; "station_2"]%string ->
       (exists s, In s (stations city_c) /\ Station.id s = i)
       /\ forall s, In s (stations city_c) -> Station.id s = i ->
            Station.station_type s = Metro.
Proof.
  assert (Hin : In (Route.mk "route_0" Metro ["station_0"; "station_2"] "#FF0000")%string
                   (routes city_c))
    by (vm_compute; left; reflexivity).
  split; [exact Hin|].
  apply (generated_routes_valid (CityBuilder_init 4) tape_c city_c tape_c_after
           run_c_ok _ Hin).
Defined.

(** ** Reachability in the connection graph *)

(** Two ids are adjacent when some record joins them, in either
    direction: the test the code itself uses for an existing edge. *)
Definition adjacent (connections : list Connection.t) (a b : string) : Prop :=
  connection_exists connections a b = true.

Inductive reachable (connections : list Connection.t) : string -> string -> Prop :=
| reachable_refl a : reachable connections a a
| reachable_step a b c :
    reachable connections a b -> adjacent connections b c ->
    reachable connections a c.

Lemma adjacent_sym connections a b :
  adjacent connections a b -> adjacent connections b a.
Proof.
  unfold adjacent, connection_exists; rewrite !existsb_exists.
  intros (c & Hc & Hb); exists c; split; [exact Hc|].
  now rewrite orb_comm.
Qed.

Lemma reachable_trans connections a b c :
  reachable connections a b -> reachable connections b c ->
  reachable connections a c.
Proof.
  intros Hab Hbc; induction Hbc as [|b c d Hbc IH Hcd]; [assumption|].
  eapply reachable_step; [apply IH, Hab|exact Hcd].
Qed.

Lemma reachable_sym connections a b :
  reachable connections a b -> reachable connections b a.
Proof.
  induction 1 as [|a b c Hab IH Hbc]; [constructor|].
  eapply reachable_trans; [|exact IH].
  eapply reachable_step; [constructor|apply adjacent_sym, Hbc].
Qed.

Lemma reachable_incl l1 l2 a b :
  incl l1 l2 -> reachable l1 a b -> reachable l2 a b.
Proof.
  intros Hincl; induction 1 as [|a b c Hab IH Hbc]; [constructor|].
  eapply reachable_step; [exact IH|].
  eapply connection_exists_incl; eassumption.
Qed.

(** Every endpoint of a record is a known id. *)
Definition endpoints_in (ids : list string) (connections : list Connection.t) : Prop :=
  forall c, In c connections ->
    In (Connection.from c) ids /\ In (Connection.to c) ids.

Lemma adjacent_endpoints ids connections a b :
  endpoints_in ids connections -> adjacent connections a b ->
  In a ids /\ In b ids.
Proof.
  unfold adjacent, connection_exists; intros He H.
  apply existsb_exists in H as (c & Hc & Hb); destruct (He c Hc) as [Hf Ht].
  apply orb_true_iff in Hb as [Hb|Hb]; apply andb_true_iff in Hb as [H1 H2];
    apply String.eqb_eq in H1, H2; subst; auto.
Qed.

Lemma reachable_endpoints ids connections a b :
  endpoints_in ids connections -> In a ids -> reachable connections a b ->
  In b ids.
Proof.
  intros He Ha; induction 1 as [|a b c Hab IH Hbc]; [assumption|].
  eapply adjacent_endpoints; eassumption.
Qed.

(** ** The adjacency dictionary *)

Lemma mem_In a l : mem a l = true <-> In a l.
Proof.
  unfold mem; rewrite existsb_exists; split.
  - intros (x & Hx & He); apply String.eqb_eq in He; now subst.
  - intros H; exists a; split; [exact H|apply String.eqb_refl].
Qed.

Lemma mem_not_In a l : mem a l = false <-> ~ In a l.
Proof.
  rewrite <- mem_In; destruct (mem a l); split; congruence.
Qed.

Lemma set_add_In b s y : In y (set_add b s) <-> In y s \/ y = b.
Proof.
  unfold set_add; destruct (mem b s) eqn:E.
  - apply mem_In in E; split; [auto|intros [H| ->]; assumption].
  - rewrite in_app_iff; cbn; intuition congruence.
Qed.

Lemma set_add_NoDup b s : NoDup s -> NoDup (set_add b s).
Proof.
  intros H; unfold set_add; destruct (mem b s) eqn:E; [assumption|].
  apply mem_not_In in E.
  apply NoDup_app; [assumption|repeat constructor; intros []|].
  intros x Hx [<-|[]]; contradiction.
Qed.

Lemma neighbours_graph_add graph a b x y :
  In y (neighbours (graph_add graph a b) x)
  <-> In y (neighbours graph x) \/ (x = a /\ y = b).
Proof.
  induction graph as [|[k s] rest IH]; cbn.
  - destruct (String.eqb_spec a x) as [->|Hne]; cbn; intuition congruence.
  - destruct (String.eqb_spec k a) as [->|Hka]; cbn.
    + destruct (String.eqb_spec a x) as [->|Hax].
      * rewrite set_add_In; intuition congruence.
      * intuition congruence.
    + destruct (String.eqb_spec k x) as [->|Hkx]; [intuition congruence|].
      exact IH.
Qed.

Definition graph_step (graph : Graph) (conn : Connection.t) : Graph :=
  graph_add (graph_add graph (Connection.from conn) (Connection.to conn))
    (Connection.to conn) (Connection.from conn).

Lemma neighbours_fold connections :
  forall graph x y,
  In y (neighbours (fold_left graph_step connections graph) x)
  <-> In y (neighbours graph x) \/ adjacent connections x y.
Proof.
  unfold adjacent.
  induction connections as [|c connections IH]; intros graph x y; cbn [fold_left].
  - cbn; intuition discriminate.
  - rewrite IH; unfold graph_step; rewrite !neighbours_graph_add.
    cbn [connection_exists existsb].
    rewrite orb_true_iff, orb_true_iff, !andb_true_iff, !String.eqb_eq.
    intuition congruence.
Qed.

Lemma neighbours_build_graph connections x y :
  In y (neighbours (build_graph connections) x) <-> adjacent connections x y.
Proof.
  unfold build_graph; change (fold_left _ connections [])
    with (fold_left graph_step connections []).
  rewrite neighbours_fold; cbn; intuition.
Qed.

Lemma neighbours_key graph x y :
  In y (neighbours graph x) -> In x (map fst graph).
Proof.
  induction graph as [|[k s] rest IH]; cbn; [intros []|].
  destruct (String.eqb_spec k x) as [->|Hne]; [now left|right; now apply IH].
Qed.

Lemma neighbours_are_keys connections x y :
  In y (neighbours (build_graph connections) x) ->
  In y (map fst (build_graph connections)).
Proof.
  intros H; apply neighbours_build_graph, adjacent_sym in H.
  apply neighbours_build_graph in H; eapply neighbours_key, H.
Qed.

(** ** Breadth-first search *)

Lemma visit_fold nbrs :
  forall visited queue,
  exists new,
    fold_left visit nbrs (visited, queue) = (visited ++ new, queue ++ new)
    /\ incl new nbrs
    /\ (forall w, In w nbrs -> In w (visited ++ new))
    /\ (NoDup visited -> NoDup (visited ++ new)).
Proof.
  induction nbrs as [|n nbrs IH]; intros visited queue; cbn [fold_left].
  - exists []; rewrite !app_nil_r; repeat split; auto using incl_refl.
    intros w [].
  - unfold visit at 2; cbn [fst snd].
    destruct (mem n visited) eqn:E.
    + destruct (IH visited queue) as (new & Hrun & Hincl & Hcover & Hnd).
      exists new; repeat split; auto using incl_tl.
      intros w [<-|Hw]; [apply in_or_app; left; now apply mem_In|now apply Hcover].
    + destruct (IH (visited ++ [n]) (queue ++ [n]))
        as (new & Hrun & Hincl & Hcover & Hnd).
      exists (n :: new); rewrite Hrun, <- !app_assoc; cbn [app].
      split; [reflexivity|split; [|split]].
      * intros w [<-|Hw]; [now left|right; now apply Hincl].
      * intros w [<-|Hw].
        -- apply in_or_app; right; now left.
        -- specialize (Hcover w Hw); now rewrite <- app_assoc in Hcover.
      * intros Hv.
        replace (visited ++ n :: new) with ((visited ++ [n]) ++ new)
          by now rewrite <- app_assoc.
        apply Hnd, NoDup_app; [assumption|repeat constructor; intros []|].
        apply mem_not_In in E; intros x Hx [<-|[]]; contradiction.
Qed.

(** What the search loop maintains, for the graph of [connections] and
    a search started at [start]. *)
Record bfs_inv (connections : list Connection.t) (start : string)
    (visited queue : list string) : Prop := {
  bfs_nodup : NoDup visited;
  bfs_queue : incl queue visited;
  bfs_start : In start visited;
  bfs_sound : forall v, In v visited -> reachable connections start v;
  bfs_closed :
    forall v, In v visited ->
      In v queue \/ forall w, adjacent connections v w -> In w visited;
  bfs_keys : incl visited (start :: map fst (build_graph connections))
}.

Lemma bfs_inv_step connections start visited current queue new :
  bfs_inv connections start visited (current :: queue) ->
  incl new (neighbours (build_graph connections) current) ->
  (forall w, In w (neighbours (build_graph connections) current) ->
     In w (visited ++ new)) ->
  NoDup (visited ++ new) ->
  bfs_inv connections start (visited ++ new) (queue ++ new).
Proof.
  intros [Hnd Hq Hs Hsound Hclosed Hkeys] Hincl Hcover Hnd'.
  assert (Hcur : In current visited) by (apply Hq; now left).
  constructor.
  - exact Hnd'.
  - intros x Hx; apply in_app_or in Hx as [Hx|Hx]; apply in_or_app;
      [left; apply Hq; now right|now right].
  - apply in_or_app; now left.
  - intros v Hv; apply in_app_or in Hv as [Hv|Hv]; [now apply Hsound|].
    eapply reachable_step; [apply Hsound, Hcur|].
    apply neighbours_build_graph, Hincl, Hv.
  - intros v Hv; apply in_app_or in Hv as [Hv|Hv].
    + destruct (Hclosed v Hv) as [[<-|Hin]|Hall].
      * right; intros w Hw; apply Hcover, neighbours_build_graph, Hw.
      * left; apply in_or_app; now left.
      * right; intros w Hw; apply in_or_app; left; now apply Hall.
    + left; apply in_or_app; now right.
  - intros x Hx; apply in_app_or in Hx as [Hx|Hx]; [now apply Hkeys|].
    right; eapply neighbours_are_keys, Hincl, Hx.
Qed.

Lemma reachable_closed connections (P : string -> Prop) a v :
  P a -> (forall b c, P b -> adjacent connections b c -> P c) ->
  reachable connections a v -> P v.
Proof.
  intros Ha Hstep Hr; induction Hr; eauto.
Qed.

Lemma bfs_loop_done connections start visited :
  bfs_inv connections start visited [] ->
  forall v, In v visited <-> reachable connections start v.
Proof.
  intros Hinv v; split; [apply (bfs_sound _ _ _ _ Hinv)|].
  apply (reachable_closed connections (fun x => In x visited));
    [apply (bfs_start _ _ _ _ Hinv)|].
  intros b c Hb Hbc.
  destruct (bfs_closed _ _ _ _ Hinv b Hb) as [[]|Hall]; now apply Hall.
Qed.

Lemma bfs_loop_correct connections start fuel :
  forall visited queue,
  bfs_inv connections start visited queue ->
  (List.length queue + S (List.length (build_graph connections))
   <= fuel + List.length visited)%nat ->
  exists final,
    bfs_loop fuel (build_graph connections) visited queue = Ok final
    /\ NoDup final
    /\ forall v, In v final <-> reachable connections start v.
Proof.
  induction fuel as [|fuel IH]; intros visited queue Hinv Hfuel.
  - assert (Hlen : (List.length visited
                    <= S (List.length (build_graph connections)))%nat).
    { rewrite <- (length_map fst (build_graph connections)).
      apply (NoDup_incl_length (bfs_nodup _ _ _ _ Hinv) (bfs_keys _ _ _ _ Hinv)). }
    destruct queue as [|current queue]; [|cbn [List.length] in Hfuel; lia].
    exists visited; cbn; split; [reflexivity|split].
    + apply (bfs_nodup _ _ _ _ Hinv).
    + now apply bfs_loop_done.
  - destruct queue as [|current queue].
    + exists visited; cbn; split; [reflexivity|split].
      * apply (bfs_nodup _ _ _ _ Hinv).
      * now apply bfs_loop_done.
    + cbn [bfs_loop].
      destruct (visit_fold (neighbours (build_graph connections) current)
                  visited queue) as (new & Hrun & Hincl & Hcover & Hnd).
      rewrite Hrun; cbn [fst snd].
      apply IH.
      * eapply bfs_inv_step; try eassumption.
        apply Hnd, (bfs_nodup _ _ _ _ Hinv).
      * rewrite !length_app; cbn [List.length] in Hfuel; lia.
Qed.

Lemma bfs_correct connections start :
  exists visited,
    bfs (build_graph connections) start = Ok visited
    /\ NoDup visited
    /\ forall v, In v visited <-> reachable connections start v.
Proof.
  unfold bfs; apply bfs_loop_correct; [|cbn; lia].
  constructor.
  - repeat constructor; intros [].
  - apply incl_refl.
  - now left.
  - intros v [<-|[]]; constructor.
  - intros v [<-|[]]; left; now left.
  - intros v [<-|[]]; now left.
Qed.

(** ** The spanning backbone *)

(** A pair the backbone scan may pick: a station already connected and
    one that is not. *)
Definition candidate (stations : list Station.t) (connected : list string)
    (s1 s2 : Station.t) : Prop :=
  In s1 stations /\ In s2 stations
  /\ mem (Station.id s1) connected = true
  /\ mem (Station.id s2) connected = false.

Definition best_ok (stations : list Station.t) (connected : list string)
    (best : Best) : Prop :=
  match best with
  | None => True
  | Some (d, (s1, s2)) =>
      candidate stations connected s1 s2 /\ d = station_distance s1 s2
  end.

Lemma closer_ok stations connected best s1 s2 :
  candidate stations connected s1 s2 -> best_ok stations connected best ->
  best_ok stations connected (closer best s1 s2).
Proof.
  intros Hc Hb; unfold closer; destruct best as [[d [a b0]]|].
  - destruct (_ <? d); [split; [exact Hc|reflexivity]|exact Hb].
  - split; [exact Hc|reflexivity].
Qed.

Lemma closer_some best s1 s2 : closer best s1 s2 <> None.
Proof.
  unfold closer; destruct best as [[d [a b0]]|]; [|discriminate].
  destruct (_ <? d); discriminate.
Qed.

Definition scan_inner (connected : list string) (s1 : Station.t)
    (best : Best) (s2 : Station.t) : Best :=
  if negb (mem (Station.id s2) connected) then closer best s1 s2 else best.

Definition scan_outer (stations : list Station.t) (connected : list string)
    (best : Best) (s1 : Station.t) : Best :=
  if mem (Station.id s1) connected
  then fold_left (scan_inner connected s1) stations best
  else best.

Lemma closest_pair_fold stations connected :
  closest_pair stations connected
  = fold_left (scan_outer stations connected) stations None.
Proof. reflexivity. Qed.

Lemma scan_inner_fold stations connected s1 l :
  In s1 stations -> mem (Station.id s1) connected = true -> incl l stations ->
  forall best,
  best_ok stations connected best ->
  best_ok stations connected (fold_left (scan_inner connected s1) l best)
  /\ (best <> None \/ (exists s2, In s2 l /\ mem (Station.id s2) connected = false) ->
      fold_left (scan_inner connected s1) l best <> None).
Proof.
  intros Hs1 Hm1; induction l as [|s2 l IH]; intros Hincl best Hbest; cbn [fold_left].
  - split; [exact Hbest|intros [H|(s2 & [] & _)]; exact H].
  - assert (Hok : best_ok stations connected (scan_inner connected s1 best s2)).
    { unfold scan_inner; destruct (mem (Station.id s2) connected) eqn:E; cbn [negb];
        [exact Hbest|].
      apply closer_ok; [|exact Hbest].
      repeat split; try assumption; apply Hincl; now left. }
    destruct (IH (fun x Hx => Hincl x (or_intror Hx)) _ Hok) as [Hres Hsome].
    split; [exact Hres|].
    intros Hex; apply Hsome.
    unfold scan_inner at 1.
    destruct (mem (Station.id s2) connected) eqn:E; cbn [negb].
    + destruct Hex as [H|(s & [<-|Hs] & Hm)]; [now left|congruence|right; eauto].
    + left; apply closer_some.
Qed.

Lemma scan_outer_fold stations connected l :
  incl l stations ->
  forall best,
  best_ok stations connected best ->
  best_ok stations connected (fold_left (scan_outer stations connected) l best)
  /\ (best <> None
      \/ ((exists s1, In s1 l /\ mem (Station.id s1) connected = true)
          /\ exists s2, In s2 stations /\ mem (Station.id s2) connected = false) ->
      fold_left (scan_outer stations connected) l best <> None).
Proof.
  induction l as [|s1 l IH]; intros Hincl best Hbest; cbn [fold_left].
  - split; [exact Hbest|intros [H|[(s1 & [] & _) _]]; exact H].
  - assert (Hs1 : In s1 stations) by (apply Hincl; now left).
    assert (Hstep : best_ok stations connected (scan_outer stations connected best s1)
              /\ (best <> None
                  \/ (mem (Station.id s1) connected = true
                      /\ exists s2, In s2 stations
                                    /\ mem (Station.id s2) connected = false) ->
                  scan_outer stations connected best s1 <> None)).
    { unfold scan_outer; destruct (mem (Station.id s1) connected) eqn:E.
      - destruct (scan_inner_fold stations connected s1 stations Hs1 E
                    (incl_refl _) best Hbest) as [Hok Hsome].
        split; [exact Hok|].
        intros [H|[_ Hex]]; apply Hsome; [now left|now right].
      - split; [exact Hbest|intros [H|[H _]]; [exact H|discriminate]]. }
    destruct Hstep as [Hok Hsome].
    destruct (IH (fun x Hx => Hincl x (or_intror Hx)) _ Hok) as [Hres Hsome'].
    split; [exact Hres|].
    intros [H|[(s & [<-|Hs] & Hm) Hex]]; apply Hsome'.
    + left; apply Hsome; now left.
    + left; apply Hsome; right; split; assumption.
    + right; split; [eauto|exact Hex].
Qed.

Lemma closest_pair_spec stations connected :
  best_ok stations connected (closest_pair stations connected)
  /\ ((exists s1, In s1 stations /\ mem (Station.id s1) connected = true) ->
      (exists s2, In s2 stations /\ mem (Station.id s2) connected = false) ->
      closest_pair stations connected <> None).
Proof.
  rewrite closest_pair_fold.
  destruct (scan_outer_fold stations connected stations (incl_refl _) None I)
    as [Hok Hsome].
  split; [exact Hok|intros H1 H2; apply Hsome; right; split; assumption].
Qed.

Lemma exists_not_mem ids connected :
  NoDup ids -> (List.length connected < List.length ids)%nat ->
  exists x, In x ids /\ mem x connected = false.
Proof.
  intros Hnd Hlen.
  destruct (forallb (fun x => mem x connected) ids) eqn:E.
  - exfalso.
    assert (Hincl : incl ids connected).
    { intros x Hx; rewrite forallb_forall in E; apply mem_In, E, Hx. }
    pose proof (NoDup_incl_length Hnd Hincl); lia.
  - clear Hnd Hlen; induction ids as [|x ids IH]; cbn in E; [discriminate|].
    destruct (mem x connected) eqn:Ex; cbn in E.
    + destruct (IH E) as (y & Hy & Hm); exists y; split; [now right|exact Hm].
    + exists x; split; [now left|exact Ex].
Qed.

Lemma backbone_loop_spec stations start :
  NoDup (map Station.id stations) -> In start (map Station.id stations) ->
  forall fuel connected connections,
  NoDup connected -> incl connected (map Station.id stations) ->
  In start connected ->
  (forall a, In a connected -> reachable connections start a) ->
  endpoints_in (map Station.id stations) connections ->
  (List.length stations <= fuel + List.length connected)%nat ->
  exists result,
    backbone_loop fuel stations connected connections = Ok result
    /\ incl connections result
    /\ endpoints_in (map Station.id stations) result
    /\ forall s, In s stations -> reachable result start (Station.id s).
Proof.
  intros Hids Hstart.
  assert (Hfull : forall connected connections,
             NoDup connected ->
             incl connected (map Station.id stations) ->
             (forall a, In a connected -> reachable connections start a) ->
             (List.length stations <= List.length connected)%nat ->
             forall s, In s stations -> reachable connections start (Station.id s)).
  { intros connected connections Hnd Hincl Hreach Hge s Hs.
    apply Hreach.
    apply (@NoDup_length_incl _ connected (map Station.id stations) Hnd);
      [now rewrite length_map|exact Hincl|].
    now apply in_map. }
  induction fuel as [|fuel IH];
    intros connected connections Hnd Hincl Hin Hreach Hends Hfuel;
    cbn [backbone_loop];
    destruct (Nat.ltb_spec (List.length connected) (List.length stations))
      as [Hlt|Hge].
  - lia.
  - exists connections; split; [reflexivity|split; [apply incl_refl|split]];
      [exact Hends|].
    now apply (Hfull connected).
  - destruct (closest_pair_spec stations connected) as [Hok Hsome].
    destruct (closest_pair stations connected) as [[d [s1 s2]]|] eqn:Hcp.
    + destruct Hok as [(Hs1 & Hs2 & Hm1 & Hm2) ->].
      set (edge := Connection.mk (Station.id s1) (Station.id s2)
                     (station_distance s1 s2 * 120)).
      assert (Hedge : In edge (connections ++ [edge])).
      { apply in_or_app; right; now left. }
      destruct (IH (set_add (Station.id s2) connected) (connections ++ [edge]))
        as (result & Hrun & Hres & Hends' & Hall).
      * now apply set_add_NoDup.
      * intros x Hx; apply set_add_In in Hx as [Hx| ->];
          [now apply Hincl|now apply in_map].
      * apply set_add_In; now left.
      * intros a Ha; apply set_add_In in Ha as [Ha| ->].
        -- eapply reachable_incl; [apply incl_appl, incl_refl|now apply Hreach].
        -- eapply reachable_step.
           ++ eapply reachable_incl; [apply incl_appl, incl_refl|].
              apply Hreach, mem_In, Hm1.
           ++ exact (proj1 (connection_exists_In _ _ _ _ Hedge)).
      * intros c Hc; apply in_app_or in Hc as [Hc|[<-|[]]]; [now apply Hends|].
        cbn; split; now apply in_map.
      * unfold set_add; rewrite Hm2, length_app; cbn [List.length]; lia.
      * exists result; split; [exact Hrun|split; [|split; assumption]].
        eapply incl_tran; [apply incl_appl, incl_refl|exact Hres].
    + exfalso; apply Hsome; [| |reflexivity].
      * apply in_map_iff in Hstart as (s0 & <- & Hs0).
        exists s0; split; [exact Hs0|now apply mem_In].
      * destruct (exists_not_mem (map Station.id stations) connected Hids)
          as (x & Hx & Hm); [now rewrite length_map|].
        apply in_map_iff in Hx as (s2 & <- & Hs2); eauto.
  - exists connections; split; [reflexivity|split; [apply incl_refl|split]];
      [exact Hends|].
    now apply (Hfull connected).
Qed.

Lemma backbone_pass_connects s0 rest connections :
  NoDup (map Station.id (s0 :: rest)) ->
  endpoints_in (map Station.id (s0 :: rest)) connections ->
  exists result,
    backbone_pass (s0 :: rest) connections = Ok result
    /\ incl connections result
    /\ endpoints_in (map Station.id (s0 :: rest)) result
    /\ forall s, In s (s0 :: rest) ->
         reachable result (Station.id s0) (Station.id s).
Proof.
  intros Hids Hends; unfold backbone_pass.
  apply backbone_loop_spec; try assumption.
  - now left.
  - repeat constructor; intros [].
  - intros x [<-|[]]; now left.
  - now left.
  - intros a [<-|[]]; constructor.
  - cbn [set_add mem existsb app List.length]; lia.
Qed.

(** ** The connectivity check *)

Lemma station_ids_fold l :
  forall acc,
  NoDup acc ->
  NoDup (fold_left (fun ids s => set_add (Station.id s) ids) l acc)
  /\ forall x,
       In x (fold_left (fun ids s => set_add (Station.id s) ids) l acc)
       <-> In x acc \/ In x (map Station.id l).
Proof.
  induction l as [|s l IH]; intros acc Hnd; cbn [fold_left map].
  - split; [exact Hnd|intros x; cbn; tauto].
  - destruct (IH (set_add (Station.id s) acc) (set_add_NoDup _ _ Hnd)) as [H1 H2].
    split; [exact H1|].
    intros x; rewrite H2, set_add_In; cbn [In]; intuition congruence.
Qed.

Lemma station_ids_spec stations :
  NoDup (station_ids stations)
  /\ forall x, In x (station_ids stations) <-> In x (map Station.id stations).
Proof.
  destruct (station_ids_fold stations [] (NoDup_nil _)) as [H1 H2].
  split; [exact H1|].
  intros x; unfold station_ids; rewrite H2; cbn; tauto.
Qed.

(** With every endpoint a station id, the check answers whether
    every station can be reached from the first one. *)
Lemma verify_connectivity_reachable s0 rest connections :
  endpoints_in (map Station.id (s0 :: rest)) connections ->
  exists connected,
    _verify_connectivity (s0 :: rest) connections = Ok connected
    /\ (connected = true
        <-> forall s, In s (s0 :: rest) ->
              reachable connections (Station.id s0) (Station.id s)).
Proof.
  intros Hends; unfold _verify_connectivity.
  destruct (bfs_correct connections (Station.id s0)) as (visited & Hrun & Hnd & Hvis).
  rewrite Hrun; cbn [rbind].
  destruct (station_ids_spec (s0 :: rest)) as [Hnd' Hids].
  eexists; split; [reflexivity|].
  assert (Hsub : incl visited (station_ids (s0 :: rest))).
  { intros v Hv; apply Hids.
    eapply reachable_endpoints; [exact Hends|now left|apply Hvis, Hv]. }
  rewrite Nat.eqb_eq; split.
  - intros Hlen s Hs; apply Hvis.
    apply (@NoDup_length_incl _ visited (station_ids (s0 :: rest)) Hnd);
      [lia|exact Hsub|].
    apply Hids; now apply in_map.
  - intros Hall; apply Nat.le_antisymm; apply NoDup_incl_length; try assumption.
    intros x Hx; apply Hids in Hx; apply in_map_iff in Hx as (s & <- & Hs).
    apply Hvis, Hall, Hs.
Qed.

(** ** Where the edges of a city come from *)

(** [c] joins the stations [s1] and [s2] of the list, in this direction. *)
Definition joins (stations : list Station.t) (c : Connection.t)
    (s1 s2 : Station.t) : Prop :=
  In s1 stations /\ In s2 stations
  /\ Connection.from c = Station.id s1 /\ Connection.to c = Station.id s2.

(** An edge of the co-location pass: two stations of different modes
    on one cell, 2 minutes apart. *)
Definition is_transfer_edge (stations : list Station.t) (c : Connection.t) : Prop :=
  exists s1 s2,
    joins stations c s1 s2
    /\ Station.station_type s1 <> Station.station_type s2
    /\ station_distance s1 s2 = 0
    /\ Connection.walk_time c = 2.

(** An edge of the backbone pass: two distinct stations, 120 per grid
    unit between them. *)
Definition is_backbone_edge (stations : list Station.t) (c : Connection.t) : Prop :=
  exists s1 s2,
    joins stations c s1 s2
    /\ Station.id s1 <> Station.id s2
    /\ Connection.walk_time c = station_distance s1 s2 * 120.

(** An edge of the local-walking pass: two stations of different modes
    1 or 2 grid units apart, 3 minutes apart. *)
Definition is_walking_edge (stations : list Station.t) (c : Connection.t) : Prop :=
  exists s1 s2,
    joins stations c s1 s2
    /\ Station.station_type s1 <> Station.station_type s2
    /\ 1 <= station_distance s1 s2 <= 2
    /\ Connection.walk_time c = 3.

(** A store that differs from [stations] by transfer marks only. *)
Definition marked_copy (stations store : list Station.t) : Prop :=
  exists flags : nat -> bool,
    forall i, nth_error store i = option_map (mark_if (flags i)) (nth_error stations i).

Lemma marked_copy_refl stations : marked_copy stations stations.
Proof.
  exists (fun _ => false); intros i; now rewrite option_map_mark_false.
Qed.

Lemma marked_copy_mark_group stations store group :
  marked_copy stations store -> marked_copy stations (mark_group store group).
Proof.
  intros [flags H].
  exists (fun i => existsb (Nat.eqb i) group || flags i); intros i.
  rewrite nth_error_mark_group, H.
  destruct (nth_error stations i); cbn; [now rewrite mark_if_mark_if|reflexivity].
Qed.

Lemma marked_copy_transfer_pass stations :
  marked_copy stations (fst (transfer_pass stations)).
Proof.
  exists (in_marked_group (location_groups stations)).
  intros i; apply nth_error_transfer_pass.
Qed.

Lemma marked_copy_nth stations store i s :
  marked_copy stations store -> nth_error store i = Some s ->
  exists o, nth_error stations i = Some o
            /\ Station.id s = Station.id o
            /\ station_loc s = station_loc o
            /\ Station.station_type s = Station.station_type o.
Proof.
  intros [flags H] Hs; rewrite H in Hs.
  destruct (nth_error stations i) as [o|]; [|discriminate].
  cbn in Hs; injection Hs as <-; exists o.
  now rewrite mark_if_id, mark_if_loc, mark_if_type.
Qed.

Lemma marked_copy_In stations store o :
  marked_copy stations store -> In o stations ->
  exists s, In s store
            /\ Station.id s = Station.id o
            /\ station_loc s = station_loc o
            /\ Station.station_type s = Station.station_type o.
Proof.
  intros [flags H] Ho; apply In_nth_error in Ho as (i & Hi).
  exists (mark_if (flags i) o); split.
  - apply (nth_error_In _ i); now rewrite H, Hi.
  - now rewrite mark_if_id, mark_if_loc, mark_if_type.
Qed.

Lemma marked_copy_ids stations store :
  marked_copy stations store -> map Station.id store = map Station.id stations.
Proof.
  intros [flags H]; apply nth_error_ext; intros n.
  rewrite !nth_error_map, H.
  destruct (nth_error stations n); cbn; [now rewrite mark_if_id|reflexivity].
Qed.

(** The pair of original stations a transfer edge was made for. *)
Definition transfer_origin (stations : list Station.t) (c : Connection.t) : Prop :=
  exists o1 o2,
    In o1 stations /\ In o2 stations
    /\ station_loc o1 = station_loc o2
    /\ Mode_eqb (Station.station_type o1) (Station.station_type o2) = false
    /\ c = Connection.mk (Station.id o1) (Station.id o2) transfer_walk_time.

Lemma group_edge_fold_origin stations store loc i rest :
  marked_copy stations store ->
  (forall k, In k (i :: rest) ->
     exists o, nth_error stations k = Some o /\ station_loc o = loc) ->
  forall connections,
  exists added,
    fold_left (group_edge_step store i) rest connections = connections ++ added
    /\ Forall (transfer_origin stations) added.
Proof.
  intros Hcopy; induction rest as [|j rest IH]; intros Hloc connections;
    cbn [fold_left].
  - exists []; split; [now rewrite app_nil_r|constructor].
  - destruct (IH (fun k Hk => Hloc k ltac:(cbn in *; tauto))
                (group_edge_step store i connections j)) as (added & Hrun & Hadded).
    unfold group_edge_step in *.
    destruct (nth_error store i) as [s1|] eqn:Hi;
      [destruct (nth_error store j) as [s2|] eqn:Hj;
       [destruct (Mode_eqb (Station.station_type s1) (Station.station_type s2)) eqn:Ht|]
      |]; cbn [negb] in *.
    2: { eexists (_ :: added); split; [rewrite Hrun, <- app_assoc; reflexivity|].
         constructor; [|exact Hadded].
         destruct (marked_copy_nth _ _ _ _ Hcopy Hi) as (o1 & Ho1 & Hid1 & _ & Ht1).
         destruct (marked_copy_nth _ _ _ _ Hcopy Hj) as (o2 & Ho2 & Hid2 & _ & Ht2).
         destruct (Hloc i ltac:(now left)) as (o1' & Ho1' & Hl1).
         destruct (Hloc j ltac:(right; now left)) as (o2' & Ho2' & Hl2).
         rewrite Ho1 in Ho1'; injection Ho1' as <-.
         rewrite Ho2 in Ho2'; injection Ho2' as <-.
         exists o1, o2; repeat split.
         - eapply nth_error_In, Ho1.
         - eapply nth_error_In, Ho2.
         - congruence.
         - now rewrite <- Ht1, <- Ht2.
         - now rewrite Hid1, Hid2. }
    all: exists added; split; [exact Hrun|exact Hadded].
Qed.

Lemma group_edges_origin stations store loc group :
  marked_copy stations store ->
  (forall k, In k group ->
     exists o, nth_error stations k = Some o /\ station_loc o = loc) ->
  forall connections,
  exists added,
    group_edges store group connections = connections ++ added
    /\ Forall (transfer_origin stations) added.
Proof.
  intros Hcopy; induction group as [|i rest IH]; intros Hloc connections;
    cbn [group_edges].
  - exists []; split; [now rewrite app_nil_r|constructor].
  - destruct (group_edge_fold_origin stations store loc i rest Hcopy Hloc connections)
      as (added1 & Hrun1 & Hadded1).
    change (fold_left _ rest connections)
      with (fold_left (group_edge_step store i) rest connections).
    rewrite Hrun1.
    destruct (IH (fun k Hk => Hloc k (or_intror Hk)) (connections ++ added1))
      as (added2 & Hrun2 & Hadded2).
    exists (added1 ++ added2); split; [now rewrite Hrun2, app_assoc|].
    apply Forall_app; split; assumption.
Qed.

Lemma transfer_fold_origin stations entries :
  (forall e, In e entries -> snd e = cohabitants stations (fst e)) ->
  forall st,
  marked_copy stations (fst st) ->
  exists added,
    snd (fold_left transfer_step entries st) = snd st ++ added
    /\ Forall (transfer_origin stations) added.
Proof.
  induction entries as [|e entries IH]; intros Hentries st Hcopy; cbn [fold_left].
  - exists []; split; [now rewrite app_nil_r|constructor].
  - assert (Hstep : marked_copy stations (fst (transfer_step st e))
              /\ exists added,
                   snd (transfer_step st e) = snd st ++ added
                   /\ Forall (transfer_origin stations) added).
    { unfold transfer_step; destruct (1 <? _)%nat; cbn [fst snd].
      - split; [now apply marked_copy_mark_group|].
        apply (group_edges_origin stations _ (fst e));
          [now apply marked_copy_mark_group|].
        intros k Hk; rewrite (Hentries e (or_introl eq_refl)) in Hk.
        now apply in_cohabitants in Hk.
      - split; [exact Hcopy|].
        exists []; split; [now rewrite app_nil_r|constructor]. }
    destruct Hstep as (Hcopy' & added1 & Hrun1 & Hadded1).
    destruct (IH (fun e' He' => Hentries e' (or_intror He')) _ Hcopy')
      as (added2 & Hrun2 & Hadded2).
    exists (added1 ++ added2); split; [now rewrite Hrun2, Hrun1, app_assoc|].
    apply Forall_app; split; assumption.
Qed.

Lemma transfer_pass_origin stations :
  Forall (transfer_origin stations) (snd (transfer_pass stations)).
Proof.
  rewrite transfer_pass_fold.
  destruct (transfer_fold_origin stations (location_groups stations)) with
    (st := (stations, @nil Connection.t)) as (added & Hrun & Hadded).
  - intros [loc g] He; cbn [fst snd]; now apply location_groups_entry.
  - apply marked_copy_refl.
  - now rewrite Hrun.
Qed.

Lemma transfer_origin_edge stations store c :
  marked_copy stations store -> transfer_origin stations c ->
  is_transfer_edge store c.
Proof.
  intros Hcopy (o1 & o2 & Ho1 & Ho2 & Hloc & Ht & ->).
  destruct (marked_copy_In _ _ _ Hcopy Ho1) as (s1 & Hs1 & Hid1 & Hl1 & Ht1).
  destruct (marked_copy_In _ _ _ Hcopy Ho2) as (s2 & Hs2 & Hid2 & Hl2 & Ht2).
  exists s1, s2; repeat split; cbn; try assumption; try congruence.
  - rewrite Ht1, Ht2; intros Heq; rewrite Heq, Mode_eqb_refl in Ht; discriminate.
  - assert (H : station_loc s1 = station_loc s2) by congruence.
    unfold station_loc in H; injection H as Hx Hy.
    unfold station_distance, manhattan; lia.
Qed.

Lemma joins_endpoints stations connections :
  Forall (fun c => exists s1 s2, joins stations c s1 s2) connections ->
  endpoints_in (map Station.id stations) connections.
Proof.
  intros H c Hc; rewrite Forall_forall in H.
  destruct (H c Hc) as (s1 & s2 & Hs1 & Hs2 & -> & ->).
  split; now apply in_map.
Qed.

Lemma endpoints_in_app ids l1 l2 :
  endpoints_in ids l1 -> endpoints_in ids l2 -> endpoints_in ids (l1 ++ l2).
Proof.
  intros H1 H2 c Hc; apply in_app_or in Hc as [Hc|Hc]; [now apply H1|now apply H2].
Qed.

(** The backbone loop appends one edge per station it connects. *)
Lemma backbone_loop_added stations :
  forall fuel connected connections result,
  backbone_loop fuel stations connected connections = Ok result ->
  exists added,
    result = connections ++ added
    /\ Forall (is_backbone_edge stations) added
    /\ (List.length connected + List.length added
        = Nat.max (List.length connected) (List.length stations))%nat.
Proof.
  induction fuel as [|fuel IH]; intros connected connections result;
    cbn [backbone_loop];
    destruct (Nat.ltb_spec (List.length connected) (List.length stations))
      as [Hlt|Hge].
  - discriminate.
  - intros [= <-]; exists []; rewrite app_nil_r; cbn [List.length].
    split; [reflexivity|split; [constructor|lia]].
  - pose proof (proj1 (closest_pair_spec stations connected)) as Hok.
    destruct (closest_pair stations connected) as [[d [s1 s2]]|]; [|discriminate].
    destruct Hok as [(Hs1 & Hs2 & Hm1 & Hm2) ->].
    intros Hrun; apply IH in Hrun as (added & -> & Hadded & Hlen).
    eexists (_ :: added); split; [rewrite <- app_assoc; reflexivity|].
    split.
    + constructor; [|exact Hadded].
      exists s1, s2; repeat split; cbn; try assumption.
      intros Heq; rewrite Heq in Hm1; congruence.
    + unfold set_add in Hlen; rewrite Hm2, length_app in Hlen.
      cbn [List.length] in *; lia.
  - intros [= <-]; exists []; rewrite app_nil_r; cbn [List.length].
    split; [reflexivity|split; [constructor|lia]].
Qed.

(** After the co-location pass the local-walking pass only joins
    stations on different cells. *)
Lemma walking_pass_origin stations store connections :
  marked_copy stations store ->
  incl (snd (transfer_pass stations)) connections ->
  exists added,
    walking_pass store connections = connections ++ added
    /\ Forall (is_walking_edge store) added.
Proof.
  intros Hcopy Hincl.
  destruct (walking_outer store connections) as (added & Hrun & Horigin).
  exists added; split; [exact Hrun|].
  apply Forall_forall; intros c Hc.
  destruct (Horigin c Hc) as (s1 & s2 & Hs1 & Hs2 & Ht & Hd & He & ->).
  assert (Hpos : 1 <= station_distance s1 s2).
  { pose proof (station_distance_nonneg s1 s2) as Hnn.
    destruct (Z.eq_dec (station_distance s1 s2) 0) as [H0|]; [exfalso|lia].
    apply station_distance_0 in H0.
    destruct (In_nth_error _ _ Hs1) as (i & Hi).
    destruct (In_nth_error _ _ Hs2) as (j & Hj).
    destruct (marked_copy_nth _ _ _ _ Hcopy Hi) as (o1 & Ho1 & Hid1 & Hl1 & Ht1).
    destruct (marked_copy_nth _ _ _ _ Hcopy Hj) as (o2 & Ho2 & Hid2 & Hl2 & Ht2).
    rewrite Ht1, Ht2 in Ht.
    assert (Hne : i <> j).
    { intros ->; rewrite Ho1 in Ho2; injection Ho2 as <-.
      now rewrite Mode_eqb_refl in Ht. }
    assert (Hloc : station_loc o1 = station_loc o2) by congruence.
    pose proof (transfer_pass_joins stations i j o1 o2 Hne Ho1 Ho2 Hloc Ht) as Hjoin.
    apply (connection_exists_incl _ _ _ _ Hincl) in Hjoin.
    congruence. }
  exists s1, s2; repeat split; cbn; try assumption; try lia.
  - intros Heq; rewrite Heq, Mode_eqb_refl in Ht; discriminate.
  - apply local_walk_time_near; lia.
Qed.

Lemma reachable_all_pairs stations connections s0 :
  (forall s, In s stations -> reachable connections (Station.id s0) (Station.id s)) ->
  forall s t, In s stations -> In t stations ->
  reachable connections (Station.id s) (Station.id t).
Proof.
  intros H s t Hs Ht.
  eapply reachable_trans; [apply reachable_sym, H, Hs|apply H, Ht].
Qed.

Lemma is_edge_joins stations c :
  is_transfer_edge stations c \/ is_backbone_edge stations c
  \/ is_walking_edge stations c ->
  exists s1 s2, joins stations c s1 s2.
Proof.
  intros [(s1 & s2 & H & _)|[(s1 & s2 & H & _)|(s1 & s2 & H & _)]]; eauto.
Qed.

(** The anatomy of [_generate_connections] on stations with pairwise
    distinct ids: it succeeds, its result is the transfer edges, then
    the backbone edges, one per station but the first, then the local
    walking edges; the connectivity repair finds the network connected
    and appends nothing. *)
Lemma generate_connections_blocks stations :
  NoDup (map Station.id stations) ->
  exists backbone walking,
    let store := fst (transfer_pass stations) in
    let transfers := snd (transfer_pass stations) in
    _generate_connections stations
    = Ok (store, transfers ++ backbone ++ walking)
    /\ backbone_pass store transfers = Ok (transfers ++ backbone)
    /\ walking_pass store (transfers ++ backbone) = transfers ++ backbone ++ walking
    /\ _ensure_connectivity store (transfers ++ backbone ++ walking)
       = Ok (transfers ++ backbone ++ walking)
    /\ Forall (is_transfer_edge store) transfers
    /\ Forall (is_backbone_edge store) backbone
    /\ List.length backbone = (List.length stations - 1)%nat
    /\ Forall (is_walking_edge store) walking
    /\ forall s t, In s store -> In t store ->
         reachable (transfers ++ backbone ++ walking) (Station.id s) (Station.id t).
Proof.
  intros Hids.
  pose proof (marked_copy_transfer_pass stations) as Hcopy.
  pose proof (marked_copy_ids _ _ Hcopy) as Hsame.
  assert (Hlen : List.length (fst (transfer_pass stations)) = List.length stations).
  { rewrite <- (length_map Station.id), Hsame; apply length_map. }
  assert (Htr : Forall (is_transfer_edge (fst (transfer_pass stations)))
                  (snd (transfer_pass stations))).
  { eapply Forall_impl; [|apply transfer_pass_origin].
    intros c; now apply transfer_origin_edge. }
  assert (Hends0 : endpoints_in (map Station.id (fst (transfer_pass stations)))
                     (snd (transfer_pass stations))).
  { apply joins_endpoints; eapply Forall_impl; [|exact Htr].
    intros c H; apply is_edge_joins; now left. }
  unfold _generate_connections.
  destruct (transfer_pass stations) as [store transfers] eqn:Htp; cbn [fst snd] in *.
  destruct store as [|s0 rest].
  - exists [], []; cbn.
    destruct stations; [|discriminate].
    cbn in Htp; injection Htp as <-.
    repeat split; try constructor; intros s t [].
  - rewrite <- Hsame in Hids.
    destruct (backbone_pass_connects s0 rest transfers Hids Hends0)
      as (conns1 & Hbb & _ & Hends1 & Hreach1).
    pose proof Hbb as Hadded; unfold backbone_pass in Hadded.
    apply backbone_loop_added in Hadded as (backbone & -> & Hbackbone & Hcount).
    destruct (walking_pass_origin stations (s0 :: rest) (transfers ++ backbone) Hcopy)
      as (walking & Hwalk & Hwalking).
    { replace transfers with (snd (transfer_pass stations)) by now rewrite Htp.
      apply incl_appl, incl_refl. }
    exists backbone, walking.
    assert (Hends2 : endpoints_in (map Station.id (s0 :: rest))
                       (transfers ++ backbone ++ walking)).
    { rewrite app_assoc; apply endpoints_in_app; [exact Hends1|].
      apply joins_endpoints; eapply Forall_impl; [|exact Hwalking].
      intros c H; apply is_edge_joins; now right; right. }
    assert (Hreach2 : forall s, In s (s0 :: rest) ->
              reachable (transfers ++ backbone ++ walking)
                (Station.id s0) (Station.id s)).
    { intros s Hs; eapply reachable_incl; [|apply Hreach1, Hs].
      rewrite app_assoc; apply incl_appl, incl_refl. }
    assert (Hensure : _ensure_connectivity (s0 :: rest)
                        (transfers ++ backbone ++ walking)
                      = Ok (transfers ++ backbone ++ walking)).
    { unfold _ensure_connectivity.
      destruct (verify_connectivity_reachable s0 rest _ Hends2)
        as (connected & Hverify & Hiff).
      rewrite Hverify; cbn [rbind].
      now rewrite (proj2 Hiff Hreach2). }
    cbn zeta; split.
    { rewrite Hbb; cbn [rbind].
      rewrite Hwalk, <- app_assoc, Hensure; reflexivity. }
    split; [exact Hbb|].
    split; [now rewrite Hwalk, <- app_assoc|].
    split; [exact Hensure|].
    split; [exact Htr|].
    split; [exact Hbackbone|].
    split.
    { cbn [set_add mem existsb app List.length] in Hcount.
      cbn [List.length] in *; lia. }
    split; [exact Hwalking|].
    now apply (reachable_all_pairs (s0 :: rest) _ s0).
Qed.


(** ** Rejection sampling: the accepting path *)

Definition on_grid (n : Z) (p : Z * Z) : Prop :=
  0 <= fst p < n /\ 0 <= snd p < n.

Lemma sampled_cell_on_grid n g k : 1 <= n -> on_grid n (sampled_cell n g k).
Proof.
  intros Hn; unfold on_grid, sampled_cell; cbn [fst snd].
  split; apply Z.mod_pos_bound; lia.
Qed.

Lemma find_good_position_loop_first n existing min_dist :
  1 <= n ->
  forall attempts g k,
  (k < attempts)%nat ->
  (forall j, (j < k)%nat ->
     is_too_close (fst (sampled_cell n g j)) (snd (sampled_cell n g j))
       existing min_dist = true) ->
  is_too_close (fst (sampled_cell n g k)) (snd (sampled_cell n g k))
    existing min_dist = false ->
  find_good_position_loop n existing min_dist attempts g
  = Ok (sampled_cell n g k, advance (2 * k + 2) g).
Proof.
  intros Hn; induction attempts as [|attempts IH]; intros g k Hk Hclose Hfar; [lia|].
  cbn [find_good_position_loop].
  erewrite bind_ok; [|apply sample_cell_ok, Hn].
  destruct k as [|k].
  - rewrite Hfar; reflexivity.
  - rewrite (Hclose O) by lia; cbn [negb].
    rewrite (IH (advance 2 g) k); [| lia | |].
    + rewrite sampled_cell_shift, advance_advance.
      replace (2 * k + 2 + 2)%nat with (2 * S k + 2)%nat by lia.
      reflexivity.
    + intros j Hj; rewrite sampled_cell_shift; apply Hclose; lia.
    + now rewrite sampled_cell_shift.
Qed.

Lemma find_good_position_loop_on_grid n existing min_dist :
  1 <= n ->
  forall attempts g p g',
  find_good_position_loop n existing min_dist attempts g = Ok (p, g') ->
  on_grid n p.
Proof.
  intros Hn; induction attempts as [|attempts IH]; intros g p g';
    cbn [find_good_position_loop].
  - rewrite sample_cell_ok by exact Hn; intros [= <- _].
    now apply sampled_cell_on_grid.
  - erewrite bind_ok; [|apply sample_cell_ok, Hn].
    destruct (negb _); [|apply IH].
    intros [= <- _]; now apply sampled_cell_on_grid.
Qed.

Lemma find_good_position_on_grid n existing min_dist g p g' :
  1 <= n -> find_good_position n existing min_dist g = Ok (p, g') -> on_grid n p.
Proof. intros Hn; now apply find_good_position_loop_on_grid. Qed.

(** ** Station placement: modes, counts and cells *)

Definition station_on_grid (n : Z) (s : Station.t) : Prop :=
  0 <= Station.x s < n /\ 0 <= Station.y s < n.

Definition placed_as (n : Z) (mode : Mode) (s : Station.t) : Prop :=
  Station.station_type s = mode /\ station_on_grid n s.

Definition positions_on_grid (n : Z) (st : Placement) : Prop :=
  Forall (on_grid n) (station_positions st).

Lemma for_each_appends {A} (Inv : Placement -> Prop) (P : Station.t -> Prop)
    (body : Placement -> A -> M Placement) xs :
  (forall st x g st' g', Inv st -> body st x g = Ok (st', g') ->
     Inv st' /\ exists s, placed st' = placed st ++ [s] /\ P s) ->
  forall st g st' g', Inv st -> for_each xs body st g = Ok (st', g') ->
  Inv st'
  /\ exists l, placed st' = placed st ++ l
               /\ List.length l = List.length xs /\ Forall P l.
Proof.
  intros Hbody; induction xs as [|x xs IH]; intros st g st' g' Hinv Hrun.
  - cbn in Hrun; injection Hrun as <- _; split; [exact Hinv|].
    exists []; rewrite app_nil_r; repeat split; constructor.
  - cbn [for_each] in Hrun.
    apply bind_inv in Hrun as (st1 & g1 & Hrun1 & Hrun2).
    destruct (Hbody _ _ _ _ _ Hinv Hrun1) as (Hinv1 & s & Hs & HP).
    destruct (IH _ _ _ _ Hinv1 Hrun2) as (Hinv2 & l & Hl & Hlen & HPl).
    split; [exact Hinv2|].
    exists (s :: l); rewrite Hl, Hs, <- app_assoc; cbn [app List.length].
    repeat split; [now rewrite Hlen|now constructor].
Qed.

Lemma add_station_appends n st positions p mode :
  on_grid n p -> Forall (on_grid n) positions ->
  positions_on_grid n (add_station st positions (fst p) (snd p) mode)
  /\ exists s, placed (add_station st positions (fst p) (snd p) mode)
               = placed st ++ [s]
               /\ placed_as n mode s.
Proof.
  intros Hp Hpos; split; [exact Hpos|].
  eexists; split; [reflexivity|split; [reflexivity|exact Hp]].
Qed.

Lemma fresh_station_appends n d mode st g st' g' :
  1 <= n -> positions_on_grid n st ->
  (p <- find_good_position n (station_positions st) d ;;
   ret (add_station st (station_positions st ++ [p]) (fst p) (snd p) mode)) g
  = Ok (st', g') ->
  positions_on_grid n st'
  /\ exists s, placed st' = placed st ++ [s] /\ placed_as n mode s.
Proof.
  intros Hn Hinv Hrun.
  apply bind_inv in Hrun as (p & g1 & Hp & Hret); injection Hret as <- _.
  apply find_good_position_on_grid in Hp; [|exact Hn].
  apply add_station_appends; [exact Hp|].
  apply Forall_app; split; [exact Hinv|now constructor].
Qed.

Lemma place_metro_appends n d st i g st' g' :
  1 <= n -> positions_on_grid n st -> place_metro n d st i g = Ok (st', g') ->
  positions_on_grid n st'
  /\ exists s, placed st' = placed st ++ [s] /\ placed_as n Metro s.
Proof.
  intros Hn Hinv Hrun; unfold place_metro in Hrun.
  exact (fresh_station_appends n d Metro st g st' g' Hn Hinv Hrun).
Qed.

Lemma place_tram_appends n d st i g st' g' :
  1 <= n -> positions_on_grid n st -> place_tram n d st i g = Ok (st', g') ->
  positions_on_grid n st'
  /\ exists s, placed st' = placed st ++ [s] /\ placed_as n Tram s.
Proof.
  intros Hn Hinv Hrun; unfold place_tram in Hrun.
  destruct (_ <? _);
    [|exact (fresh_station_appends n (d / 2) Tram st g st' g' Hn Hinv Hrun)].
  apply bind_inv in Hrun as (r & g1 & _ & Hrun).
  destruct (PrimFloat.ltb _ _);
    [|exact (fresh_station_appends n (d / 2) Tram st g1 st' g' Hn Hinv Hrun)].
  destruct (nth_error _ _) as [p|] eqn:Hp; [|discriminate].
  injection Hrun as <- _.
  apply add_station_appends; [|exact Hinv].
  apply nth_error_In in Hp; unfold positions_on_grid in Hinv.
  rewrite Forall_forall in Hinv; now apply Hinv.
Qed.

Lemma place_bus_appends n d st i g st' g' :
  1 <= n -> positions_on_grid n st -> place_bus n d st i g = Ok (st', g') ->
  positions_on_grid n st'
  /\ exists s, placed st' = placed st ++ [s] /\ placed_as n Bus s.
Proof.
  intros Hn Hinv Hrun; unfold place_bus in Hrun.
  destruct (_ <? _);
    [|exact (fresh_station_appends n (d / 3) Bus st g st' g' Hn Hinv Hrun)].
  apply bind_inv in Hrun as (r & g1 & _ & Hrun).
  destruct (PrimFloat.ltb _ _);
    [|exact (fresh_station_appends n (d / 3) Bus st g1 st' g' Hn Hinv Hrun)].
  destruct (nth_error _ _) as [p|] eqn:Hp; [|discriminate].
  injection Hrun as <- _.
  apply add_station_appends; [|exact Hinv].
  apply nth_error_In in Hp; unfold positions_on_grid in Hinv.
  rewrite Forall_forall in Hinv; now apply Hinv.
Qed.

(** The station counts of a builder, as [_generate_stations] computes them. *)
Definition metro_count (b : CityBuilder) : nat :=
  Z.to_nat (density_count 3 (grid_size b * grid_size b) metro_share).

Definition tram_count (b : CityBuilder) : nat :=
  Z.to_nat (density_count 4 (grid_size b * grid_size b) tram_share).

Definition bus_count (b : CityBuilder) : nat :=
  Z.to_nat (density_count 5 (grid_size b * grid_size b) bus_share).

Lemma generate_stations_layout b g sts g' :
  1 <= grid_size b ->
  _generate_stations b g = Ok (sts, g') ->
  exists metros trams buses,
    sts = metros ++ trams ++ buses
    /\ List.length metros = metro_count b
    /\ List.length trams = tram_count b
    /\ List.length buses = bus_count b
    /\ Forall (placed_as (grid_size b) Metro) metros
    /\ Forall (placed_as (grid_size b) Tram) trams
    /\ Forall (placed_as (grid_size b) Bus) buses.
Proof.
  intros Hn Hrun; unfold _generate_stations in Hrun.
  apply bind_inv in Hrun as (st1 & g1 & Hrun1 & Hrun).
  apply bind_inv in Hrun as (st2 & g2 & Hrun2 & Hrun).
  apply bind_inv in Hrun as (st3 & g3 & Hrun3 & Hrun).
  injection Hrun as <- _.
  eapply (for_each_appends (positions_on_grid (grid_size b))
            (placed_as (grid_size b) Metro)) in Hrun1
    as (Hinv1 & metros & Hm & Hlm & HPm);
    [|intros; eapply place_metro_appends; eassumption|constructor].
  eapply (for_each_appends (positions_on_grid (grid_size b))
            (placed_as (grid_size b) Tram)) in Hrun2
    as (Hinv2 & trams & Ht & Hlt & HPt);
    [|intros; eapply place_tram_appends; eassumption|exact Hinv1].
  eapply (for_each_appends (positions_on_grid (grid_size b))
            (placed_as (grid_size b) Bus)) in Hrun3
    as (Hinv3 & buses & Hb & Hlb & HPb);
    [|intros; eapply place_bus_appends; eassumption|exact Hinv2].
  exists metros, trams, buses.
  rewrite Hb, Ht, Hm; cbn [placed app]; rewrite <- app_assoc.
  rewrite range_length, Z.sub_0_r in Hlm, Hlt, Hlb.
  repeat split; assumption.
Qed.

Lemma generate_stations_grid_size b g sts g' :
  _generate_stations b g = Ok (sts, g') -> 1 <= grid_size b.
Proof.
  intros Hrun.
  destruct (Z.le_gt_cases (grid_size b) 0) as [Hle|Hgt]; [|lia].
  rewrite generate_stations_raises in Hrun by exact Hle; discriminate.
Qed.

(** ** Generated cities *)


Lemma marked_copy_locs stations store :
  marked_copy stations store ->
  map station_loc store = map station_loc stations.
Proof.
  intros [flags H]; apply nth_error_ext; intros n.
  rewrite !nth_error_map, H.
  destruct (nth_error stations n); cbn; [now rewrite mark_if_loc|reflexivity].
Qed.


Lemma generated_city_parts b g m g' :
  generate_random_city b g = Ok (m, g') ->
  exists g1 sts g2,
    _generate_stations b g1 = Ok (sts, g2)
    /\ 1 <= grid_size b
    /\ city_grid_size m = grid_size b
    /\ NoDup (map Station.id sts)
    /\ stations m = fst (transfer_pass sts)
    /\ _generate_connections sts = Ok (stations m, connections m)
    /\ routes m = _generate_routes (stations m).
Proof.
  unfold generate_random_city; intros Hrun.
  apply bind_inv in Hrun as (zs & g1 & _ & Hrun).
  apply bind_inv in Hrun as (sts & g2 & Hsts & Hrun).
  apply bind_inv in Hrun as ([sts' conns] & g3 & Hconn & Hrun).
  injection Hrun as <- _; cbn [stations connections routes city_grid_size].
  unfold lift in Hconn.
  destruct (_generate_connections sts) as [[a c]|e] eqn:E; [|discriminate].
  injection Hconn as -> -> _.
  exists g1, sts, g2.
  split; [exact Hsts|].
  split; [eapply generate_stations_grid_size, Hsts|].
  split; [reflexivity|].
  split; [eapply generated_station_ids, Hsts|].
  split; [eapply generate_connections_stations, E|].
  split; [exact E|reflexivity].
Qed.

Lemma generated_city_blocks b g m g' :
  generate_random_city b g = Ok (m, g') ->
  exists transfers backbone walking,
    connections m = transfers ++ backbone ++ walking
    /\ Forall (is_transfer_edge (stations m)) transfers
    /\ Forall (is_backbone_edge (stations m)) backbone
    /\ List.length backbone = (List.length (stations m) - 1)%nat
    /\ Forall (is_walking_edge (stations m)) walking
    /\ forall s t, In s (stations m) -> In t (stations m) ->
         reachable (connections m) (Station.id s) (Station.id t).
Proof.
  intros Hrun.
  apply generated_city_parts in Hrun
    as (g1 & sts & g2 & _ & _ & _ & Hids & Hst & Hconn & _).
  destruct (generate_connections_blocks sts Hids)
    as (backbone & walking & Hgen & _ & _ & _ & Ht & Hb & Hlen & Hw & Hreach).
  cbn zeta in *; rewrite Hgen in Hconn; injection Hconn as Hs Hc.
  exists (snd (transfer_pass sts)), backbone, walking.
  rewrite <- Hc, Hst.
  assert (Hsame : List.length (fst (transfer_pass sts)) = List.length sts).
  { rewrite <- (length_map Station.id), transfer_pass_ids; apply length_map. }
  rewrite Hsame; repeat split; assumption.
Qed.

Lemma blocks_endpoints stations transfers backbone walking :
  Forall (is_transfer_edge stations) transfers ->
  Forall (is_backbone_edge stations) backbone ->
  Forall (is_walking_edge stations) walking ->
  endpoints_in (map Station.id stations) (transfers ++ backbone ++ walking).
Proof.
  intros Ht Hb Hw; apply joins_endpoints.
  repeat (apply Forall_app; split);
    (eapply Forall_impl; [|eassumption]); intros c H; apply is_edge_joins; tauto.
Qed.

(** X1: every station of a generated city lies on the grid of the
    city: both coordinates are at least 0 and below its grid size. *)
Theorem generated_stations_on_grid b g m g' :
  generate_random_city b g = Ok (m, g') ->
  Forall (station_on_grid (city_grid_size m)) (stations m).
Proof.
  intros Hrun.
  apply generated_city_parts in Hrun
    as (g1 & sts & g2 & Hsts & Hn & -> & _ & -> & _ & _).
  destruct (generate_stations_layout b g1 sts g2 Hn Hsts)
    as (metros & trams & buses & -> & _ & _ & _ & Hm & Ht & Hb).
  apply Forall_forall; intros s Hs.
  apply In_nth_error in Hs as (i & Hi).
  destruct (marked_copy_nth _ _ _ _ (marked_copy_transfer_pass _) Hi)
    as (o & Ho & _ & Hloc & _).
  apply nth_error_In in Ho.
  assert (Hon : station_on_grid (grid_size b) o).
  { rewrite !in_app_iff in Ho; rewrite Forall_forall in Hm, Ht, Hb.
    destruct Ho as [Ho|[Ho|Ho]]; [apply Hm in Ho|apply Ht in Ho|apply Hb in Ho];
      apply Ho. }
  unfold station_on_grid, station_loc in *.
  injection Hloc as -> ->; exact Hon.
Qed.

Lemma generated_stations_on_grid_witness :
  Forall (station_on_grid (city_grid_size city_c)) (stations city_c).
Proof.
  exact (generated_stations_on_grid (CityBuilder_init 4) tape_c city_c tape_c_after
           run_c_ok).
Defined.



(** X3: a generated city is connected.  The check
    [_verify_connectivity] accepts it, and the breadth-first search it
    runs, started from any station, ends and visits the id of every
    station of the city. *)
Theorem generated_city_connected b g m g' :
  generate_random_city b g = Ok (m, g') ->
  _verify_connectivity (stations m) (connections m) = Ok true
  /\ forall s t, In s (stations m) -> In t (stations m) ->
       exists visited,
         bfs (build_graph (connections m)) (Station.id s) = Ok visited
         /\ In (Station.id t) visited.
Proof.
  intros Hrun.
  destruct (generated_city_blocks _ _ _ _ Hrun)
    as (transfers & backbone & walking & Hc & Ht & Hb & _ & Hw & Hreach).
  split.
  - destruct (stations m) as [|s0 rest] eqn:Hst; [reflexivity|].
    destruct (verify_connectivity_reachable s0 rest (connections m))
      as (connected & Hverify & Hiff).
    { rewrite Hc; now apply blocks_endpoints. }
    rewrite Hverify; f_equal; apply Hiff.
    intros s Hs; apply Hreach; [now left|exact Hs].
  - intros s t Hs Ht'.
    destruct (bfs_correct (connections m) (Station.id s)) as (visited & Hrun' & _ & Hvis).
    exists visited; split; [exact Hrun'|].
    apply Hvis, Hreach; assumption.
Qed.

Lemma generated_city_connected_witness :
  _verify_connectivity (stations city_c) (connections city_c) = Ok true
  /\ forall s t, In s (stations city_c) -> In t (stations city_c) ->
       exists visited,
         bfs (build_graph (connections city_c)) (Station.id s) = Ok visited
         /\ In (Station.id t) visited.
Proof.
  exact (generated_city_connected (CityBuilder_init 4) tape_c city_c tape_c_after
           run_c_ok).
Defined.

(** X4: the connections of a generated city are three consecutive
    blocks.  First the transfer edges: two stations of different modes
    on one cell, [walk_time] 2.  Then the backbone edges, exactly one
    per station but the first: two stations with different ids,
    [walk_time] 120 times their Manhattan distance.  Then the local
    walking edges: two stations of different modes 1 or 2 grid units
    apart, [walk_time] 3.  Every connection joins two stations of the
    city. *)
Theorem generated_connections_anatomy b g m g' :
  generate_random_city b g = Ok (m, g') ->
  exists transfers backbone walking,
    connections m = transfers ++ backbone ++ walking
    /\ Forall (is_transfer_edge (stations m)) transfers
    /\ Forall (is_backbone_edge (stations m)) backbone
    /\ List.length backbone = (List.length (stations m) - 1)%nat
    /\ Forall (is_walking_edge (stations m)) walking.
Proof.
  intros Hrun.
  destruct (generated_city_blocks _ _ _ _ Hrun)
    as (transfers & backbone & walking & Hc & Ht & Hb & Hlen & Hw & _).
  exists transfers, backbone, walking; repeat split; assumption.
Qed.

Lemma generated_connections_anatomy_witness :
  exists transfers backbone walking,
    connections city_c = transfers ++ backbone ++ walking
    /\ Forall (is_transfer_edge (stations city_c)) transfers
    /\ Forall (is_backbone_edge (stations city_c)) backbone
    /\ List.length backbone = (List.length (stations city_c) - 1)%nat
    /\ Forall (is_walking_edge (stations city_c)) walking.
Proof.
  exact (generated_connections_anatomy (CityBuilder_init 4) tape_c city_c
           tape_c_after run_c_ok).
Defined.

(** X5: on stations with pairwise distinct ids the connection builder
    never fails and its last step, the connectivity repair, changes
    nothing: the result is what the transfer pass, the backbone pass
    and the local walking pass have built, and the station list it
    returns is the one marked by the transfer pass. *)
Theorem generate_connections_needs_no_repair stations :
  NoDup (map Station.id stations) ->
  exists connections1,
    backbone_pass (fst (transfer_pass stations)) (snd (transfer_pass stations))
    = Ok connections1
    /\ _ensure_connectivity (fst (transfer_pass stations))
         (walking_pass (fst (transfer_pass stations)) connections1)
       = Ok (walking_pass (fst (transfer_pass stations)) connections1)
    /\ _generate_connections stations
       = Ok (fst (transfer_pass stations),
             walking_pass (fst (transfer_pass stations)) connections1).
Proof.
  intros Hids.
  destruct (generate_connections_blocks stations Hids)
    as (backbone & walking & Hgen & Hbb & Hwalk & Hens & _).
  cbn zeta in *.
  exists (snd (transfer_pass stations) ++ backbone).
  rewrite Hwalk; repeat split; assumption.
Qed.

Lemma generate_connections_needs_no_repair_witness :
  exists connections1,
    backbone_pass (fst (transfer_pass three_stations))
      (snd (transfer_pass three_stations))
    = Ok connections1
    /\ _ensure_connectivity (fst (transfer_pass three_stations))
         (walking_pass (fst (transfer_pass three_stations)) connections1)
       = Ok (walking_pass (fst (transfer_pass three_stations)) connections1)
    /\ _generate_connections three_stations
       = Ok (fst (transfer_pass three_stations),
             walking_pass (fst (transfer_pass three_stations)) connections1).
Proof.
  apply (generate_connections_needs_no_repair three_stations).
  cbn; repeat constructor; cbn; intuition discriminate.
Defined.

(** For a grid size of at least 3 and a non-empty category list the
    generator returns a city whatever the state of the random module. *)
Lemma generate_random_city_total b g :
  3 <= grid_size b -> zone_types b <> [] ->
  exists m g', generate_random_city b g = Ok (m, g').
Proof.
  intros Hgs Hzt; unfold generate_random_city.
  destruct (generate_zones_ok b g Hgs Hzt) as (zs & g1 & Hzs & _).
  erewrite bind_ok; [|exact Hzs].
  destruct (generate_stations_total b g1 ltac:(lia)) as (sts & g2 & Hsts).
  erewrite bind_ok; [|exact Hsts].
  destruct (generate_connections_blocks sts (generated_station_ids _ _ _ _ Hsts))
    as (backbone & walking & Hgen & _).
  cbn zeta in Hgen.
  erewrite bind_ok; [|unfold lift; rewrite Hgen; reflexivity].
  unfold ret; eauto.
Qed.

Lemma generate_random_city_needs b g m g' :
  generate_random_city b g = Ok (m, g') ->
  3 <= grid_size b /\ zone_types b <> [].
Proof.
  intros Hrun.
  assert (Hn : 1 <= grid_size b).
  { apply generated_city_parts in Hrun as (g1 & sts & g2 & _ & Hn & _); exact Hn. }
  unfold generate_random_city in Hrun.
  apply bind_inv in Hrun as (zs & g1 & Hzs & _).
  destruct (zone_types b) as [|zt zts] eqn:Hzt.
  - rewrite generate_zones_no_category in Hzs by assumption; discriminate.
  - split; [|discriminate].
    destruct (Z.lt_ge_cases (grid_size b) 3) as [Hlt|Hge]; [|exact Hge].
    rewrite generate_zones_small_grid in Hzs; [discriminate| |exact Hlt].
    rewrite Hzt; discriminate.
Qed.

(** X6: [generate_random_city] returns a city exactly when the grid
    size is at least 3 and the category list is not empty, whatever the
    state of the random module: in that case no draw makes it raise and
    none of its [while] loops spins, and otherwise every run raises. *)
Theorem generate_random_city_succeeds_iff b g :
  (exists m g', generate_random_city b g = Ok (m, g'))
  <-> 3 <= grid_size b /\ zone_types b <> [].
Proof.
  split.
  - intros (m & g' & Hrun); eapply generate_random_city_needs, Hrun.
  - intros [Hgs Hzt]; now apply generate_random_city_total.
Qed.

(** ** The traversal and the check, on their own *)

(** X7: the breadth-first search of [_verify_connectivity] ends on
    every connection list and from every start id, whether or not the
    ids are ids of stations; it visits no id twice, and the ids it
    visits are exactly those a chain of connections, taken in either
    direction, leads to from the start. *)
Theorem bfs_visits_the_reachable_ids connections start :
  exists visited,
    bfs (build_graph connections) start = Ok visited
    /\ NoDup visited
    /\ forall v, In v visited <-> reachable connections start v.
Proof. exact (bfs_correct connections start). Qed.

(** X8: when every connection joins ids of listed stations,
    [_verify_connectivity] returns [True] exactly when every listed
    station can be reached from the first one. *)
Theorem verify_connectivity_spec s0 rest connections :
  endpoints_in (map Station.id (s0 :: rest)) connections ->
  exists connected,
    _verify_connectivity (s0 :: rest) connections = Ok connected
    /\ (connected = true
        <-> forall s, In s (s0 :: rest) ->
              reachable connections (Station.id s0) (Station.id s)).
Proof. exact (verify_connectivity_reachable s0 rest connections). Qed.

Lemma verify_connectivity_spec_witness :
  exists connected,
    _verify_connectivity three_stations
      [Connection.mk "station_0" "station_1" 2;
       Connection.mk "station_2" "station_0" 120]
    = Ok connected
    /\ (connected = true
        <-> forall s, In s three_stations ->
              reachable
                [Connection.mk "station_0" "station_1" 2;
                 Connection.mk "station_2" "station_0" 120]
                "station_0" (Station.id s)).
Proof.
  apply (verify_connectivity_spec
           (Station.mk "station_0" 0 0 Metro false)
           [Station.mk "station_1" 0 0 Tram false;
            Station.mk "station_2" 0 1 Bus false]).
  intros c [<-|[<-|[]]]; cbn; tauto.
Defined.

Lemma reachable_single_edge a x w u v :
  reachable [Connection.mk a x w] u v -> u = a \/ u = x -> v = a \/ v = x.
Proof.
  induction 1 as [|u b c Hab IH Hbc]; [tauto|intros Hu].
  unfold adjacent, connection_exists in Hbc.
  apply existsb_exists in Hbc as (e & [<-|[]] & H); cbn in H.
  apply orb_true_iff in H as [H|H]; apply andb_true_iff in H as [H1 H2];
    apply String.eqb_eq in H1, H2; subst; tauto.
Qed.

(** X9: the check compares two counts, the ids visited and the ids of
    the stations, and so a connection that leads to an id of no station
    makes up for a station that cannot be reached: with two stations
    and one connection from the first to a foreign id the check returns
    [True] although the second station is unreachable. *)
Theorem verify_connectivity_counts_foreign_ids s0 s1 stranger w :
  Station.id s0 <> Station.id s1 ->
  stranger <> Station.id s0 -> stranger <> Station.id s1 ->
  _verify_connectivity [s0; s1] [Connection.mk (Station.id s0) stranger w]
  = Ok true
  /\ ~ reachable [Connection.mk (Station.id s0) stranger w]
         (Station.id s0) (Station.id s1).
Proof.
  intros H01 Hx0 Hx1; split.
  - unfold _verify_connectivity.
    destruct (bfs_correct [Connection.mk (Station.id s0) stranger w] (Station.id s0))
      as (visited & Hrun & Hnd & Hvis).
    rewrite Hrun; cbn [rbind]; f_equal; apply Nat.eqb_eq.
    assert (Hv : List.length visited = 2%nat).
    { apply Nat.le_antisymm.
      - apply (@NoDup_incl_length _ visited [Station.id s0; stranger] Hnd).
        intros v Hv; apply Hvis in Hv.
        apply reachable_single_edge in Hv; [|now left].
        cbn; destruct Hv; subst; tauto.
      - apply (@NoDup_incl_length _ [Station.id s0; stranger] visited).
        + constructor; [intros [H|[]]; congruence|].
          constructor; [intros []|constructor].
        + intros v [<-|[<-|[]]]; apply Hvis; [constructor|].
          eapply reachable_step; [constructor|].
          unfold adjacent; cbn; now rewrite !String.eqb_refl. }
    assert (E3 : String.eqb (Station.id s1) (Station.id s0) = false)
      by (apply String.eqb_neq; congruence).
    rewrite Hv; unfold station_ids, set_add.
    cbn [fold_left mem existsb app]; rewrite E3; reflexivity.
  - intros H; apply reachable_single_edge in H as [H|H]; [congruence|congruence|now left].
Qed.

Lemma verify_connectivity_counts_foreign_ids_witness :
  _verify_connectivity
    [Station.mk "station_0" 0 0 Metro false; Station.mk "station_1" 3 3 Bus false]
    [Connection.mk "station_0" "depot" 5]
  = Ok true
  /\ ~ reachable [Connection.mk "station_0" "depot" 5] "station_0" "station_1".
Proof.
  apply (verify_connectivity_counts_foreign_ids
           (Station.mk "station_0" 0 0 Metro false)
           (Station.mk "station_1" 3 3 Bus false) "depot" 5);
    cbn; discriminate.
Defined.

(** X10: [find_good_position] returns the first of its 50 sampled
    cells that keeps the minimum Manhattan distance to every position
    placed so far; a cell is two draws, [x] then [y], and nothing is
    drawn after the accepted cell. *)
Theorem find_good_position_returns_first_far_cell n existing min_dist g k :
  1 <= n -> (k < max_attempts)%nat ->
  (forall j, (j < k)%nat ->
     is_too_close (fst (sampled_cell n g j)) (snd (sampled_cell n g j))
       existing min_dist = true) ->
  is_too_close (fst (sampled_cell n g k)) (snd (sampled_cell n g k))
    existing min_dist = false ->
  find_good_position n existing min_dist g
  = Ok (sampled_cell n g k, advance (2 * k + 2) g).
Proof.
  intros Hn Hk Hclose Hfar; unfold find_good_position.
  now apply find_good_position_loop_first.
Qed.

Lemma find_good_position_returns_first_far_cell_witness :
  find_good_position 4 [(2, 3)] 2 tape_b = Ok ((0, 1), advance 4 tape_b).
Proof.
  apply (find_good_position_returns_first_far_cell 4 [(2, 3)] 2 tape_b 1).
  - lia.
  - unfold max_attempts; lia.
  - intros j Hj; destruct j; [reflexivity|lia].
  - reflexivity.
Defined.

(** ** The local walking pass: what it guarantees *)

Lemma walking_inner_incl s1 rest connections :
  incl connections (fold_left (walking_step s1) rest connections).
Proof.
  destruct (walking_inner s1 rest connections) as (added & -> & _).
  apply incl_appl, incl_refl.
Qed.

Lemma walking_pass_incl stations connections :
  incl connections (walking_pass stations connections).
Proof.
  destruct (walking_outer stations connections) as (added & -> & _).
  apply incl_appl, incl_refl.
Qed.

Lemma walking_step_joins s1 s2 connections :
  Mode_eqb (Station.station_type s1) (Station.station_type s2) = false ->
  station_distance s1 s2 <= 2 ->
  connection_exists (walking_step s1 connections s2)
    (Station.id s1) (Station.id s2) = true.
Proof.
  intros Ht Hd; unfold walking_step; rewrite Ht.
  destruct (Z.leb_spec (station_distance s1 s2) 2); [|lia].
  destruct (connection_exists connections (Station.id s1) (Station.id s2)) eqn:He;
    [exact He|].
  rewrite connection_exists_app; apply orb_true_iff; right.
  cbn; now rewrite !String.eqb_refl.
Qed.

Lemma walking_pass_joins before s1 between s2 after connections :
  Mode_eqb (Station.station_type s1) (Station.station_type s2) = false ->
  station_distance s1 s2 <= 2 ->
  connection_exists
    (walking_pass (before ++ s1 :: between ++ s2 :: after) connections)
    (Station.id s1) (Station.id s2) = true.
Proof.
  intros Ht Hd; revert connections.
  induction before as [|s before IH]; intros connections; cbn [app walking_pass].
  - eapply connection_exists_incl; [apply walking_pass_incl|].
    rewrite fold_left_app; cbn [fold_left].
    eapply connection_exists_incl; [apply walking_inner_incl|].
    now apply walking_step_joins.
  - apply IH.
Qed.

Lemma station_distance_sym s1 s2 : station_distance s1 s2 = station_distance s2 s1.
Proof. unfold station_distance, manhattan; lia. Qed.

Lemma connection_exists_sym connections a b :
  connection_exists connections a b = connection_exists connections b a.
Proof.
  unfold connection_exists; induction connections as [|c l IH]; cbn;
    [reflexivity|].
  rewrite IH; f_equal; apply orb_comm.
Qed.

Lemma walking_pass_joins_any stations connections s t :
  In s stations -> In t stations ->
  Station.station_type s <> Station.station_type t ->
  station_distance s t <= 2 ->
  connection_exists (walking_pass stations connections)
    (Station.id s) (Station.id t) = true.
Proof.
  intros Hs Ht Hne Hd.
  assert (Hm : Mode_eqb (Station.station_type s) (Station.station_type t) = false).
  { destruct (Mode_eqb _ _) eqn:E; [apply Mode_eqb_eq in E; contradiction|reflexivity]. }
  apply in_split in Hs as (l1 & l2 & ->).
  apply in_app_or in Ht as [Ht|[Ht|Ht]].
  - apply in_split in Ht as (a & c & ->).
    rewrite <- app_assoc; cbn [app].
    rewrite connection_exists_sym.
    apply walking_pass_joins; [now rewrite Mode_eqb_sym|now rewrite station_distance_sym].
  - subst t; contradiction.
  - apply in_split in Ht as (a & c & ->).
    now apply walking_pass_joins.
Qed.

Lemma generated_city_walking b g m g' :
  generate_random_city b g = Ok (m, g') ->
  exists connections1, connections m = walking_pass (stations m) connections1.
Proof.
  intros Hrun.
  apply generated_city_parts in Hrun
    as (g1 & sts & g2 & _ & _ & _ & Hids & Hst & Hconn & _).
  destruct (generate_connections_blocks sts Hids)
    as (backbone & walking & Hgen & _ & Hwalk & _).
  cbn zeta in *; rewrite Hgen in Hconn; injection Hconn as Hs Hc.
  exists (snd (transfer_pass sts) ++ backbone).
  now rewrite <- Hc, Hst, Hwalk.
Qed.

(** X11: in a generated city any two stations of different modes at
    Manhattan distance 2 or less, the same cell included, are joined by
    a connection, in one direction or the other. *)
Theorem generated_nearby_modes_are_joined b g m g' :
  generate_random_city b g = Ok (m, g') ->
  forall s t, In s (stations m) -> In t (stations m) ->
  Station.station_type s <> Station.station_type t ->
  station_distance s t <= 2 ->
  connection_exists (connections m) (Station.id s) (Station.id t) = true.
Proof.
  intros Hrun s t Hs Ht Hne Hd.
  destruct (generated_city_walking _ _ _ _ Hrun) as (connections1 & ->).
  now apply walking_pass_joins_any.
Qed.

Lemma generated_nearby_modes_are_joined_witness :
  In (Station.mk "station_10" 1 1 Bus false) (stations city_c)
  /\ In (Station.mk "station_0" 1 0 Metro true) (stations city_c)
  /\ connection_exists (connections city_c) "station_10" "station_0" = true.
Proof.
  assert (H10 : In (Station.mk "station_10" 1 1 Bus false) (stations city_c))
    by (vm_compute; tauto).
  assert (H0 : In (Station.mk "station_0" 1 0 Metro true) (stations city_c))
    by (vm_compute; tauto).
  split; [exact H10|split; [exact H0|]].
  apply (generated_nearby_modes_are_joined (CityBuilder_init 4) tape_c city_c
           tape_c_after run_c_ok _ _ H10 H0).
  - discriminate.
  - vm_compute; discriminate.
Defined.

(** The edges of [added], in order, each join a pair that no earlier
    record joins. *)
Fixpoint fresh_edges (connections added : list Connection.t) : Prop :=
  match added with
  | [] => True
  | c :: rest =>
      connection_exists connections (Connection.from c) (Connection.to c) = false
      /\ fresh_edges (connections ++ [c]) rest
  end.

Lemma fresh_edges_app connections a1 a2 :
  fresh_edges connections a1 -> fresh_edges (connections ++ a1) a2 ->
  fresh_edges connections (a1 ++ a2).
Proof.
  revert connections; induction a1 as [|c a1 IH]; intros connections H1 H2; cbn.
  - now rewrite app_nil_r in H2.
  - destruct H1 as [Hc H1]; split; [exact Hc|].
    apply IH; [exact H1|now rewrite <- app_assoc].
Qed.

Lemma fresh_edges_split connections added before c after :
  fresh_edges connections added -> added = before ++ c :: after ->
  connection_exists (connections ++ before)
    (Connection.from c) (Connection.to c) = false.
Proof.
  revert connections added; induction before as [|b before IH];
    intros connections added Hfresh ->; cbn [app] in *.
  - rewrite app_nil_r; apply Hfresh.
  - destruct Hfresh as [_ Hfresh].
    replace (connections ++ b :: before) with ((connections ++ [b]) ++ before)
      by now rewrite <- app_assoc.
    eapply IH; [exact Hfresh|reflexivity].
Qed.

Lemma walking_inner_fresh s1 rest :
  forall connections,
  exists added,
    fold_left (walking_step s1) rest connections = connections ++ added
    /\ fresh_edges connections added.
Proof.
  induction rest as [|s2 rest IH]; intros connections; cbn [fold_left].
  - exists []; split; [now rewrite app_nil_r|exact I].
  - destruct (IH (walking_step s1 connections s2)) as (added & Hrun & Hfresh).
    unfold walking_step in *.
    destruct (Mode_eqb _ _);
      [|destruct (station_distance s1 s2 <=? 2);
        [destruct (connection_exists _ _ _) eqn:He|]].
    1, 2, 4: exists added; split; [exact Hrun|exact Hfresh].
    eexists (_ :: added); split; [rewrite Hrun, <- app_assoc; reflexivity|].
    split; [exact He|exact Hfresh].
Qed.

Lemma walking_outer_fresh stations :
  forall connections,
  exists added,
    walking_pass stations connections = connections ++ added
    /\ fresh_edges connections added.
Proof.
  induction stations as [|s1 rest IH]; intros connections; cbn [walking_pass].
  - exists []; split; [now rewrite app_nil_r|exact I].
  - destruct (walking_inner_fresh s1 rest connections) as (added1 & Hrun1 & Hf1).
    destruct (IH (connections ++ added1)) as (added2 & Hrun2 & Hf2).
    exists (added1 ++ added2); split; [now rewrite Hrun1, Hrun2, app_assoc|].
    now apply fresh_edges_app.
Qed.

(** X12: the local walking pass only appends to the connection list,
    and never a second record for a pair of ids: when it appends a
    connection, no record before it, old or just appended, joins its
    two ids in either direction. *)
Theorem walking_pass_never_doubles_an_edge stations connections :
  exists added,
    walking_pass stations connections = connections ++ added
    /\ forall before c after,
         added = before ++ c :: after ->
         connection_exists (connections ++ before)
           (Connection.from c) (Connection.to c) = false.
Proof.
  destruct (walking_outer_fresh stations connections) as (added & Hrun & Hfresh).
  exists added; split; [exact Hrun|].
  intros before c after; now apply fresh_edges_split.
Qed.

(** ** Routes: order, ids and stations *)

Lemma filter_out_perm a l :
  NoDup l -> In a l ->
  Permutation l (a :: filter (fun s => negb (Station.eqb s a)) l).
Proof.
  induction l as [|h t IH]; intros Hnd Ha; [destruct Ha|].
  inversion Hnd as [|? ? Hnotin Hnd']; subst; cbn [filter].
  destruct (Station.eqb h a) eqn:E; cbn [negb].
  - apply Station_eqb_eq in E; subst h.
    apply perm_skip.
    rewrite forallb_filter_id; [reflexivity|].
    apply forallb_forall; intros s Hs.
    destruct (Station.eqb s a) eqn:E'; [|reflexivity].
    apply Station_eqb_eq in E'; subst s; contradiction.
  - destruct Ha as [->|Ha]; [now rewrite Station_eqb_refl in E|].
    eapply perm_trans; [apply perm_skip, IH; assumption|apply perm_swap].
Qed.

(** X13: on a list without repeated stations the nearest-neighbour
    order is a rearrangement of the list: no station is lost and none
    is listed twice. *)
Theorem order_stations_is_a_rearrangement stations :
  NoDup stations ->
  Permutation stations (_order_stations_by_distance stations).
Proof.
  intros Hnd; pose proof (order_stations_shape stations) as H.
  destruct (List.length stations <=? 2)%nat; [now rewrite H|].
  destruct H as (first & tail & -> & Hin & _ & Hperm & _).
  eapply perm_trans; [apply filter_out_perm; eassumption|].
  now apply perm_skip.
Qed.

Lemma order_stations_is_a_rearrangement_witness :
  Permutation
    [Station.mk "station_0" 2 0 Metro false; Station.mk "station_1" 0 3 Metro false;
     Station.mk "station_2" 1 1 Metro false]
    (_order_stations_by_distance
       [Station.mk "station_0" 2 0 Metro false; Station.mk "station_1" 0 3 Metro false;
        Station.mk "station_2" 1 1 Metro false]).
Proof.
  apply order_stations_is_a_rearrangement.
  repeat constructor; cbn; intuition discriminate.
Defined.

(** What the route loops maintain: the counter is the number of routes
    made, and the routes are named [route_0], [route_1], ... in order. *)
Definition routes_numbered (st : list Route.t * nat) : Prop :=
  snd st = List.length (fst st)
  /\ map Route.id (fst st) = map route_name (seq 0 (List.length (fst st))).

Lemma add_route_numbered mode st entry :
  routes_numbered st -> routes_numbered (add_route mode st entry).
Proof.
  intros [Hn Hids]; unfold add_route; destruct entry as [i route_stations].
  destruct (2 <=? _)%nat; [|split; assumption].
  unfold routes_numbered; cbn [fst snd].
  rewrite length_app, Nat.add_1_r; cbn [List.length].
  split; [now rewrite Hn|].
  rewrite map_app, Hids, seq_S, map_app; cbn; now rewrite Hn.
Qed.

Lemma routes_of_mode_numbered st entry :
  routes_numbered st -> routes_numbered (routes_of_mode st entry).
Proof.
  intros Hst; unfold routes_of_mode; destruct entry as [mode mode_stations].
  destruct (_ <? 2)%nat; [assumption|].
  apply fold_left_invariant; [|assumption].
  intros st' e; apply add_route_numbered.
Qed.

Lemma route_name_inj m n : route_name m = route_name n -> m = n.
Proof.
  unfold route_name; cbn; intros H.
  injection H as H; now apply str_of_nat_inj.
Qed.

(** X14: the routes [_generate_routes] returns are named [route_0],
    [route_1], ... in list order, whatever the stations: the ids are
    pairwise distinct and no number is skipped when a candidate route
    is dropped. *)
Theorem generate_routes_ids stations :
  map Route.id (_generate_routes stations)
  = map route_name (seq 0 (List.length (_generate_routes stations)))
  /\ NoDup (map Route.id (_generate_routes stations)).
Proof.
  assert (H : routes_numbered
                (fold_left routes_of_mode (stations_by_type stations) ([], O))).
  { apply fold_left_invariant; [|split; reflexivity].
    intros st e; apply routes_of_mode_numbered. }
  destruct H as [_ H]; unfold _generate_routes.
  split; [exact H|].
  rewrite H; apply Finite.Injective_map_NoDup; [|apply seq_NoDup].
  intros i j; apply route_name_inj.
Qed.

(** ** Routes: the stations of each mode *)

(** [stations_by_type[m]], or the empty list when [m] is no key. *)
Fixpoint type_group (groups : list (Mode * list Station.t)) (m : Mode)
    : list Station.t :=
  match groups with
  | [] => []
  | (k, g) :: rest => if Mode_eqb k m then g else type_group rest m
  end.

(** The stations of mode [m], in list order. *)
Definition of_mode (m : Mode) (stations : list Station.t) : list Station.t :=
  filter (fun s => Mode_eqb (Station.station_type s) m) stations.

Lemma type_group_append s groups m :
  type_group (by_type_append s groups) m
  = if Mode_eqb (Station.station_type s) m
    then type_group groups m ++ [s] else type_group groups m.
Proof.
  induction groups as [|[k g] rest IH]; cbn.
  - destruct (Mode_eqb _ m); reflexivity.
  - destruct (Mode_eqb k (Station.station_type s)) eqn:E; cbn.
    + apply Mode_eqb_eq in E; subst k.
      destruct (Mode_eqb (Station.station_type s) m); reflexivity.
    + rewrite IH.
      destruct (Mode_eqb k m) eqn:E'; [|reflexivity].
      apply Mode_eqb_eq in E'; subst m.
      now rewrite Mode_eqb_sym, E.
Qed.

Lemma by_type_append_keys s groups :
  map fst (by_type_append s groups)
  = if existsb (fun k => Mode_eqb k (Station.station_type s)) (map fst groups)
    then map fst groups else map fst groups ++ [Station.station_type s].
Proof.
  induction groups as [|[k g] rest IH]; cbn; [reflexivity|].
  destruct (Mode_eqb k _); cbn; [reflexivity|].
  rewrite IH; destruct (existsb _ _); reflexivity.
Qed.

Lemma by_type_append_NoDup s groups :
  NoDup (map fst groups) -> NoDup (map fst (by_type_append s groups)).
Proof.
  intros H; rewrite by_type_append_keys.
  destruct (existsb _ _) eqn:E; [assumption|].
  apply NoDup_app; [assumption|repeat constructor; intros []|].
  intros k Hk [Heq|[]]; subst k.
  assert (existsb (fun k => Mode_eqb k (Station.station_type s)) (map fst groups)
          = true).
  { apply existsb_exists; eexists; split; [eassumption|apply Mode_eqb_refl]. }
  congruence.
Qed.

Lemma type_group_fold l :
  forall groups m,
  type_group (fold_left (fun groups s => by_type_append s groups) l groups) m
  = type_group groups m ++ of_mode m l.
Proof.
  induction l as [|s l IH]; intros groups m; cbn [fold_left].
  - cbn; now rewrite app_nil_r.
  - rewrite IH, type_group_append; unfold of_mode; cbn [filter].
    destruct (Mode_eqb _ m); cbn; [now rewrite <- app_assoc|reflexivity].
Qed.

Lemma by_type_fold_NoDup l :
  forall groups,
  NoDup (map fst groups) ->
  NoDup (map fst (fold_left (fun groups s => by_type_append s groups) l groups)).
Proof.
  induction l as [|s l IH]; intros groups H; cbn; [assumption|].
  apply IH, by_type_append_NoDup, H.
Qed.

Lemma stations_by_type_NoDup stations : NoDup (map fst (stations_by_type stations)).
Proof. apply by_type_fold_NoDup; constructor. Qed.

Lemma In_type_group groups m g :
  NoDup (map fst groups) -> In (m, g) groups -> type_group groups m = g.
Proof.
  induction groups as [|[k g0] rest IH]; cbn; [intros _ []|].
  intros Hnd [[= -> ->]|Hin].
  - now rewrite Mode_eqb_refl.
  - inversion Hnd as [|? ? Hnotin Hnd']; subst.
    destruct (Mode_eqb k m) eqn:E; [|now apply IH].
    apply Mode_eqb_eq in E; subst k.
    exfalso; apply Hnotin.
    change m with (fst (m, g)); apply in_map, Hin.
Qed.

(** Every entry of [stations_by_type] holds the stations of its mode,
    in list order. *)
Lemma stations_by_type_entry stations m g :
  In (m, g) (stations_by_type stations) -> g = of_mode m stations.
Proof.
  intros H.
  rewrite <- (In_type_group _ _ _ (stations_by_type_NoDup stations) H).
  unfold stations_by_type; now rewrite type_group_fold.
Qed.

(** ** Routes: no station twice *)

Lemma insert_by_perm {A} (key : A -> Z) a l :
  Permutation (a :: l) (insert_by key a l).
Proof.
  induction l as [|h t IH]; cbn; [reflexivity|].
  destruct (key a <=? key h); [reflexivity|].
  eapply perm_trans; [apply perm_swap|apply perm_skip, IH].
Qed.

Lemma sorted_by_perm {A} (key : A -> Z) l : Permutation l (sorted_by key l).
Proof.
  unfold sorted_by; induction l as [|h t IH]; cbn; [constructor|].
  eapply perm_trans; [apply perm_skip, IH|apply insert_by_perm].
Qed.

Lemma every_other_NoDup {A} (l : list A) : NoDup l -> NoDup (every_other l).
Proof.
  assert (H : forall n (l : list A),
             (List.length l <= n)%nat -> NoDup l -> NoDup (every_other l)).
  { induction n as [|n IH]; intros [|a [|b t]] Hn Hnd; cbn in *;
      try assumption; try lia.
    inversion Hnd as [|? ? Ha Hnd']; subst.
    inversion Hnd' as [|? ? Hb Hnd'']; subst.
    constructor; [|apply IH; [lia|assumption]].
    intros Hin; apply every_other_incl in Hin; apply Ha; now right. }
  apply (H (List.length l)), le_n.
Qed.

Lemma slice_NoDup {A} (l : list A) a b : NoDup l -> NoDup (slice l a b).
Proof.
  intros H; unfold slice.
  rewrite <- (firstn_skipn b l) in H; apply NoDup_app_remove_r in H.
  rewrite <- (firstn_skipn a (firstn b l)) in H; now apply NoDup_app_remove_l in H.
Qed.

Lemma order_stations_NoDup stations :
  NoDup stations -> NoDup (_order_stations_by_distance stations).
Proof.
  intros H; eapply Permutation_NoDup; [|exact H].
  pose proof (order_stations_shape stations) as Hs.
  destruct (List.length stations <=? 2)%nat; [now rewrite Hs|].
  destruct Hs as (first & tail & -> & Hin & _ & Hperm & _).
  eapply perm_trans; [apply filter_out_perm; eassumption|].
  now apply perm_skip.
Qed.

Lemma keep_if_route_NoDup {A} (candidate : list A) routes :
  NoDup candidate -> Forall (@NoDup A) routes ->
  Forall (@NoDup A) (keep_if_route candidate routes).
Proof.
  intros Hc Hr; unfold keep_if_route; destruct (2 <=? _)%nat; [|assumption].
  apply Forall_app; split; [assumption|repeat constructor; assumption].
Qed.

Lemma create_realistic_routes_NoDup stations mode :
  NoDup stations ->
  Forall (@NoDup Station.t) (_create_realistic_routes stations mode).
Proof.
  intros Hnd; unfold _create_realistic_routes; destruct (_ <? 2)%nat; [constructor|].
  destruct mode.
  - unfold _create_connecting_routes; destruct (_ <? 2)%nat; [constructor|].
    apply fold_left_invariant; [|constructor].
    intros routes i Hr; destruct (2 <=? _)%nat; [|assumption].
    apply Forall_app; split; [assumption|repeat constructor].
    now apply order_stations_NoDup, slice_NoDup.
  - unfold _create_linear_routes; destruct (_ <? 2)%nat; [constructor|].
    apply fold_left_invariant; [|constructor].
    intros routes i Hr; destruct (2 <=? _)%nat; [|assumption].
    apply Forall_app; split; [assumption|repeat constructor].
    now apply order_stations_NoDup, slice_NoDup.
  - unfold _create_axial_routes; destruct (_ <? 3)%nat.
    + repeat constructor; now apply order_stations_NoDup.
    + assert (Hx : NoDup (sorted_by Station.x stations))
        by (eapply Permutation_NoDup; [apply sorted_by_perm|exact Hnd]).
      assert (Hy : NoDup (sorted_by Station.y stations))
        by (eapply Permutation_NoDup; [apply sorted_by_perm|exact Hnd]).
      apply keep_if_route_NoDup.
      * unfold every_other_from_1; apply every_other_NoDup.
        destruct (sorted_by Station.y stations); cbn [tl]; [constructor|].
        now inversion Hy.
      * apply keep_if_route_NoDup; [now apply every_other_NoDup|constructor].
Qed.

Lemma NoDup_map_incl {A B} (f : A -> B) l r :
  NoDup (map f l) -> NoDup r -> incl r l -> NoDup (map f r).
Proof.
  intros Hl; induction 1 as [|a r Ha Hr IH]; intros Hincl; cbn; [constructor|].
  constructor; [|apply IH; intros x Hx; apply Hincl; now right].
  intros Hin; apply in_map_iff in Hin as (b & Heq & Hb).
  apply Ha.
  rewrite <- (NoDup_map_inj f l b a Hl); [exact Hb| | |exact Heq];
    apply Hincl; [now right|now left].
Qed.

(** X15: no route visits a station twice: when the stations have
    pairwise distinct ids, the station ids of every route that
    [_generate_routes] returns are pairwise distinct. *)
Theorem generate_routes_visit_no_station_twice stations :
  NoDup (map Station.id stations) ->
  Forall (fun r => NoDup (Route.stations r)) (_generate_routes stations).
Proof.
  intros Hids.
  assert (Hnd : NoDup stations) by (eapply NoDup_map_inv, Hids).
  unfold _generate_routes.
  apply (fold_left_invariant_in
           (fun st => Forall (fun r => NoDup (Route.stations r)) (fst st)));
    [|constructor].
  intros st [mode group] Hentry Hst.
  apply stations_by_type_entry in Hentry; subst group.
  unfold routes_of_mode; destruct (_ <? 2)%nat; [assumption|].
  apply (fold_left_invariant_in
           (fun st => Forall (fun r => NoDup (Route.stations r)) (fst st)));
    [|assumption].
  intros st' [i route_stations] Hin Hst'.
  apply in_combine_r in Hin.
  unfold add_route; destruct (2 <=? _)%nat; [|assumption].
  cbn [fst]; apply Forall_app; split; [assumption|].
  constructor; [|constructor]; cbn [Route.stations].
  apply (NoDup_map_incl _ stations); [exact Hids| |].
  - pose proof (create_realistic_routes_NoDup (of_mode mode stations) mode
                  (NoDup_filter _ Hnd)) as H.
    rewrite Forall_forall in H; now apply H.
  - pose proof (create_realistic_routes_within (of_mode mode stations) mode) as H.
    unfold routes_within in H; rewrite Forall_forall in H.
    eapply incl_tran; [now apply H|].
    intros s Hs; unfold of_mode in Hs; now apply filter_In in Hs.
Qed.

Lemma generate_routes_visit_no_station_twice_witness :
  Forall (fun r => NoDup (Route.stations r)) (_generate_routes (stations city_c)).
Proof.
  apply (generate_routes_visit_no_station_twice (stations city_c)).
  exact (generated_city_ids (CityBuilder_init 4) tape_c city_c tape_c_after run_c_ok).
Defined.

(** ** Consumers of a generated city *)





Lemma find_station_In stations s :
  In s stations ->
  exists s', find_station stations (Station.id s) = Some s'
             /\ In s' stations /\ Station.id s' = Station.id s.
Proof.
  intros Hs; unfold find_station.
  destruct (find _ stations) as [s'|] eqn:E.
  - apply find_some in E as [Hin Heq]; apply String.eqb_eq in Heq; eauto.
  - exfalso; apply (find_none _ _ E) in Hs.
    now rewrite String.eqb_refl in Hs.
Qed.



Lemma generated_city_stations_on_grid b g m g' :
  generate_random_city b g = Ok (m, g') ->
  Forall (station_on_grid (city_grid_size m)) (stations m).
Proof.
  intros Hrun.
  apply generated_city_parts in Hrun
    as (g1 & sts & g2 & Hsts & Hn & -> & _ & -> & _ & _).
  destruct (generate_stations_layout b g1 sts g2 Hn Hsts)
    as (metros & trams & buses & -> & _ & _ & _ & Hm & Ht & Hb).
  apply Forall_forall; intros s Hs.
  apply In_nth_error in Hs as (i & Hi).
  destruct (marked_copy_nth _ _ _ _ (marked_copy_transfer_pass _) Hi)
    as (o & Ho & _ & Hloc & _).
  apply nth_error_In in Ho.
  assert (Hon : station_on_grid (grid_size b) o).
  { rewrite !in_app_iff in Ho; rewrite Forall_forall in Hm, Ht, Hb.
    destruct Ho as [Ho|[Ho|Ho]]; [apply Hm in Ho|apply Ht in Ho|apply Hb in Ho];
      apply Ho. }
  unfold station_on_grid, station_loc in *.
  injection Hloc as -> ->; exact Hon.
Qed.



Lemma route_points_listed stations ids :
  (forall i, In i ids -> exists s, In s stations /\ Station.id s = i) ->
  exists points,
    route_points stations ids = Some points
    /\ List.length points = List.length ids
    /\ Forall
         (fun p => exists s, In s stations /\ p = (Station.x s, Station.y s))
         points.
Proof.
  induction ids as [|i ids IH]; intros Hids; cbn [route_points].
  - exists []; repeat split; constructor.
  - destruct (IH (fun k Hk => Hids k (or_intror Hk))) as (points & -> & Hlen & Hpts).
    destruct (Hids i (or_introl eq_refl)) as (s & Hs & <-).
    destruct (find_station_In stations s Hs) as (s' & -> & Hs' & _).
    eexists; split; [reflexivity|split; [cbn; now rewrite Hlen|]].
    constructor; [eauto|exact Hpts].
Qed.

(** X18: [visualize_city] finds the station of every id a route of a
    generated city lists: the polyline of the route has one point per
    listed id, at least 2, so that the route is drawn, and every point
    is a cell of the grid. *)
Theorem route_points_of_generated_city b g m g' :
  generate_random_city b g = Ok (m, g') ->
  forall r, In r (routes m) ->
  exists points,
    route_points (stations m) (Route.stations r) = Some points
    /\ List.length points = List.length (Route.stations r)
    /\ (2 <= List.length points)%nat
    /\ Forall (on_grid (city_grid_size m)) points.
Proof.
  intros Hrun r Hr.
  pose proof (generated_city_stations_on_grid _ _ _ _ Hrun) as Hgrid.
  rewrite Forall_forall in Hgrid.
  apply generated_city_parts in Hrun as (g1 & sts & g2 & _ & _ & _ & _ & _ & _ & Hroutes).
  rewrite Hroutes in Hr.
  pose proof (generate_routes_valid (stations m)) as Hvalid.
  rewrite Forall_forall in Hvalid; destruct (Hvalid r Hr) as [Hlen Hids].
  destruct (route_points_listed (stations m) (Route.stations r))
    as (points & Hpts & Hl & Hon).
  { intros i Hi; destruct (Hids i Hi) as (s & Hs & Hid & _); eauto. }
  exists points; split; [exact Hpts|split; [exact Hl|split; [lia|]]].
  eapply Forall_impl; [|exact Hon].
  intros p (s & Hs & ->); exact (Hgrid s Hs).
Qed.

Lemma route_points_of_generated_city_witness :
  In (Route.mk "route_0" Metro ["station_0"; "station_2"] "#FF0000")%string
     (routes city_c)
  /\ exists points,
       route_points (stations city_c) ["station_0"; "station_2"]%string = Some points
       /\ List.length points = List.length ["station_0"; "station_2"]%string
       /\ (2 <= List.length points)%nat
       /\ Forall (on_grid (city_grid_size city_c)) points.
Proof.
  assert (Hin : In (Route.mk "route_0" Metro ["station_0"; "station_2"] "#FF0000")%string
                   (routes city_c))
    by (vm_compute; left; reflexivity).
  split; [exact Hin|].
  exact (route_points_of_generated_city (CityBuilder_init 4) tape_c city_c
           tape_c_after run_c_ok _ Hin).
Defined.

(** X19: whatever is typed at the grid-size prompt of the visualiser
    menu, the grid size it builds with lies between 4 and 20 and the
    generation that follows returns a city. *)
Theorem menu_grid_size_always_generates entered g :
  4 <= menu_grid_size entered <= 20
  /\ exists m g',
       generate_random_city (CityBuilder_init (menu_grid_size entered)) g
       = Ok (m, g').
Proof.
  assert (H : 4 <= menu_grid_size entered <= 20).
  { unfold menu_grid_size; destruct entered; lia. }
  split; [exact H|].
  apply generate_random_city_total; cbn; [lia|discriminate].
Qed.

(** ** Routes: how many *)




























(** ** Routes: colours *)

(** The candidate a colour was picked for: its mode and its number
    among the candidates of the mode. *)
Definition slot_color (slot : Mode * nat) : string :=
  _get_route_color (fst slot) (snd slot).

Lemma slot_color_inj s1 s2 :
  (snd s1 < 3)%nat -> (snd s2 < 3)%nat -> slot_color s1 = slot_color s2 -> s1 = s2.
Proof.
  destruct s1 as [m1 i1], s2 as [m2 i2]; cbn [fst snd]; intros H1 H2.
  assert (Hi1 : (i1 = 0 \/ i1 = 1 \/ i1 = 2)%nat) by lia.
  assert (Hi2 : (i2 = 0 \/ i2 = 1 \/ i2 = 2)%nat) by lia.
  destruct Hi1 as [->|[->| ->]], Hi2 as [->|[->| ->]], m1, m2;
    cbn; intros H; try reflexivity; discriminate.
Qed.

Lemma NoDup_map_on {A B} (f : A -> B) l :
  (forall a b, In a l -> In b l -> f a = f b -> a = b) ->
  NoDup l -> NoDup (map f l).
Proof.
  intros Hinj; induction 1 as [|a l Ha Hnd IH]; cbn; [constructor|].
  constructor.
  - intros Hin; apply in_map_iff in Hin as (b & Heq & Hb).
    apply Ha; rewrite (Hinj a b); [exact Hb|now left|now right|now symmetry].
  - apply IH; intros x y Hx Hy; apply Hinj; now right.
Qed.

Lemma fold_appends_length {A} (step : list (list Station.t) -> A -> list (list Station.t))
    rounds :
  (forall routes i, (List.length (step routes i) <= S (List.length routes))%nat) ->
  forall routes,
  (List.length (fold_left step rounds routes)
   <= List.length routes + List.length rounds)%nat.
Proof.
  intros Hstep; induction rounds as [|i rounds IH]; intros routes;
    cbn [fold_left List.length]; [lia|].
  specialize (IH (step routes i)); specialize (Hstep routes i); lia.
Qed.

Lemma keep_if_route_length {A} (candidate : list A) routes :
  (List.length (keep_if_route candidate routes) <= S (List.length routes))%nat.
Proof.
  unfold keep_if_route; destruct (2 <=? _)%nat; [|lia].
  rewrite length_app; cbn; lia.
Qed.

(** No mode ever has more than three candidate routes. *)
Lemma create_realistic_routes_at_most_3 stations mode :
  (List.length (_create_realistic_routes stations mode) <= 3)%nat.
Proof.
  unfold _create_realistic_routes; destruct (_ <? 2)%nat; [cbn; lia|].
  destruct mode.
  - unfold _create_connecting_routes; destruct (_ <? 2)%nat; [cbn; lia|].
    etransitivity; [apply fold_appends_length|rewrite length_seq; cbn [List.length]; lia].
    intros routes i; cbn zeta; destruct (2 <=? _)%nat; [|lia].
    rewrite length_app; cbn; lia.
  - unfold _create_linear_routes; destruct (_ <? 2)%nat; [cbn; lia|].
    etransitivity; [apply fold_appends_length|rewrite length_seq; cbn [List.length]; lia].
    intros routes i; cbn zeta; destruct (2 <=? _)%nat; [|lia].
    rewrite length_app; cbn; lia.
  - unfold _create_axial_routes; destruct (_ <? 3)%nat; [cbn; lia|].
    etransitivity; [apply keep_if_route_length|].
    pose proof (keep_if_route_length
                  (every_other (sorted_by Station.x stations)) []) as H.
    cbn [List.length] in H; lia.
Qed.

(** The colours of the routes made so far, as slots. *)
Definition coloured_by (slots : list (Mode * nat)) (st : list Route.t * nat) : Prop :=
  map Route.color (fst st) = map slot_color slots.

Lemma add_route_colors mode keys :
  ~ In mode keys ->
  forall candidates k st slots,
  (k + List.length candidates <= 3)%nat ->
  coloured_by slots st -> NoDup slots ->
  Forall
    (fun s => (snd s < 3)%nat /\ (In (fst s) keys \/ (fst s = mode /\ (snd s < k)%nat)))
    slots ->
  exists slots',
    coloured_by slots'
      (fold_left (add_route mode)
         (combine (seq k (List.length candidates)) candidates) st)
    /\ NoDup slots'
    /\ Forall (fun s => (snd s < 3)%nat /\ In (fst s) (mode :: keys)) slots'.
Proof.
  intros Hnew; induction candidates as [|c candidates IH];
    intros k st slots Hk Hcol Hnd Hslots; cbn [List.length seq combine fold_left].
  - exists slots; split; [exact Hcol|split; [exact Hnd|]].
    eapply Forall_impl; [|exact Hslots].
    intros s (H3 & [H|[H _]]); split; try exact H3; [now right|now left].
  - cbn [List.length] in Hk.
    assert (Hweak : Forall
              (fun s => (snd s < 3)%nat
                        /\ (In (fst s) keys \/ (fst s = mode /\ (snd s < S k)%nat)))
              slots).
    { eapply Forall_impl; [|exact Hslots].
      intros s (H3 & [H|[H Hlt]]); split; try exact H3; [now left|right; split; [exact H|lia]]. }
    assert (Hst1 : exists slots1,
              coloured_by slots1 (add_route mode st (k, c))
              /\ NoDup slots1
              /\ Forall
                   (fun s => (snd s < 3)%nat
                             /\ (In (fst s) keys
                                 \/ (fst s = mode /\ (snd s < S k)%nat)))
                   slots1).
    { unfold add_route; destruct (2 <=? List.length c)%nat.
      - exists (slots ++ [(mode, k)]); split; [|split].
        + unfold coloured_by in *; cbn [fst].
          rewrite !map_app, Hcol; reflexivity.
        + apply NoDup_app; [exact Hnd|repeat constructor; intros []|].
          intros s Hs [<-|[]]; rewrite Forall_forall in Hslots.
          destruct (Hslots _ Hs) as (_ & [H|[_ H]]); cbn [fst snd] in H;
            [contradiction|lia].
        + apply Forall_app; split; [exact Hweak|].
          constructor; [|constructor]; cbn [fst snd].
          split; [lia|right; split; [reflexivity|lia]].
      - exists slots; split; [exact Hcol|split; [exact Hnd|exact Hweak]]. }
    destruct Hst1 as (slots1 & Hcol1 & Hnd1 & Hslots1).
    apply (IH (S k) _ slots1); [lia|exact Hcol1|exact Hnd1|exact Hslots1].
Qed.

Lemma routes_fold_colors groups :
  forall keys st slots,
  NoDup (map fst groups) ->
  (forall k, In k (map fst groups) -> ~ In k keys) ->
  coloured_by slots st -> NoDup slots ->
  Forall (fun s => (snd s < 3)%nat /\ In (fst s) keys) slots ->
  exists slots',
    coloured_by slots' (fold_left routes_of_mode groups st)
    /\ NoDup slots'
    /\ Forall (fun s => (snd s < 3)%nat) slots'.
Proof.
  induction groups as [|[mode group] rest IH];
    intros keys st slots Hnd Hfresh Hcol Hslots Hkeys; cbn [fold_left].
  - exists slots; split; [exact Hcol|split; [exact Hslots|]].
    eapply Forall_impl; [|exact Hkeys]; intros s H; apply H.
  - inversion Hnd as [|? ? Hnotin Hnd']; subst.
    assert (Hmode : ~ In mode keys) by (apply Hfresh; now left).
    assert (Hstep : exists slots1,
               coloured_by slots1 (routes_of_mode st (mode, group))
               /\ NoDup slots1
               /\ Forall (fun s => (snd s < 3)%nat /\ In (fst s) (mode :: keys)) slots1).
    { unfold routes_of_mode; destruct (_ <? 2)%nat.
      - exists slots; split; [exact Hcol|split; [exact Hslots|]].
        eapply Forall_impl; [|exact Hkeys]; intros s [H3 H]; split; [exact H3|now right].
      - apply (add_route_colors mode keys Hmode _ 0%nat st slots);
          [|exact Hcol|exact Hslots|].
        + pose proof (create_realistic_routes_at_most_3 group mode); lia.
        + eapply Forall_impl; [|exact Hkeys]; intros s [H3 H]; split; [exact H3|now left]. }
    destruct Hstep as (slots1 & Hcol1 & Hnd1 & Hkeys1).
    apply (IH (mode :: keys) _ slots1); try assumption.
    intros k Hk [<-|Hin]; [contradiction|].
    apply (Hfresh k); [now right|exact Hin].
Qed.

(** X21: no two routes returned by [_generate_routes] have the same
    colour, whatever the stations: a mode has at most three candidate
    routes, which take the three colours of the mode in order, and the
    palettes of the modes share no colour. *)
Theorem generate_routes_colours_are_distinct stations :
  NoDup (map Route.color (_generate_routes stations)).
Proof.
  destruct (routes_fold_colors (stations_by_type stations) [] ([], O) [])
    as (slots & Hcol & Hnd & Hslots).
  - apply stations_by_type_NoDup.
  - intros k _ [].
  - reflexivity.
  - constructor.
  - constructor.
  - unfold _generate_routes, coloured_by in *; rewrite Hcol.
    rewrite Forall_forall in Hslots.
    apply NoDup_map_on; [|exact Hnd].
    intros a b0 Ha Hb; apply slot_color_inj; now apply Hslots.
Qed.

(** ** The connectivity repair *)

Lemma visit_component_fold nbrs :
  forall visited queue component,
  incl component visited ->
  exists new,
    fold_left visit_component nbrs (visited, queue, component)
    = (visited ++ new, queue ++ new, component ++ new)
    /\ incl new nbrs
    /\ (forall x, In x new -> ~ In x visited)
    /\ NoDup new.
Proof.
  induction nbrs as [|n nbrs IH]; intros visited queue component Hsub;
    cbn [fold_left].
  - exists []; rewrite !app_nil_r.
    split; [reflexivity|split; [apply incl_refl|split; [intros x []|constructor]]].
  - unfold visit_component at 2.
    destruct (mem n visited) eqn:E.
    + destruct (IH visited queue component Hsub) as (new & Hrun & Hincl & Hnew & Hnd).
      exists new; repeat split; auto using incl_tl.
    + assert (Hn : ~ In n visited) by now apply mem_not_In.
      assert (Hc : mem n component = false).
      { apply mem_not_In; intros H; apply Hn, Hsub, H. }
      unfold set_add; rewrite E, Hc.
      destruct (IH (visited ++ [n]) (queue ++ [n]) (component ++ [n]))
        as (new & Hrun & Hincl & Hnew & Hnd).
      { intros x Hx; apply in_app_or in Hx as [Hx|Hx]; apply in_or_app;
          [left; now apply Hsub|now right]. }
      exists (n :: new); rewrite Hrun, <- !app_assoc; cbn [app].
      split; [reflexivity|split; [|split]].
      * intros w [<-|Hw]; [now left|right; now apply Hincl].
      * intros x [<-|Hx]; [exact Hn|].
        intros Hin; apply (Hnew x Hx), in_or_app; now left.
      * constructor; [|exact Hnd].
        intros Hin; apply (Hnew n Hin), in_or_app; right; now left.
Qed.

(** One component search: it ends, and what it adds to [visited] is
    the component, every id of which is reachable from the start. *)
Lemma component_loop_spec connections start fuel :
  forall visited queue component,
  NoDup component ->
  incl component (start :: map fst (build_graph connections)) ->
  incl queue component -> incl component visited ->
  In start component ->
  (forall v, In v component -> reachable connections start v) ->
  (List.length queue + S (List.length (build_graph connections))
   <= fuel + List.length component)%nat ->
  exists visited' component',
    component_loop fuel (build_graph connections) visited queue component
    = Ok (visited', component')
    /\ incl component component'
    /\ (forall v, In v component' -> reachable connections start v)
    /\ (forall x, In x visited' <-> In x visited \/ In x component').
Proof.
  induction fuel as [|fuel IH];
    intros visited queue component Hnd Hkeys Hq Hsub Hstart Hsound Hfuel.
  - assert (Hlen : (List.length component
                    <= S (List.length (build_graph connections)))%nat).
    { rewrite <- (length_map fst (build_graph connections)).
      apply (NoDup_incl_length Hnd Hkeys). }
    destruct queue as [|current queue]; [|cbn [List.length] in Hfuel; lia].
    exists visited, component; cbn.
    split; [reflexivity|split; [apply incl_refl|split; [exact Hsound|]]].
    intros x; split; [now left|intros [H|H]; [exact H|now apply Hsub]].
  - destruct queue as [|current queue].
    + exists visited, component; cbn.
      split; [reflexivity|split; [apply incl_refl|split; [exact Hsound|]]].
      intros x; split; [now left|intros [H|H]; [exact H|now apply Hsub]].
    + cbn [component_loop].
      destruct (visit_component_fold (neighbours (build_graph connections) current)
                  visited queue component Hsub) as (new & Hrun & Hincl & Hnew & Hndn).
      rewrite Hrun.
      assert (Hcur : In current component) by (apply Hq; now left).
      destruct (IH (visited ++ new) (queue ++ new) (component ++ new))
        as (visited' & component' & Hloop & Hs' & Hsound' & Hvis').
      * apply NoDup_app; [exact Hnd|exact Hndn|].
        intros x Hx Hx'; apply (Hnew x Hx'), Hsub, Hx.
      * intros x Hx; apply in_app_or in Hx as [Hx|Hx]; [now apply Hkeys|].
        right; eapply neighbours_are_keys, Hincl, Hx.
      * intros x Hx; apply in_app_or in Hx as [Hx|Hx]; apply in_or_app;
          [left; apply Hq; now right|now right].
      * intros x Hx; apply in_app_or in Hx as [Hx|Hx]; apply in_or_app;
          [left; now apply Hsub|now right].
      * apply in_or_app; now left.
      * intros v Hv; apply in_app_or in Hv as [Hv|Hv]; [now apply Hsound|].
        eapply reachable_step; [apply Hsound, Hcur|].
        apply neighbours_build_graph, Hincl, Hv.
      * rewrite !length_app; cbn [List.length] in Hfuel; lia.
      * exists visited', component'; split; [exact Hloop|].
        split; [intros x Hx; apply Hs', in_or_app; now left|].
        split; [exact Hsound'|].
        intros x; rewrite Hvis', in_app_iff; split; [|tauto].
        intros [[H|H]|H]; [now left| |now right].
        right; apply Hs', in_or_app; now right.
Qed.

(** Ids that hang together: all of them can be reached from one. *)
Definition rooted (connections : list Connection.t) (c : list string) : Prop :=
  exists root, In root c /\ forall v, In v c -> reachable connections root v.

Lemma rooted_incl l1 l2 c : incl l1 l2 -> rooted l1 c -> rooted l2 c.
Proof.
  intros Hincl (root & Hroot & Hall); exists root; split; [exact Hroot|].
  intros v Hv; eapply reachable_incl; [exact Hincl|now apply Hall].
Qed.

Lemma rooted_pairs connections c u v :
  rooted connections c -> In u c -> In v c -> reachable connections u v.
Proof.
  intros (root & _ & Hall) Hu Hv.
  eapply reachable_trans; [apply reachable_sym, Hall, Hu|apply Hall, Hv].
Qed.

(** The state of the component search: the components found so far and
    the ids they hold. *)
Definition components_ok (ids : list string) (connections : list Connection.t)
    (st : list string * list (list string)) : Prop :=
  Forall (rooted connections) (snd st)
  /\ Forall (fun c => incl c ids) (snd st)
  /\ forall x, In x (fst st) <-> exists c, In c (snd st) /\ In x c.

(** The body of the loop over the stations in the component search. *)
Definition component_step (graph : Graph) (st : list string * list (list string))
    (station : Station.t) : result (list string * list (list string)) :=
  let station_id := Station.id station in
  if mem station_id (fst st) then Ok st
  else
    rbind
      (component_loop (S (List.length graph)) graph
         (set_add station_id (fst st)) [station_id] [station_id])
      (fun vc => Ok (fst vc, snd st ++ [snd vc])).

Lemma find_components_unfold graph stations :
  find_components graph stations
  = rbind (fold_result stations (component_step graph) ([], []))
      (fun st => Ok (snd st)).
Proof. reflexivity. Qed.

Lemma find_components_step ids connections st station :
  endpoints_in ids connections -> In (Station.id station) ids ->
  components_ok ids connections st ->
  exists st',
    component_step (build_graph connections) st station = Ok st'
    /\ components_ok ids connections st'
    /\ incl (snd st) (snd st')
    /\ exists c, In c (snd st') /\ In (Station.id station) c.
Proof.
  intros Hends Hid (Hrooted & Hids & Hvis); unfold component_step; cbn zeta.
  destruct (mem (Station.id station) (fst st)) eqn:E.
  - exists st; split; [reflexivity|split; [exact (conj Hrooted (conj Hids Hvis))|]].
    split; [apply incl_refl|apply Hvis, mem_In, E].
  - unfold set_add; rewrite E.
    destruct (component_loop_spec connections (Station.id station)
                (S (List.length (build_graph connections)))
                (fst st ++ [Station.id station])
                [Station.id station] [Station.id station])
      as (visited' & component' & Hloop & Hsub & Hsound & Hvis').
    + repeat constructor; intros [].
    + intros x [<-|[]]; now left.
    + apply incl_refl.
    + intros x [<-|[]]; apply in_or_app; right; now left.
    + now left.
    + intros v [<-|[]]; constructor.
    + cbn [List.length]; lia.
    + rewrite Hloop; cbn [rbind fst snd].
      assert (Hin : In (Station.id station) component') by (apply Hsub; now left).
      eexists; split; [reflexivity|]; cbn [fst snd].
      split; [split; [|split]|split].
      * apply Forall_app; split; [exact Hrooted|].
        constructor; [|constructor].
        exists (Station.id station); split; [exact Hin|exact Hsound].
      * apply Forall_app; split; [exact Hids|].
        constructor; [|constructor].
        intros v Hv; eapply reachable_endpoints; [exact Hends|exact Hid|].
        now apply Hsound.
      * intros x; rewrite Hvis', in_app_iff, Hvis; split.
        -- intros [[(c & Hc & Hx)|[<-|[]]]|Hx].
           ++ exists c; split; [apply in_or_app; now left|exact Hx].
           ++ exists component'; split; [apply in_or_app; right; now left|exact Hin].
           ++ exists component'; split; [apply in_or_app; right; now left|exact Hx].
        -- intros (c & Hc & Hx); apply in_app_or in Hc as [Hc|[<-|[]]];
             [left; left; eauto|now right].
      * apply incl_appl, incl_refl.
      * exists component'; split; [apply in_or_app; right; now left|exact Hin].
Qed.

Lemma find_components_fold ids connections l :
  endpoints_in ids connections ->
  incl (map Station.id l) ids ->
  forall st,
  components_ok ids connections st ->
  exists st',
    fold_result l (component_step (build_graph connections)) st = Ok st'
    /\ components_ok ids connections st'
    /\ incl (snd st) (snd st')
    /\ forall s, In s l -> exists c, In c (snd st') /\ In (Station.id s) c.
Proof.
  intros Hends; induction l as [|station l IH]; intros Hl st Hok; cbn [fold_result].
  - exists st; split; [reflexivity|split; [exact Hok|split; [apply incl_refl|]]].
    intros s [].
  - destruct (find_components_step ids connections st station Hends) with
      (1 := Hl (Station.id station) (or_introl eq_refl)) (2 := Hok)
      as (st1 & Hstep & Hok1 & Hincl1 & c1 & Hc1 & Hin1).
    rewrite Hstep; cbn [rbind].
    destruct (IH (fun x Hx => Hl x (or_intror Hx)) st1 Hok1)
      as (st' & Hrun & Hok' & Hincl' & Hall).
    exists st'; split; [exact Hrun|split; [exact Hok'|split]].
    + eapply incl_tran; eassumption.
    + intros s [<-|Hs]; [|now apply Hall].
      exists c1; split; [now apply Hincl'|exact Hin1].
Qed.

(** The component search of [_ensure_connectivity] ends; every
    component it returns hangs together and holds station ids only, and
    every station is in a component. *)
Lemma find_components_spec stations connections :
  endpoints_in (map Station.id stations) connections ->
  exists components,
    find_components (build_graph connections) stations = Ok components
    /\ Forall (rooted connections) components
    /\ Forall (fun c => incl c (map Station.id stations)) components
    /\ forall s, In s stations -> exists c, In c components /\ In (Station.id s) c.
Proof.
  intros Hends; rewrite find_components_unfold.
  destruct (find_components_fold (map Station.id stations) connections stations
              Hends (incl_refl _) ([], []))
    as (st' & Hrun & (Hrooted & Hids & _) & _ & Hall).
  { split; [constructor|split; [constructor|]].
    intros x; cbn; split; [intros []|intros (c & [] & _)]. }
  rewrite Hrun; cbn [rbind]; eauto.
Qed.

Lemma station_dict_get_In stations i :
  In i (map Station.id stations) ->
  exists s, station_dict_get stations i = Ok s
            /\ In s stations /\ Station.id s = i.
Proof.
  intros Hi; unfold station_dict_get.
  destruct (find _ (rev stations)) as [s|] eqn:E.
  - apply find_some in E as [Hin Heq]; apply String.eqb_eq in Heq.
    exists s; split; [reflexivity|split; [now apply in_rev|exact Heq]].
  - apply in_map_iff in Hi as (s & <- & Hs).
    apply in_rev in Hs; apply (find_none _ _ E) in Hs.
    now rewrite String.eqb_refl in Hs.
Qed.

Section Bridges.

Variable stations : list Station.t.
Variable components : list (list string).
Hypothesis components_known :
  Forall (fun c => incl c (map Station.id stations)) components.

(** A bridge between two components, as the scan records it. *)
Definition bridge_ok (br : Bridge) : Prop :=
  (comp1_idx br < comp2_idx br)%nat
  /\ exists c1 c2 s1 s2,
       nth_error components (comp1_idx br) = Some c1
       /\ nth_error components (comp2_idx br) = Some c2
       /\ In (bridge_from br) c1 /\ In (bridge_to br) c2
       /\ station_dict_get stations (bridge_from br) = Ok s1
       /\ station_dict_get stations (bridge_to br) = Ok s2
       /\ bridge_dist br = station_distance s1 s2.

Definition best_bridge_ok (best : option Bridge) : Prop :=
  match best with None => True | Some br => bridge_ok br end.

Definition scan_pair (i j : nat) (s1_id : string) (best : option Bridge)
    (s2_id : string) : result (option Bridge) :=
  rbind (station_dict_get stations s1_id) (fun s1 =>
  rbind (station_dict_get stations s2_id) (fun s2 =>
    let dist := station_distance s1 s2 in
    match best with
    | None => Ok (Some (mkBridge dist s1_id s2_id i j))
    | Some br =>
        if dist <? bridge_dist br
        then Ok (Some (mkBridge dist s1_id s2_id i j))
        else Ok best
    end)).

Lemma scan_components_unfold i j comp1 comp2 best :
  scan_components stations i j comp1 comp2 best
  = fold_result comp1
      (fun best s1_id => fold_result comp2 (scan_pair i j s1_id) best) best.
Proof. reflexivity. Qed.

Lemma scan_pair_spec i j c1 c2 s1_id s2_id best :
  (i < j)%nat ->
  nth_error components i = Some c1 -> nth_error components j = Some c2 ->
  In s1_id c1 -> In s2_id c2 -> best_bridge_ok best ->
  exists br,
    scan_pair i j s1_id best s2_id = Ok (Some br) /\ bridge_ok br.
Proof.
  intros Hij Hc1 Hc2 H1 H2 Hbest; unfold scan_pair.
  rewrite Forall_forall in components_known.
  destruct (station_dict_get_In stations s1_id) as (s1 & Hs1 & _).
  { apply (components_known c1); [eapply nth_error_In, Hc1|exact H1]. }
  destruct (station_dict_get_In stations s2_id) as (s2 & Hs2 & _).
  { apply (components_known c2); [eapply nth_error_In, Hc2|exact H2]. }
  rewrite Hs1, Hs2; cbn [rbind].
  assert (Hnew : bridge_ok (mkBridge (station_distance s1 s2) s1_id s2_id i j)).
  { split; [exact Hij|]; exists c1, c2, s1, s2; cbn; repeat split; assumption. }
  destruct best as [br|]; [|eauto].
  destruct (_ <? _); eauto.
Qed.

Lemma scan_inner_spec i j c1 c2 s1_id l2 :
  (i < j)%nat ->
  nth_error components i = Some c1 -> nth_error components j = Some c2 ->
  In s1_id c1 -> incl l2 c2 ->
  forall best,
  best_bridge_ok best ->
  exists best',
    fold_result l2 (scan_pair i j s1_id) best = Ok best'
    /\ best_bridge_ok best'
    /\ (best <> None \/ l2 <> [] -> best' <> None).
Proof.
  intros Hij Hc1 Hc2 H1; induction l2 as [|s2_id l2 IH]; intros Hl2 best Hbest;
    cbn [fold_result].
  - exists best; split; [reflexivity|split; [exact Hbest|]].
    intros [H|H]; [exact H|congruence].
  - destruct (scan_pair_spec i j c1 c2 s1_id s2_id best Hij Hc1 Hc2 H1
                (Hl2 s2_id (or_introl eq_refl)) Hbest) as (br & Hrun & Hbr).
    rewrite Hrun; cbn [rbind].
    destruct (IH (fun x Hx => Hl2 x (or_intror Hx)) (Some br) Hbr)
      as (best' & Hrun' & Hok' & Hsome').
    exists best'; split; [exact Hrun'|split; [exact Hok'|]].
    intros _; apply Hsome'; left; discriminate.
Qed.

Lemma scan_components_spec i j c1 c2 l1 :
  (i < j)%nat ->
  nth_error components i = Some c1 -> nth_error components j = Some c2 ->
  incl l1 c1 ->
  forall best,
  best_bridge_ok best ->
  exists best',
    scan_components stations i j l1 c2 best = Ok best'
    /\ best_bridge_ok best'
    /\ (best <> None \/ (l1 <> [] /\ c2 <> []) -> best' <> None).
Proof.
  intros Hij Hc1 Hc2 Hl1 best Hbest; rewrite scan_components_unfold.
  revert Hl1 best Hbest.
  induction l1 as [|s1_id l1 IH]; intros Hl1 best Hbest; cbn [fold_result].
  - exists best; split; [reflexivity|split; [exact Hbest|]].
    intros [H|[H _]]; [exact H|congruence].
  - destruct (scan_inner_spec i j c1 c2 s1_id c2 Hij Hc1 Hc2
                (Hl1 s1_id (or_introl eq_refl)) (incl_refl _) best Hbest)
      as (best1 & Hrun1 & Hok1 & Hsome1).
    rewrite Hrun1; cbn [rbind].
    destruct (IH (fun x Hx => Hl1 x (or_intror Hx)) best1 Hok1)
      as (best' & Hrun' & Hok' & Hsome').
    exists best'; split; [exact Hrun'|split; [exact Hok'|]].
    intros H; apply Hsome'; left; apply Hsome1.
    destruct H as [H|[_ H]]; [now left|now right].
Qed.

(** The scan of one component against those after it. *)
Lemma scan_rest_spec i c1 :
  nth_error components i = Some c1 ->
  forall rest j0,
  (i < j0)%nat ->
  (forall k c, nth_error rest k = Some c -> nth_error components (j0 + k) = Some c) ->
  forall best,
  best_bridge_ok best ->
  exists best',
    fold_result (combine (seq j0 (List.length rest)) rest)
      (fun best jc => scan_components stations i (fst jc) c1 (snd jc) best) best
    = Ok best'
    /\ best_bridge_ok best'
    /\ (best <> None \/ (c1 <> [] /\ exists c, In c rest /\ c <> []) ->
        best' <> None).
Proof.
  intros Hc1; induction rest as [|c2 rest IH]; intros j0 Hj0 Hrest best Hbest;
    cbn [List.length seq combine fold_result].
  - exists best; split; [reflexivity|split; [exact Hbest|]].
    intros [H|[_ (c & [] & _)]]; exact H.
  - cbn [fst snd].
    destruct (scan_components_spec i j0 c1 c2 c1 Hj0 Hc1) with (best := best)
      as (best1 & Hrun1 & Hok1 & Hsome1);
      [rewrite <- (Nat.add_0_r j0); apply Hrest; reflexivity
      |apply incl_refl|exact Hbest|].
    rewrite Hrun1; cbn [rbind].
    destruct (IH (S j0)) with (best := best1)
      as (best' & Hrun' & Hok' & Hsome'); [lia| |exact Hok1|].
    { intros k c Hk; replace (S j0 + k)%nat with (j0 + S k)%nat by lia.
      now apply Hrest. }
    exists best'; split; [exact Hrun'|split; [exact Hok'|]].
    intros [H|[Hne (c & [<-|Hc] & Hc')]]; apply Hsome'.
    + left; apply Hsome1; now left.
    + left; apply Hsome1; right; split; assumption.
    + right; split; [exact Hne|eauto].
Qed.

Lemma closest_bridge_spec suffix :
  forall i,
  (forall k c, nth_error suffix k = Some c -> nth_error components (i + k) = Some c) ->
  forall best,
  best_bridge_ok best ->
  exists best',
    closest_bridge stations i suffix best = Ok best'
    /\ best_bridge_ok best'
    /\ (best <> None
        \/ ((2 <= List.length suffix)%nat /\ Forall (fun c => c <> []) suffix) ->
        best' <> None).
Proof.
  induction suffix as [|c1 rest IH]; intros i Hsuffix best Hbest;
    cbn [closest_bridge].
  - exists best; split; [reflexivity|split; [exact Hbest|]].
    intros [H|[H _]]; [exact H|cbn in H; lia].
  - assert (Hc1 : nth_error components i = Some c1).
    { rewrite <- (Nat.add_0_r i); apply Hsuffix; reflexivity. }
    destruct (scan_rest_spec i c1 Hc1 rest (S i)) with (best := best)
      as (best1 & Hrun1 & Hok1 & Hsome1); [lia| |exact Hbest|].
    { intros k c Hk; replace (S i + k)%nat with (i + S k)%nat by lia.
      now apply Hsuffix. }
    rewrite Hrun1; cbn [rbind].
    destruct (IH (S i)) with (best := best1)
      as (best' & Hrun' & Hok' & Hsome'); [|exact Hok1|].
    { intros k c Hk; replace (S i + k)%nat with (i + S k)%nat by lia.
      now apply Hsuffix. }
    exists best'; split; [exact Hrun'|split; [exact Hok'|]].
    intros H; apply Hsome'; left; apply Hsome1.
    destruct H as [H|[Hlen Hne]]; [now left|right].
    inversion Hne as [|? ? Hc1ne Hrestne]; subst.
    split; [exact Hc1ne|].
    destruct rest as [|c2 rest']; [cbn in Hlen; lia|].
    exists c2; split; [now left|now inversion Hrestne].
Qed.

End Bridges.

Lemma set_update_In l extra x :
  In x (set_update l extra) <-> In x l \/ In x extra.
Proof.
  unfold set_update; revert l; induction extra as [|a extra IH]; intros l;
    cbn [fold_left].
  - cbn; tauto.
  - rewrite IH, set_add_In; cbn; intuition congruence.
Qed.

Lemma nth_error_list_pop {A} (l : list A) j k :
  nth_error (list_pop l j) k
  = if (k <? j)%nat then nth_error l k else nth_error l (S k).
Proof.
  revert j k; induction l as [|h t IH]; intros [|j] [|k]; cbn [list_pop nth_error];
    try reflexivity.
  - now destruct (_ <? _)%nat.
  - rewrite IH; reflexivity.
Qed.

Lemma list_pop_length {A} (l : list A) j :
  (j < List.length l)%nat -> List.length (list_pop l j) = (List.length l - 1)%nat.
Proof.
  revert j; induction l as [|h t IH]; intros [|j] Hj; cbn in *; try lia.
  rewrite IH by lia; lia.
Qed.

(** An edge of the repair: 120 per grid unit between the two stations
    the ids stand for. *)
Definition is_repair_edge (stations : list Station.t) (c : Connection.t) : Prop :=
  exists s1 s2,
    station_dict_get stations (Connection.from c) = Ok s1
    /\ station_dict_get stations (Connection.to c) = Ok s2
    /\ Connection.walk_time c = station_distance s1 s2 * 120.

(** What the repair loop maintains. *)
Definition repair_ok (stations : list Station.t) (connections : list Connection.t)
    (components : list (list string)) : Prop :=
  Forall (rooted connections) components
  /\ Forall (fun c => incl c (map Station.id stations)) components
  /\ forall s, In s stations ->
       exists c, In c components /\ In (Station.id s) c.

Lemma repair_merge stations connections components br :
  repair_ok stations connections components ->
  bridge_ok stations components br ->
  repair_ok stations
    (connections
     ++ [Connection.mk (bridge_from br) (bridge_to br) (bridge_dist br * 120)])
    (list_pop
       (list_update components (comp1_idx br)
          (fun c => set_update c (nth (comp2_idx br) components [])))
       (comp2_idx br))
  /\ List.length
       (list_pop
          (list_update components (comp1_idx br)
             (fun c => set_update c (nth (comp2_idx br) components [])))
          (comp2_idx br))
     = (List.length components - 1)%nat
  /\ is_repair_edge stations
       (Connection.mk (bridge_from br) (bridge_to br) (bridge_dist br * 120)).
Proof.
  intros (Hrooted & Hids & Hcover)
    (Hij & c1 & c2 & s1 & s2 & Hc1 & Hc2 & Hfrom & Hto & Hs1 & Hs2 & Hdist).
  set (i := comp1_idx br) in *; set (j := comp2_idx br) in *.
  set (edge := Connection.mk (bridge_from br) (bridge_to br) (bridge_dist br * 120)).
  rewrite (nth_error_nth _ _ [] Hc2).
  set (merged := list_update components i (fun c => set_update c c2)).
  rewrite Forall_forall in Hrooted, Hids.
  assert (Hin1 : In c1 components) by (eapply nth_error_In, Hc1).
  assert (Hin2 : In c2 components) by (eapply nth_error_In, Hc2).
  assert (Hj : (j < List.length components)%nat)
    by (apply nth_error_Some; congruence).
  assert (Hnth : forall k,
            nth_error (list_pop merged j) k
            = if (k <? j)%nat
              then if Nat.eqb i k then Some (set_update c1 c2)
                   else nth_error components k
              else nth_error components (S k)).
  { intros k; rewrite nth_error_list_pop; unfold merged.
    rewrite !nth_error_list_update.
    destruct (Nat.ltb_spec k j).
    - destruct (Nat.eqb_spec i k) as [<-|]; [now rewrite Hc1|reflexivity].
    - destruct (Nat.eqb_spec i (S k)); [lia|reflexivity]. }
  assert (Hold : forall c', In c' (list_pop merged j) ->
            c' = set_update c1 c2 \/ In c' components).
  { intros c' Hc'; apply In_nth_error in Hc' as (k & Hk); rewrite Hnth in Hk.
    destruct (k <? j)%nat; [destruct (Nat.eqb i k)|].
    - left; congruence.
    - right; eapply nth_error_In, Hk.
    - right; eapply nth_error_In, Hk. }
  assert (Hmerged : In (set_update c1 c2) (list_pop merged j)).
  { apply (nth_error_In _ i); rewrite Hnth.
    destruct (Nat.ltb_spec i j); [|lia]; now rewrite Nat.eqb_refl. }
  assert (Hedge : adjacent (connections ++ [edge]) (bridge_from br) (bridge_to br)).
  { refine (proj1 (connection_exists_In _ _ _ (bridge_dist br * 120) _)).
    apply in_or_app; right; now left. }
  split; [split; [|split]|split].
  - apply Forall_forall; intros c' Hc'; destruct (Hold c' Hc') as [->|Hc''].
    + destruct (Hrooted c1 Hin1) as (root & Hroot & Hall).
      exists root; split; [apply set_update_In; now left|].
      intros v Hv; apply set_update_In in Hv as [Hv|Hv].
      * eapply reachable_incl; [apply incl_appl, incl_refl|now apply Hall].
      * eapply reachable_trans;
          [eapply reachable_incl; [apply incl_appl, incl_refl|apply Hall, Hfrom]|].
        eapply reachable_trans; [eapply reachable_step; [constructor|exact Hedge]|].
        eapply reachable_incl; [apply incl_appl, incl_refl|].
        eapply rooted_pairs; [apply Hrooted, Hin2|exact Hto|exact Hv].
    + eapply rooted_incl; [apply incl_appl, incl_refl|now apply Hrooted].
  - apply Forall_forall; intros c' Hc'; destruct (Hold c' Hc') as [->|Hc''].
    + intros v Hv; apply set_update_In in Hv as [Hv|Hv];
        [now apply (Hids c1)|now apply (Hids c2)].
    + now apply Hids.
  - intros s Hs; destruct (Hcover s Hs) as (c & Hc & Hin).
    apply In_nth_error in Hc as (k & Hk).
    destruct (Nat.eq_dec k i) as [->|Hki];
      [|destruct (Nat.eq_dec k j) as [->|Hkj]].
    + exists (set_update c1 c2); split; [exact Hmerged|].
      apply set_update_In; left; congruence.
    + exists (set_update c1 c2); split; [exact Hmerged|].
      apply set_update_In; right; congruence.
    + exists c; split; [|exact Hin].
      destruct (Nat.ltb_spec k j) as [Hlt|Hge].
      * apply (nth_error_In _ k); rewrite Hnth.
        destruct (Nat.ltb_spec k j); [|lia].
        destruct (Nat.eqb_spec i k); [congruence|exact Hk].
      * apply (nth_error_In _ (k - 1)); rewrite Hnth.
        destruct (Nat.ltb_spec (k - 1) j); [lia|].
        replace (S (k - 1)) with k by lia; exact Hk.
  - rewrite list_pop_length; unfold merged; rewrite list_update_length;
      [reflexivity|exact Hj].
  - exists s1, s2; cbn; repeat split; try assumption; now rewrite Hdist.
Qed.

Lemma rooted_nonempty connections c : rooted connections c -> c <> [].
Proof. intros (root & Hroot & _) ->; destruct Hroot. Qed.

Lemma repair_loop_spec stations fuel :
  forall components connections,
  repair_ok stations connections components ->
  (List.length components <= S fuel)%nat ->
  exists added,
    repair_loop fuel stations components connections = Ok (connections ++ added)
    /\ Forall (is_repair_edge stations) added
    /\ List.length added = (List.length components - 1)%nat
    /\ forall s t, In s stations -> In t stations ->
         reachable (connections ++ added) (Station.id s) (Station.id t).
Proof.
  assert (Hdone : forall components connections,
             repair_ok stations connections components ->
             (List.length components <= 1)%nat ->
             forall s t, In s stations -> In t stations ->
             reachable connections (Station.id s) (Station.id t)).
  { intros components connections (Hrooted & _ & Hcover) Hlen s t Hs Ht.
    destruct (Hcover s Hs) as (cs & Hcs & Hins).
    destruct (Hcover t Ht) as (ct & Hct & Hint).
    destruct components as [|c [|c' rest]]; [destruct Hcs| |cbn in Hlen; lia].
    destruct Hcs as [<-|[]], Hct as [<-|[]].
    inversion Hrooted; subst; eapply rooted_pairs; eassumption. }
  induction fuel as [|fuel IH]; intros components connections Hok Hlen;
    cbn [repair_loop];
    destruct (Nat.ltb_spec 1 (List.length components)) as [Hmany|Hfew]; try lia.
  1, 3: exists []; rewrite app_nil_r; split; [reflexivity|split; [constructor|]];
    split; [cbn; lia|now apply (Hdone components)].
  destruct Hok as (Hrooted & Hids & Hcover).
  destruct (closest_bridge_spec stations components Hids components 0)
    with (best := @None Bridge) as (best & Hrun & Hbest & Hsome);
    [intros k c Hk; exact Hk|exact I|].
  rewrite Hrun; cbn [rbind].
  destruct best as [br|]; [|exfalso; apply Hsome; [|reflexivity]].
  - destruct (repair_merge stations connections components br
                (conj Hrooted (conj Hids Hcover)) Hbest) as (Hok' & Hlen' & Hedge).
    destruct (IH _ _ Hok') as (added & Hloop & Hadded & Hcount & Hreach); [lia|].
    exists (Connection.mk (bridge_from br) (bridge_to br) (bridge_dist br * 120)
            :: added).
    rewrite Hloop, <- app_assoc; cbn [app].
    split; [reflexivity|split; [now constructor|split]].
    + cbn [List.length]; lia.
    + intros s t Hs Ht; specialize (Hreach s t Hs Ht).
      now rewrite <- app_assoc in Hreach.
  - right; split; [lia|].
    eapply Forall_impl; [|exact Hrooted]; intros c; apply rooted_nonempty.
Qed.

(** X22: [_ensure_connectivity] keeps its promise whenever every
    connection joins ids of listed stations.  It ends without an
    exception; it returns the connections it was given followed by the
    edges it adds, each with [walk_time] 120 times the distance of the
    two stations it joins; in the result every station can be reached
    from every other; and it adds nothing when that was already so.
    (Which of several equally close pairs a repair edge joins depends
    on the iteration order of a set, which the statement leaves
    open.) *)
Theorem ensure_connectivity_connects stations connections :
  endpoints_in (map Station.id stations) connections ->
  exists added,
    _ensure_connectivity stations connections = Ok (connections ++ added)
    /\ Forall (is_repair_edge stations) added
    /\ (forall s t, In s stations -> In t stations ->
          reachable (connections ++ added) (Station.id s) (Station.id t))
    /\ ((forall s t, In s stations -> In t stations ->
           reachable connections (Station.id s) (Station.id t)) ->
        added = []).
Proof.
  intros Hends; unfold _ensure_connectivity.
  destruct stations as [|s0 rest].
  - exists []; rewrite app_nil_r; cbn.
    split; [reflexivity|split; [constructor|split; [intros s t []|reflexivity]]].
  - destruct (verify_connectivity_reachable s0 rest connections Hends)
      as (connected & Hverify & Hiff).
    rewrite Hverify; cbn [rbind]; destruct connected.
    + exists []; rewrite app_nil_r.
      split; [reflexivity|split; [constructor|split; [|reflexivity]]].
      apply (reachable_all_pairs (s0 :: rest) connections s0), Hiff; reflexivity.
    + destruct (find_components_spec (s0 :: rest) connections Hends)
        as (components & Hfind & Hrooted & Hids & Hcover).
      rewrite Hfind; cbn [rbind].
      destruct (repair_loop_spec (s0 :: rest) (List.length components)
                  components connections (conj Hrooted (conj Hids Hcover)))
        as (added & Hloop & Hadded & _ & Hreach); [lia|].
      exists added; split; [exact Hloop|split; [exact Hadded|split; [exact Hreach|]]].
      intros Hall; exfalso.
      assert (Htrue : false = true); [|discriminate].
      apply Hiff; intros s Hs; apply Hall; [now left|exact Hs].
Qed.

Lemma ensure_connectivity_connects_witness :
  exists added,
    _ensure_connectivity three_stations [] = Ok ([] ++ added)
    /\ Forall (is_repair_edge three_stations) added
    /\ (forall s t, In s three_stations -> In t three_stations ->
          reachable ([] ++ added) (Station.id s) (Station.id t))
    /\ ((forall s t, In s three_stations -> In t three_stations ->
           reachable [] (Station.id s) (Station.id t)) ->
        added = []).
Proof.
  apply (ensure_connectivity_connects three_stations []).
  intros c [].
Defined.

(** ** Batches of cities *)

Definition decode_number (s : string) : nat :=
  match NilZero.uint_of_string s with
  | Some d => Nat.of_uint d
  | None => O
  end.

Lemma decode_str_of_nat i : decode_number (str_of_nat i) = i.
Proof.
  unfold decode_number, str_of_nat.
  rewrite NilZero.usu; [apply DecimalNat.Unsigned.of_to|].
  intros Hk; pose proof (DecimalNat.Unsigned.of_to i) as Hof.
  rewrite Hk in Hof; cbn in Hof; subst i; discriminate.
Qed.

Lemma decode_leading_zero s :
  s <> EmptyString -> decode_number (String "0" s) = decode_number s.
Proof.
  intros Hs; destruct s as [|a s]; [congruence|].
  unfold decode_number, NilZero.uint_of_string.
  change (NilEmpty.uint_of_string (String "0" (String a s)))
    with (match NilEmpty.uint_of_string (String a s) with
          | Some d => Some (Decimal.D0 d)
          | None => None
          end).
  destruct (NilEmpty.uint_of_string (String a s)); reflexivity.
Qed.

Lemma decode_pad3 i : decode_number (pad3 i) = i.
Proof.
  unfold pad3; cbv zeta.
  destruct (str_of_nat i) as [|a [|b [|c s]]] eqn:E; cbn [String.length].
  - rewrite <- E; apply decode_str_of_nat.
  - cbn [String.append]; rewrite !decode_leading_zero by discriminate.
    rewrite <- E; apply decode_str_of_nat.
  - cbn [String.append]; rewrite !decode_leading_zero by discriminate.
    rewrite <- E; apply decode_str_of_nat.
  - rewrite <- E; apply decode_str_of_nat.
Qed.

Lemma length_append (s1 s2 : string) :
  String.length (s1 ++ s2) = (String.length s1 + String.length s2)%nat.
Proof. induction s1 as [|a s1 IH]; cbn; [reflexivity|now rewrite IH]. Qed.

Lemma append_inv_tail (s1 s2 t : string) :
  (s1 ++ t)%string = (s2 ++ t)%string -> s1 = s2.
Proof.
  revert s2; induction s1 as [|a s1 IH]; intros [|b s2]; cbn; intros H.
  - reflexivity.
  - exfalso; apply (f_equal String.length) in H; cbn in H.
    rewrite length_append in H; lia.
  - exfalso; apply (f_equal String.length) in H; cbn in H.
    rewrite length_append in H; lia.
  - injection H as -> H; f_equal; now apply IH.
Qed.

Lemma batch_filename_inj_nat i j : batch_filename i = batch_filename j -> i = j.
Proof.
  unfold batch_filename; cbn [String.append]; intros H.
  injection H as H; apply append_inv_tail in H.
  rewrite <- (decode_pad3 i), <- (decode_pad3 j); now rewrite H.
Qed.

(** X23: the files of a batch never collide: two indices get the same
    name [city_NNN.json] only when they are equal, also from 1000 on,
    where the number takes more than three digits. *)
Theorem batch_filename_inj i j :
  batch_filename i = batch_filename j <-> i = j.
Proof.
  split; [apply batch_filename_inj_nat|now intros ->].
Qed.

Lemma write_file_In path document files p c :
  In (p, c) (write_file path document files)
  <-> (p = path /\ c = document) \/ (p <> path /\ In (p, c) files).
Proof.
  unfold write_file; cbn [In]; rewrite filter_In; cbn [fst].
  destruct (String.eqb_spec p path) as [->|Hne]; cbn [negb];
    intuition congruence.
Qed.

(** The path of the [i]-th file of a batch. *)
Definition batch_path (i : Z) : string :=
  ("data/" ++ batch_filename (Z.to_nat i))%string.

Lemma batch_path_inj i j : 0 <= i -> 0 <= j -> batch_path i = batch_path j -> i = j.
Proof.
  unfold batch_path; cbn [String.append]; intros Hi Hj H.
  injection H as H.
  assert (E : batch_filename (Z.to_nat i) = batch_filename (Z.to_nat j)).
  { unfold batch_filename; cbn [String.append]; now rewrite H. }
  apply batch_filename_inj_nat in E; lia.
Qed.

Lemma batch_loop_writes b :
  3 <= grid_size b -> zone_types b <> [] ->
  forall indices dir g,
  dir_exists dir = true ->
  Forall (fun i => 0 <= i) indices -> NoDup indices ->
  exists dir' g',
    batch_loop b indices dir g = Written dir' g'
    /\ dir_exists dir' = true
    /\ (forall i, In i indices ->
          exists city gi gi',
            generate_random_city b gi = Ok (city, gi')
            /\ In (batch_path i, city) (dir_files dir'))
    /\ (forall path city,
          In (path, city) (dir_files dir) ->
          (forall i, In i indices -> path <> batch_path i) ->
          In (path, city) (dir_files dir'))
    /\ (forall path city,
          In (path, city) (dir_files dir') ->
          In (path, city) (dir_files dir)
          \/ exists i, In i indices /\ path = batch_path i).
Proof.
  intros Hgs Hzt; induction indices as [|i rest IH]; intros dir g Hdir Hpos Hnd;
    cbn [batch_loop].
  - exists dir, g; split; [reflexivity|split; [exact Hdir|split; [intros i []|]]].
    split; [intros path city H _; exact H|intros path city H; now left].
  - destruct (generate_random_city_total b g Hgs Hzt) as (city & g1 & Hrun).
    rewrite Hrun; unfold save_city; rewrite Hdir.
    inversion Hpos as [|? ? Hi Hpos']; subst.
    inversion Hnd as [|? ? Hnotin Hnd']; subst.
    fold (batch_path i).
    set (dir1 := mkDataDir true (write_file (batch_path i) city (dir_files dir))).
    destruct (IH dir1 g1 eq_refl Hpos' Hnd')
      as (dir' & g' & Hloop & Hdir' & Hnew & Hkept & Hall).
    exists dir', g'; split; [exact Hloop|split; [exact Hdir'|split; [|split]]].
    + intros k [<-|Hk]; [|now apply Hnew].
      exists city, g, g1; split; [exact Hrun|].
      apply Hkept; [apply write_file_In; now left|].
      intros j Hj Heq; apply batch_path_inj in Heq; [subst j; contradiction|exact Hi|].
      rewrite Forall_forall in Hpos'; now apply Hpos'.
    + intros path c Hin Hother; apply Hkept.
      * apply write_file_In; right; split; [apply Hother; now left|exact Hin].
      * intros j Hj; apply Hother; now right.
    + intros path c Hin; destruct (Hall path c Hin) as [Hold|(j & Hj & ->)].
      * apply write_file_In in Hold as [[-> _]|[_ Hold]];
          [right; exists i; split; [now left|reflexivity]|now left].
      * right; exists j; split; [now right|reflexivity].
Qed.

(** X24: with a [data/] directory, a grid size of at least 3 and a
    non-empty category list, [generate_batch_cities] ends after writing
    one file per index: for every [i] below [count] the directory holds
    [data/city_NNN.json] with a city this builder generated; a file
    with any other name is left as it was, and nothing else appears. *)
Theorem generate_batch_cities_writes b count dir g :
  3 <= grid_size b -> zone_types b <> [] -> dir_exists dir = true ->
  exists dir' g',
    generate_batch_cities b count dir g = Written dir' g'
    /\ (forall i, 0 <= i < count ->
          exists city gi gi',
            generate_random_city b gi = Ok (city, gi')
            /\ In (batch_path i, city) (dir_files dir'))
    /\ (forall path city,
          In (path, city) (dir_files dir) ->
          (forall i, 0 <= i < count -> path <> batch_path i) ->
          In (path, city) (dir_files dir'))
    /\ (forall path city,
          In (path, city) (dir_files dir') ->
          In (path, city) (dir_files dir)
          \/ exists i, 0 <= i < count /\ path = batch_path i).
Proof.
  intros Hgs Hzt Hdir; unfold generate_batch_cities.
  destruct (batch_loop_writes b Hgs Hzt (range 0 count) dir g Hdir)
    as (dir' & g' & Hloop & _ & Hnew & Hkept & Hall).
  { apply Forall_forall; intros i Hi; apply in_range in Hi; lia. }
  { apply NoDup_range. }
  exists dir', g'; split; [exact Hloop|split; [|split]].
  - intros i Hi; apply Hnew, in_range, Hi.
  - intros path city Hin Hother; apply Hkept; [exact Hin|].
    intros i Hi; apply Hother, in_range, Hi.
  - intros path city Hin; destruct (Hall path city Hin) as [H|(i & Hi & ->)];
      [now left|right; exists i; split; [now apply in_range|reflexivity]].
Qed.

Lemma generate_batch_cities_writes_witness :
  exists dir' g',
    generate_batch_cities (CityBuilder_init 4) 2 (mkDataDir true []) tape_a
    = Written dir' g'
    /\ (forall i, 0 <= i < 2 ->
          exists city gi gi',
            generate_random_city (CityBuilder_init 4) gi = Ok (city, gi')
            /\ In (batch_path i, city) (dir_files dir'))
    /\ (forall path city,
          In (path, city) (dir_files (mkDataDir true [])) ->
          (forall i, 0 <= i < 2 -> path <> batch_path i) ->
          In (path, city) (dir_files dir'))
    /\ (forall path city,
          In (path, city) (dir_files dir') ->
          In (path, city) (dir_files (mkDataDir true []))
          \/ exists i, 0 <= i < 2 /\ path = batch_path i).
Proof.
  apply (generate_batch_cities_writes (CityBuilder_init 4) 2 (mkDataDir true [])
           tape_a).
  - cbn; lia.
  - cbn; discriminate.
  - reflexivity.
Defined.

(** X25: without a [data/] directory a batch of one city or more
    generates its first city and then fails with the
    [FileNotFoundError] of [open]: [generate_batch_cities] does not
    create the directory. *)
Theorem generate_batch_cities_without_data_dir b count dir g :
  3 <= grid_size b -> zone_types b <> [] ->
  dir_exists dir = false -> 1 <= count ->
  generate_batch_cities b count dir g = SaveFailed.
Proof.
  intros Hgs Hzt Hdir Hcount; unfold generate_batch_cities.
  rewrite (range_cons 0 count) by lia; cbn [batch_loop].
  destruct (generate_random_city_total b g Hgs Hzt) as (city & g1 & Hrun).
  rewrite Hrun; unfold save_city; now rewrite Hdir.
Qed.

Lemma generate_batch_cities_without_data_dir_witness :
  generate_batch_cities (CityBuilder_init 8) 5 (mkDataDir false []) tape_a
  = SaveFailed.
Proof.
  apply (generate_batch_cities_without_data_dir (CityBuilder_init 8) 5
           (mkDataDir false []) tape_a).
  - cbn; lia.
  - cbn; discriminate.
  - reflexivity.
  - lia.
Defined.

(** ** A repeated station id *)

Lemma backbone_loop_spins stations :
  ~ NoDup (map Station.id stations) ->
  forall fuel connected connections,
  NoDup connected -> incl connected (map Station.id stations) ->
  backbone_loop fuel stations connected connections = Raise NonTermination.
Proof.
  intros Hdup.
  assert (Hshort : forall connected,
             NoDup connected -> incl connected (map Station.id stations) ->
             (List.length connected < List.length stations)%nat).
  { intros connected Hnd Hincl.
    destruct (Nat.lt_ge_cases (List.length connected) (List.length stations))
      as [H|H]; [exact H|exfalso; apply Hdup].
    apply (NoDup_incl_NoDup Hnd); [now rewrite length_map|exact Hincl]. }
  induction fuel as [|fuel IH]; intros connected connections Hnd Hincl;
    cbn [backbone_loop];
    destruct (Nat.ltb_spec (List.length connected) (List.length stations))
      as [Hlt|Hge]; try (specialize (Hshort connected Hnd Hincl); lia);
    [reflexivity|].
  pose proof (proj1 (closest_pair_spec stations connected)) as Hok.
  destruct (closest_pair stations connected) as [[d [s1 s2]]|]; [|reflexivity].
  destruct Hok as [(_ & Hs2 & _ & _) _].
  apply IH; [now apply set_add_NoDup|].
  intros x Hx; apply set_add_In in Hx as [Hx| ->]; [now apply Hincl|now apply in_map].
Qed.

(** X26: a repeated station id makes [_generate_connections] spin: the
    backbone loop waits for as many connected ids as there are
    stations, which never happens, and once every id is connected an
    iteration finds no pair and changes nothing.  (In the model a loop
    that can no longer progress is the exception [NonTermination].) *)
Theorem generate_connections_spins_on_repeated_id stations :
  ~ NoDup (map Station.id stations) ->
  _generate_connections stations = Raise NonTermination.
Proof.
  intros Hdup; unfold _generate_connections.
  pose proof (transfer_pass_ids stations) as Hsame.
  destruct (transfer_pass stations) as [store transfers]; cbn [fst] in Hsame.
  rewrite <- Hsame in Hdup.
  unfold backbone_pass; rewrite backbone_loop_spins; [reflexivity|exact Hdup| |].
  - destruct store; [constructor|repeat constructor; intros []].
  - destruct store as [|s0 rest]; [intros x []|].
    intros x [<-|[]]; now left.
Qed.

Lemma generate_connections_spins_on_repeated_id_witness :
  _generate_connections
    [Station.mk "station_0" 0 0 Metro false; Station.mk "station_0" 2 2 Bus false]
  = Raise NonTermination.
Proof.
  apply (generate_connections_spins_on_repeated_id
           [Station.mk "station_0" 0 0 Metro false;
            Station.mk "station_0" 2 2 Bus false]).
  cbn; intros H; inversion H as [|? ? Hnotin _]; apply Hnotin; now left.
Defined.
